(** * Study Buddy front-end fragments: speech controller, voice picker,
      expiry widget

    A shallow embedding of [src/hooks/useNativeTTS.ts] (sanitizeText,
    getBestVoice, speak, stop), of the [getVoiceLabel] helper of the voice
    selector and of the [expiringStudents] computation of the expiring
    subscriptions widget, with the properties the specification states
    about them. *)

From Stdlib Require Import ZArith QArith Qminmax Lia Bool.
From stdpp Require Import base list strings gmap pretty sorting.

Local Open Scope Z_scope.

(** ** Texts

    A JavaScript string is a sequence of UTF-16 code units.  The patterns of
    [sanitizeText] carrying the [u] flag read it code point by code point
    (a high surrogate directly followed by a low surrogate is one code
    point), the other patterns read it unit by unit. *)

Definition ustring := list Z.

(** The code units of an ASCII literal. *)
Definition units (s : string) : ustring :=
  map (fun a => Z.of_N (Ascii.N_of_ascii a)) (String.list_ascii_of_string s).

Module Sanitize.

Definition inRange (lo hi c : Z) : bool := (lo <=? c) && (c <=? hi).

Definition isHigh (c : Z) : bool := inRange 0xD800 0xDBFF c.
Definition isLow (c : Z) : bool := inRange 0xDC00 0xDFFF c.
Definition isSurrogate (c : Z) : bool := inRange 0xD800 0xDFFF c.

Definition codePoint (hi lo : Z) : Z :=
  0x10000 + (hi - 0xD800) * 0x400 + (lo - 0xDC00).

(** [.replace(/[\u{lo}-\u{hi}]/gu, '')]: one left-to-right pass over the code
    points, dropping those in the range. *)
Fixpoint removeRange (lo hi : Z) (s   : ustring) : ustring :=
  match s with
  | [] => []
  | c :: r =>
      match r with
      | d :: r' =>
          if isHigh c && isLow d then
            if inRange lo hi (codePoint c d) then removeRange lo hi r'
            else c :: d :: removeRange lo hi r'
          else if inRange lo hi c then removeRange lo hi r
          else c :: removeRange lo hi r
      | [] => if inRange lo hi c then [] else [c]
      end
  end.

(** The seven emoji ranges, in the order of the source. *)
Definition emojiRanges : list (Z * Z) :=
  [ (0x1F600, 0x1F64F); (0x1F300, 0x1F5FF); (0x1F680, 0x1F6FF);
    (0x2600, 0x26FF); (0x2700, 0x27BF); (0x1F900, 0x1F9FF);
    (0x1FA00, 0x1FA6F) ].

Definition removeEmoji (s   : ustring) : ustring :=
  fold_left (fun acc r => removeRange r.1 r.2 acc) emojiRanges s.

Definition isEmoji (cp : Z) : bool :=
  existsb (fun r => inRange r.1 r.2 cp) emojiRanges.

(** *** Global replacement by a pattern

    A [matcher] tries the pattern at the start of a text and returns the
    replacement together with the text after the match.
    [String.prototype.replace] with a [g] pattern tries every position from
    the left and resumes after each match; none of the patterns below can
    match the empty text. *)
Definition matcher := ustring -> option (ustring * ustring).

Fixpoint replaceFrom (m : matcher) (fuel : nat) (s   : ustring) : ustring :=
  match s with
  | [] => []
  | c :: s' =>
      match fuel with
      | O => s
      | S fuel' =>
          match m s with
          | Some (out, rest) => out ++ replaceFrom m fuel' rest
          | None => c :: replaceFrom m fuel' s'
          end
      end
  end.

Definition replaceAll (m : matcher) (s   : ustring) : ustring :=
  replaceFrom m (length s) s.

Fixpoint stripPrefix (p s   : ustring) : option ustring :=
  match p with
  | [] => Some s
  | a :: p' =>
      match s with
      | c :: s' => if a =? c then stripPrefix p' s' else None
      | [] => None
      end
  end.

(** [.] without the [s] flag: any unit but a line terminator. *)
Definition isLineTerminator (c : Z) : bool :=
  (c =? 0x0A) || (c =? 0x0D) || (c =? 0x2028) || (c =? 0x2029).

(** [\s], which is also the set [trim] strips: WhiteSpace and
    LineTerminator of ECMAScript. *)
Definition isSpace (c : Z) : bool :=
  inRange 0x09 0x0D c || (c =? 0x20) || (c =? 0xA0) || (c =? 0x1680)
  || inRange 0x2000 0x200A c || (c =? 0x2028) || (c =? 0x2029)
  || (c =? 0x202F) || (c =? 0x205F) || (c =? 0x3000) || (c =? 0xFEFF).

(** [(.*?)close]: the lazy group grows one unit at a time until [close]
    follows; it cannot grow over a line terminator. *)
Fixpoint lazyUntil (close   : ustring) (s   : ustring) : option (ustring * ustring) :=
  match stripPrefix close s with
  | Some rest => Some ([], rest)
  | None =>
      match s with
      | [] => None
      | c :: s' =>
          if isLineTerminator c then None
          else match lazyUntil close s' with
               | Some (g, rest) => Some (c :: g, rest)
               | None => None
               end
      end
  end.

(** [open(.*?)close] replaced by ['$1']. *)
Definition delimited (open close   : ustring) : matcher := fun s =>
  match stripPrefix open s with
  | Some r => lazyUntil close r
  | None => None
  end.

Definition star : Z := 42.
Definition backtick : Z := 96.
Definition hash : Z := 35.
Definition newline : Z := 10.
Definition space : Z := 32.
Definition dot : Z := 46.

Definition boldPattern : matcher := delimited [star; star] [star; star].
Definition italicPattern : matcher := delimited [star] [star].
Definition codePattern : matcher := delimited [backtick] [backtick].

(** [#{1,6}\s] replaced by ['']: the greedy quantifier first takes [n]
    hashes, and gives one back each time the unit after them is not
    white space. *)
Fixpoint headingWith (n : nat) (s   : ustring) : option (ustring * ustring) :=
  match n with
  | O => None
  | S n' =>
      match stripPrefix (replicate n hash) s with
      | Some (c :: rest) =>
          if isSpace c then Some ([], rest) else headingWith n' s
      | _ => headingWith n' s
      end
  end.

Definition headingPattern : matcher := headingWith 6.

Fixpoint dropWhile (p : Z -> bool) (s   : ustring) : ustring :=
  match s with
  | c :: s' => if p c then dropWhile p s' else s
  | [] => []
  end.

(** [p+] replaced by [out]: the greedy run takes every unit satisfying [p]. *)
Definition runOf (p : Z -> bool) (out   : ustring) : matcher := fun s =>
  match s with
  | c :: s' => if p c then Some (out, dropWhile p s') else None
  | [] => None
  end.

Definition isNewline (c : Z) : bool := c =? newline.

Definition newlinePattern : matcher := runOf isNewline [dot; space].
Definition spacePattern : matcher := runOf isSpace [space].

(** [String.prototype.trim]. *)
Definition trim (s   : ustring) : ustring :=
  rev (dropWhile isSpace (rev (dropWhile isSpace s))).

(** The emoji and markdown replacements of [sanitizeText] ... *)
Definition stripFormatting (s   : ustring) : ustring :=
  replaceAll headingPattern
    (replaceAll codePattern
       (replaceAll italicPattern
          (replaceAll boldPattern (removeEmoji s)))).

(** ... and its white space replacements. *)
Definition cleanWhitespace (s   : ustring) : ustring :=
  trim (replaceAll spacePattern (replaceAll newlinePattern s)).

Definition sanitizeText (s   : ustring) : ustring :=
  cleanWhitespace (stripFormatting s).

End Sanitize.

(** ** Voices

    Language tags, voice names and labels are only compared, tested for a
    prefix and concatenated; they are kept as byte strings (a label outside
    ASCII is its UTF-8 encoding). *)

Module Voices.

(** The two attributes of a platform [SpeechSynthesisVoice] the code reads. *)
Record SpeechSynthesisVoice := { name : string; lang : string }.

Definition startsWith (s p : string) : bool := String.prefix p s.

(** [getBestVoice]; [availableVoices] is the hook's cached list and
    [getVoices] what [window.speechSynthesis.getVoices()] returns now. *)
Definition currentVoices (availableVoices getVoices : list SpeechSynthesisVoice)
  : list SpeechSynthesisVoice :=
  if (0 <? length availableVoices)%nat then availableVoices else getVoices.

Definition getBestVoice (availableVoices getVoices : list SpeechSynthesisVoice)
  : option SpeechSynthesisVoice :=
  let voices := currentVoices availableVoices getVoices in
  if (length voices =? 0)%nat then None
  else
    match List.find (fun v => String.eqb (lang v) "hi-IN") voices with
    | Some hindiVoice => Some hindiVoice
    | None =>
        match List.find (fun v => String.eqb (lang v) "en-IN") voices with
        | Some indianEnglish => Some indianEnglish
        | None =>
            match List.find (fun v => startsWith (lang v) "en") voices with
            | Some englishVoice => Some englishVoice
            | None => head voices
            end
        end
    end.

(** The object literal of [getVoiceLabel], read through its own keys. *)
Definition langLabels : gmap string string :=
  <["hi-IN" := "🇮🇳 Hindi"]>
    (<["hi" := "🇮🇳 Hindi"]>
       (<["en-IN" := "🇮🇳 English (India)"]>
          (<["en-US" := "🇺🇸 English (US)"]>
             (<["en-GB" := "🇬🇧 English (UK)"]> ∅)))).

(** [a || b] on strings: the empty string is falsy, [undefined] too. *)
Definition orElse (a : option string) (b : string) : string :=
  match a with
  | Some x => if String.eqb x "" then b else x
  | None => b
  end.

Definition getVoiceLabel (voice : SpeechSynthesisVoice) : string :=
  let langLabel := orElse (langLabels !! lang voice) (lang voice) in
  name voice +:+ " - " +:+ langLabel.

(** [sortedVoices] of the voice selector: Hindi voices, then Indian
    English, then the other English voices. *)
Definition sortedVoices (voices : list SpeechSynthesisVoice)
  : list SpeechSynthesisVoice :=
  let hindiVoices := List.filter (fun v => startsWith (lang v) "hi") voices in
  let indianEnglish :=
    List.filter (fun v => String.eqb (lang v) "en-IN") voices in
  let otherEnglish :=
    List.filter (fun v => startsWith (lang v) "en"
                          && negb (String.eqb (lang v) "en-IN")) voices in
  hindiVoices ++ indianEnglish ++ otherEnglish.

End Voices.

(** ** Voice preview

    [previewVoice] of the voice selector and the handlers of the utterance
    it speaks.  The selector keeps one flag; the calls it makes to the
    engine are logged latest first. *)

Module Picker.

Import Voices.

Record PreviewUtterance := {
  pText : string;
  pVoice : SpeechSynthesisVoice;
  pLang : string;
  pRate : Q;
  pPitch : Q
}.

Inductive PickerCall := PCancel | PSpeak (u : PreviewUtterance).

Record Selector := {
  isPreviewing : bool;
  engineCalls : list PickerCall
}.

Definition hindiGreeting : string :=
  "नमस्ते! मैं आपका स्टडी बडी हूं। आज क्या पढ़ना है?".
Definition englishGreeting : string :=
  "Hello! I am your Study Buddy. What would you like to study today?".

(** [!selectedVoice] for [selectedVoice : string | null]. *)
Definition noSelection (selectedVoice : option string) : bool :=
  match selectedVoice with
  | None => true
  | Some n => String.eqb n ""
  end.

Definition previewVoice (voices : list SpeechSynthesisVoice)
    (selectedVoice : option string) (st : Selector) : Selector :=
  if noSelection selectedVoice || isPreviewing st then
    {| isPreviewing := false; engineCalls := PCancel :: engineCalls st |}
  else
    match List.find
            (fun v => String.eqb (name v) (default "" selectedVoice))
            (sortedVoices voices) with
    | None => st
    | Some voice =>
        let previewText :=
          if startsWith (lang voice) "hi" then hindiGreeting
          else englishGreeting in
        let utterance :=
          {| pText := previewText; pVoice := voice; pLang := lang voice;
             pRate := 9 # 10; pPitch := 1 |} in
        {| isPreviewing := isPreviewing st;
           engineCalls := PSpeak utterance :: PCancel :: engineCalls st |}
    end.

(** What happens to the selector: a click on the preview button with the
    props of that render, and the events of a preview utterance. *)
Inductive PickerEvent :=
  | Click (voices : list SpeechSynthesisVoice) (selectedVoice : option string)
  | PreviewStart
  | PreviewEnd
  | PreviewError.

Definition pickerStep (st : Selector) (e : PickerEvent) : Selector :=
  match e with
  | Click voices selectedVoice => previewVoice voices selectedVoice st
  | PreviewStart =>
      {| isPreviewing := true; engineCalls := engineCalls st |}
  | PreviewEnd | PreviewError =>
      {| isPreviewing := false; engineCalls := engineCalls st |}
  end.

Definition pickerRun (st : Selector) (es : list PickerEvent) : Selector :=
  fold_left pickerStep es st.

Definition pickerInitial : Selector :=
  {| isPreviewing := false; engineCalls := [] |}.

(** The selector renders nothing without a voice to list. *)
Definition rendersNothing (voices : list SpeechSynthesisVoice) : bool :=
  (length (sortedVoices voices) =? 0)%nat.

End Picker.

(** ** Expiry widget *)

Module Expiry.

(** A JavaScript number that is an integer, or NaN: time values in
    milliseconds and day counts. *)
Inductive num := NaN | Num (z : Z).

Definition num_lt (a b : num) : bool :=
  match a, b with Num x, Num y => x <? y | _, _ => false end.
Definition num_le (a b : num) : bool :=
  match a, b with Num x, Num y => x <=? y | _, _ => false end.
Definition num_gt (a b : num) : bool := num_lt b a.
Definition num_sub (a b : num) : num :=
  match a, b with Num x, Num y => Num (x - y) | _, _ => NaN end.

Definition msPerDay : Z := 1000 * 60 * 60 * 24.

(** [Math.ceil(ms / msPerDay)].  The quotient of the source is a double;
    for a difference of two time values less than 2^27 days apart the
    ceiling of the rounded quotient is the ceiling of the exact one, which
    is what is computed here. *)
Definition ceilDiv (a b : Z) : Z := - ((- a) / b).
Definition ceilDays (ms : num) : num :=
  match ms with Num x => Num (ceilDiv x msPerDay) | NaN => NaN end.

(** A [Date] holds a time value of at most 8.64e15 ms in absolute value,
    or NaN (an invalid date). *)
Definition maxTime : Z := 8640000000000000.
Definition TimeClip (t : Z) : num :=
  if Z.abs t <=? maxTime then Num t else NaN.

(** A JavaScript number that may have a fraction or be infinite: the
    [daysThreshold] prop. *)
Inductive number :=
  | NotANumber
  | Infinity (negative : bool)
  | Finite (q : Q).

(** [d + x] for the day of the month [d].  The sum is taken exactly; the
    sum of the doubles has the same integer part unless [x] is not whole
    and lies within half a unit in the last place of the sum of a whole
    number. *)
Definition number_add (d : Z) (x : number) : number :=
  match x with
  | Finite q => Finite (inject_Z d + q)%Q
  | _ => x
  end.

(** ToIntegerOrInfinity on a finite number: the fraction is dropped. *)
Definition truncate (q : Q) : Z := Z.quot (Qnum q) (Z.pos (Qden q)).

(** *** Day number, year, month and date of a time value (ECMA-262, Date
        objects) *)

Definition Day (t : Z) : Z := t / msPerDay.
Definition TimeWithinDay (t : Z) : Z := t mod msPerDay.

Definition DaysInYear (y : Z) : Z :=
  if negb (y mod 4 =? 0) then 365
  else if negb (y mod 100 =? 0) then 366
  else if negb (y mod 400 =? 0) then 365
  else 366.

Definition DayFromYear (y : Z) : Z :=
  365 * (y - 1970) + (y - 1969) / 4 - (y - 1901) / 100 + (y - 1601) / 400.

Definition TimeFromYear (y : Z) : Z := msPerDay * DayFromYear y.

(** The largest [y] with [TimeFromYear y <= t].  The calendar repeats every
    400 years of 146097 days: the search goes up from the first year of the
    period [t] is in. *)
Fixpoint yearFrom (fuel : nat) (y t : Z) : Z :=
  match fuel with
  | O => y
  | S fuel' =>
      if TimeFromYear (y + 1) <=? t then yearFrom fuel' (y + 1) t else y
  end.

Definition YearFromTime (t : Z) : Z :=
  yearFrom 400 (1970 + 400 * (Day t / 146097)) t.

Definition leapDay (y : Z) : Z := if DaysInYear y =? 365 then 0 else 1.
Definition InLeapYear (t : Z) : Z := leapDay (YearFromTime t).

Definition DayWithinYear (t : Z) : Z := Day t - DayFromYear (YearFromTime t).

Definition MonthFromTime (t : Z) : Z :=
  let d := DayWithinYear t in
  let leap := InLeapYear t in
  if d <? 31 then 0
  else if d <? 59 + leap then 1
  else if d <? 90 + leap then 2
  else if d <? 120 + leap then 3
  else if d <? 151 + leap then 4
  else if d <? 181 + leap then 5
  else if d <? 212 + leap then 6
  else if d <? 243 + leap then 7
  else if d <? 273 + leap then 8
  else if d <? 304 + leap then 9
  else if d <? 334 + leap then 10
  else 11.

Definition DateFromTime (t : Z) : Z :=
  let d := DayWithinYear t in
  let leap := InLeapYear t in
  match MonthFromTime t with
  | 0 => d + 1
  | 1 => d - 30
  | 2 => d - 58 - leap
  | 3 => d - 89 - leap
  | 4 => d - 119 - leap
  | 5 => d - 150 - leap
  | 6 => d - 180 - leap
  | 7 => d - 211 - leap
  | 8 => d - 242 - leap
  | 9 => d - 272 - leap
  | 10 => d - 303 - leap
  | _ => d - 333 - leap
  end.

(** The day within the year of the first day of month [mn]. *)
Definition firstDayOfMonth (mn leap : Z) : Z :=
  match mn with
  | 0 => 0
  | 1 => 31
  | 2 => 59 + leap
  | 3 => 90 + leap
  | 4 => 120 + leap
  | 5 => 151 + leap
  | 6 => 181 + leap
  | 7 => 212 + leap
  | 8 => 243 + leap
  | 9 => 273 + leap
  | 10 => 304 + leap
  | _ => 334 + leap
  end.

(** [MakeDay(year, month, date)]: the day number of the first day of the
    month, plus [date - 1]; NaN for a [date] that is not finite.  The year
    and month are those of a time value here, so the month exists.  Day
    numbers and time values are computed exactly, as the doubles are below
    2^53; above, the result is out of the range of [TimeClip] either
    way. *)
Definition MakeDay (year month : Z) (date : number) : num :=
  match date with
  | Finite q =>
      let dt := truncate q in
      let ym := year + month / 12 in
      let mn := month mod 12 in
      Num (DayFromYear ym + firstDayOfMonth mn (leapDay ym) + dt - 1)
  | _ => NaN
  end.

Definition MakeDate (day : num) (time : Z) : num :=
  match day with
  | Num d => Num (d * msPerDay + time)
  | NaN => NaN
  end.

Section LocalZone.

(** The host's time zone: [LocalTZA t true] is the offset of local time
    from UTC at the UTC time [t], [LocalTZA t false] the offset at the
    local time [t], in milliseconds. *)
Variable LocalTZA : Z -> bool -> Z.

Definition LocalTime (t : Z) : Z := t + LocalTZA t true.
Definition UTC (t : Z) : Z := t - LocalTZA t false.

(** [Date.prototype.getDate] and [Date.prototype.setDate] on a valid date
    with the time value [t]; [setDate] gives the new time value. *)
Definition getDate (t : Z) : Z := DateFromTime (LocalTime t).

Definition setDate (t : Z) (date : number) : num :=
  let t := LocalTime t in
  let newDate :=
    MakeDate (MakeDay (YearFromTime t) (MonthFromTime t) date)
      (TimeWithinDay t) in
  match newDate with
  | Num v => TimeClip (UTC v)
  | NaN => NaN
  end.

End LocalZone.

Inductive Plan := basic | pro.

Record Subscription := {
  plan : Plan;
  tts_used : Z;
  tts_limit : Z;
  start_date : string;
  end_date : option string;
  is_active : bool
}.

Record StudentWithSubscription := {
  id : string;
  full_name : string;
  class : string;
  photo_url : option string;
  subscriptions : list Subscription
}.

(** [{...student, daysLeft, endDate}] *)
Record ExpiringStudent := {
  student : StudentWithSubscription;
  daysLeft : num;
  endDate : num
}.

Definition isPro (p : Plan) : bool :=
  match p with pro => true | basic => false end.

(** [!v] for [v : string | null]. *)
Definition falsy (v : option string) : bool :=
  match v with
  | None => true
  | Some s => String.eqb s ""
  end.

Section Widget.

(** The host's date parser: the time value of [new Date(s)], NaN when [s]
    is not a date; and the host's time zone. *)
Variable Date_parse : string -> num.
Variable LocalTZA : Z -> bool -> Z.

(** [new Date(v)] for [v : string | null]; [null] converts to 0. *)
Definition newDate (v : option string) : num :=
  match v with
  | Some s => Date_parse s
  | None => Num 0
  end.

(** The callback of [filter]. *)
Definition isExpiring (now : Z) (thresholdDate : num)
    (student : StudentWithSubscription) : bool :=
  match head (subscriptions student) with
  | None => false
  | Some subscription =>
      if negb (isPro (plan subscription)) || falsy (end_date subscription)
      then false
      else
        let endDate := newDate (end_date subscription) in
        num_gt endDate (Num now) && num_le endDate thresholdDate
  end.

(** The callback of [map]; [None] is the TypeError of reading [end_date]
    off an absent first subscription. *)
Definition withDaysLeft (now : Z) (student : StudentWithSubscription)
  : option ExpiringStudent :=
  match head (subscriptions student) with
  | None => None
  | Some subscription =>
      let endDate := newDate (end_date subscription) in
      let daysLeft := ceilDays (num_sub endDate (Num now)) in
      Some {| student := student; daysLeft := daysLeft; endDate := endDate |}
  end.

(** [(a, b) => a.daysLeft - b.daysLeft], and the sign test of the sort on
    it: a NaN result counts as 0. *)
Definition compareFn (a b : ExpiringStudent) : num :=
  num_sub (daysLeft a) (daysLeft b).
Definition isNegative (v : num) : bool := num_lt v (Num 0).

(** [Array.prototype.sort] is stable: an entry moves left only past entries
    that compare strictly greater.  Insertion from the right gives that
    order. *)
Fixpoint insertSorted (x : ExpiringStudent) (l : list ExpiringStudent)
  : list ExpiringStudent :=
  match l with
  | [] => [x]
  | y :: l' =>
      if isNegative (compareFn y x) then y :: insertSorted x l'
      else x :: l
  end.

Definition sort (l : list ExpiringStudent) : list ExpiringStudent :=
  foldr insertSorted [] l.

(** [thresholdDate] after [thresholdDate.setDate(now.getDate() +
    daysThreshold)]; [now] and [now2] are the instants the two [new Date()]
    read, in that order. *)
Definition thresholdDate (now now2 : Z) (daysThreshold : number) : num :=
  setDate LocalTZA now2 (number_add (getDate LocalTZA now) daysThreshold).

(** The body of the [useMemo]. *)
Definition expiringStudents (now now2 : Z)
    (students : list StudentWithSubscription) (daysThreshold : number)
  : option (list ExpiringStudent) :=
  let thresholdDate := thresholdDate now now2 daysThreshold in
  sort <$> mapM (withDaysLeft now)
             (List.filter (isExpiring now thresholdDate) students).


End Widget.

Inductive BadgeVariant := destructive | secondary | outline.

(** [`${daysLeft}`] *)
Definition numToString (n : num) : string :=
  match n with
  | NaN => "NaN"
  | Num z => pretty z
  end.

Definition getUrgencyColor (daysLeft : num) : string :=
  if num_le daysLeft (Num 1)
  then "text-destructive bg-destructive/10 border-destructive/30"
  else if num_le daysLeft (Num 3)
  then "text-warning bg-warning/10 border-warning/30"
  else "text-primary bg-primary/10 border-primary/30".

Definition getUrgencyBadge (daysLeft : num) : string * BadgeVariant :=
  if num_le daysLeft (Num 1) then ("Tomorrow!", destructive)
  else if num_le daysLeft (Num 3)
  then (numToString daysLeft +:+ " days", secondary)
  else (numToString daysLeft +:+ " days", outline).

(** The counts of the summary line. *)
Definition urgentCount (l : list ExpiringStudent) : nat :=
  length (List.filter (fun s => num_le (daysLeft s) (Num 1)) l).
Definition soonCount (l : list ExpiringStudent) : nat :=
  length (List.filter (fun s => num_gt (daysLeft s) (Num 1)
                                && num_le (daysLeft s) (Num 3)) l).

(** The rows rendered, [expiringStudents.slice(0, 5)], and the condition
    of the "view all" footer. *)
Definition displayed (l : list ExpiringStudent) : list ExpiringStudent :=
  take 5 l.
Definition showViewAll (l : list ExpiringStudent) : bool :=
  (5 <? length l)%nat.
Definition showSummary (l : list ExpiringStudent) : bool :=
  (0 <? urgentCount l)%nat || (0 <? soonCount l)%nat.

End Expiry.

(** ** Speech controller

    The hook runs on the event loop: the application calls [speak] and
    [stop], timers fire, and the engine dispatches the events of the
    utterances handed to it.  Each callback runs to completion.  A [speak]
    call owns a closure scope (its promise, its timeout, its utterance and
    its [resumeInterval]); the hook state and the engine are shared. *)

Module Speech.

Import Sanitize Voices.

Record TTSOptions := {
  text : ustring;
  lang : option string;
  rate : option Q;
  pitch : option Q;
  volume : option Q
}.

Inductive PromiseState := Pending | Fulfilled | Rejected.
Inductive TimerState := NotSet | Armed | Fired | Cleared.

(** The closures assigned to [onend] and [onerror]: those of lines 152-165,
    then those of lines 183-197, which also clear [resumeInterval]. *)
Inductive Handler := Unset | First | Second.

Record Utterance := {
  uText : ustring;
  uVoice : option SpeechSynthesisVoice;
  uLang : string;
  uRate : Q;
  uPitch : Q;
  uVolume : Q;
  onstart : bool;
  onend : Handler;
  onerror : Handler
}.

(** The variables of one [speak] call. *)
Record Session := {
  options : TTSOptions;
  capturedVoices : list SpeechSynthesisVoice;
  promise : PromiseState;
  cleanText : ustring;
  timeout : TimerState;
  utterance : option Utterance;
  queued : bool;
  resumeInterval : TimerState
}.

(** Calls received by [window.speechSynthesis], latest first, each with
    the [speak] call whose code issued it ([None]: [stop] or the cleanup of
    the effect). *)
Inductive EngineCall :=
  | Cancel (by_ : option nat)
  | Speak (by_ : nat)
  | Pause (by_ : nat)
  | Resume (by_ : nat).

Record Shared := {
  isSpeaking : bool;
  utteranceRef : option nat;
  calls : list EngineCall
}.

Record Hook := {
  isSupported : bool;
  availableVoices : list SpeechSynthesisVoice;
  shared : Shared;
  sessions : list Session
}.

(** What the platform does while the 50 ms continuation runs: the voices
    [getVoices()] returns, and the operation that throws, if one does. *)
Inductive ThrowPoint := AtConstruct | AtGetVoices | AtSpeak.
Record Platform := { getVoices : list SpeechSynthesisVoice;
                     throws : option ThrowPoint }.

Definition throwsAt (p : Platform) (t : ThrowPoint) : bool :=
  match throws p, t with
  | Some AtConstruct, AtConstruct => true
  | Some AtGetVoices, AtGetVoices => true
  | Some AtSpeak, AtSpeak => true
  | _, _ => false
  end.

(** *** Statements: state over a call's scope, with exceptions *)

Definition Scope : Type := Session * Shared.

Inductive outcome (A : Type) :=
  | Normal (a : A) (s : Scope)
  | Thrown (s : Scope).
Arguments Normal {A} a s.
Arguments Thrown {A} s.

Definition M (A : Type) : Type := Scope -> outcome A.

Definition ret {A} (a : A) : M A := fun s => Normal a s.
Definition bind {A B} (m : M A) (k : A -> M B) : M B := fun s =>
  match m s with
  | Normal a s' => k a s'
  | Thrown s' => Thrown s'
  end.
Definition tryCatch (body handler : M unit) : M unit := fun s =>
  match body s with
  | Normal a s' => Normal a s'
  | Thrown s' => handler s'
  end.
Definition throwWhen (b : bool) : M unit := fun s =>
  if b then Thrown s else Normal tt s.
Definition modify (f : Scope -> Scope) : M unit := fun s => Normal tt (f s).
Definition finalScope {A} (o : outcome A) : Scope :=
  match o with Normal _ s => s | Thrown s => s end.

Declare Scope stmt_scope.
Delimit Scope stmt_scope with stmt.
Notation "m ;; k" := (bind m (fun _ => k))
  (at level 100, right associativity) : stmt_scope.

Definition setSession (f : Session -> Session) : M unit :=
  modify (fun s => (f s.1, s.2)).
Definition setShared (f : Shared -> Shared) : M unit :=
  modify (fun s => (s.1, f s.2)).

Definition withPromise (p : PromiseState) (s : Session) : Session :=
  {| options := options s; capturedVoices := capturedVoices s; promise := p;
     cleanText := cleanText s; timeout := timeout s;
     utterance := utterance s; queued := queued s;
     resumeInterval := resumeInterval s |}.
Definition withCleanText (t : ustring) (s : Session) : Session :=
  {| options := options s; capturedVoices := capturedVoices s;
     promise := promise s; cleanText := t; timeout := timeout s;
     utterance := utterance s; queued := queued s;
     resumeInterval := resumeInterval s |}.
Definition withTimeout (t : TimerState) (s : Session) : Session :=
  {| options := options s; capturedVoices := capturedVoices s;
     promise := promise s; cleanText := cleanText s; timeout := t;
     utterance := utterance s; queued := queued s;
     resumeInterval := resumeInterval s |}.
Definition withUtterance (u : option Utterance) (s : Session) : Session :=
  {| options := options s; capturedVoices := capturedVoices s;
     promise := promise s; cleanText := cleanText s; timeout := timeout s;
     utterance := u; queued := queued s;
     resumeInterval := resumeInterval s |}.
Definition withQueued (q : bool) (s : Session) : Session :=
  {| options := options s; capturedVoices := capturedVoices s;
     promise := promise s; cleanText := cleanText s; timeout := timeout s;
     utterance := utterance s; queued := q;
     resumeInterval := resumeInterval s |}.
Definition withResumeInterval (t : TimerState) (s : Session) : Session :=
  {| options := options s; capturedVoices := capturedVoices s;
     promise := promise s; cleanText := cleanText s; timeout := timeout s;
     utterance := utterance s; queued := queued s;
     resumeInterval := t |}.

(** A promise settles once: [resolve] and [reject] on a settled promise do
    nothing. *)
Definition settle (p : PromiseState) (s : Session) : Session :=
  match promise s with
  | Pending => withPromise p s
  | _ => s
  end.
Definition resolve : M unit := setSession (settle Fulfilled).
Definition reject : M unit := setSession (settle Rejected).

Definition setIsSpeaking (b : bool) : M unit :=
  setShared (fun sh => {| isSpeaking := b; utteranceRef := utteranceRef sh;
                          calls := calls sh |}).
Definition setUtteranceRef (r : option nat) : M unit :=
  setShared (fun sh => {| isSpeaking := isSpeaking sh; utteranceRef := r;
                          calls := calls sh |}).
Definition engine (c : EngineCall) : M unit :=
  setShared (fun sh => {| isSpeaking := isSpeaking sh;
                          utteranceRef := utteranceRef sh;
                          calls := c :: calls sh |}).

(** Assignments to the attributes of the call's utterance. *)
Definition setUtterance (f : Utterance -> Utterance) : M unit :=
  setSession (fun s => withUtterance (f <$> utterance s) s).

Definition bindVoice (v : SpeechSynthesisVoice) (u : Utterance) : Utterance :=
  {| uText := uText u; uVoice := Some v; uLang := uLang u; uRate := uRate u;
     uPitch := uPitch u; uVolume := uVolume u; onstart := onstart u;
     onend := onend u; onerror := onerror u |}.
Definition assignLang (l : string) (u : Utterance) : Utterance :=
  {| uText := uText u; uVoice := uVoice u; uLang := l; uRate := uRate u;
     uPitch := uPitch u; uVolume := uVolume u; onstart := onstart u;
     onend := onend u; onerror := onerror u |}.
Definition assignProsody (r p v : Q) (u : Utterance) : Utterance :=
  {| uText := uText u; uVoice := uVoice u; uLang := uLang u; uRate := r;
     uPitch := p; uVolume := v; onstart := onstart u;
     onend := onend u; onerror := onerror u |}.
Definition assignOnstart (u : Utterance) : Utterance :=
  {| uText := uText u; uVoice := uVoice u; uLang := uLang u;
     uRate := uRate u; uPitch := uPitch u; uVolume := uVolume u;
     onstart := true; onend := onend u; onerror := onerror u |}.
Definition assignOnend (h : Handler) (u : Utterance) : Utterance :=
  {| uText := uText u; uVoice := uVoice u; uLang := uLang u;
     uRate := uRate u; uPitch := uPitch u; uVolume := uVolume u;
     onstart := onstart u; onend := h; onerror := onerror u |}.
Definition assignOnerror (h : Handler) (u : Utterance) : Utterance :=
  {| uText := uText u; uVoice := uVoice u; uLang := uLang u;
     uRate := uRate u; uPitch := uPitch u; uVolume := uVolume u;
     onstart := onstart u; onend := onend u; onerror := h |}.

(** [new SpeechSynthesisUtterance(text)] *)
Definition newUtterance (t : ustring) : Utterance :=
  {| uText := t; uVoice := None; uLang := ""; uRate := 1; uPitch := 1;
     uVolume := 1; onstart := false; onend := Unset; onerror := Unset |}.

Definition clamp (lo hi x : Q) : Q := Qmax lo (Qmin hi x).

Local Open Scope stmt_scope.

(** *** [speak]

    The executor passed to [new Promise], run by call number [i]. *)
Definition executor (i : nat) (supported : bool) : M unit :=
  if negb supported then resolve
  else
    fun s =>
      let clean := sanitizeText (text (options s.1)) in
      match clean with
      | [] => resolve s
      | _ :: _ =>
          (engine (Cancel (Some i)) ;;
           setSession (withCleanText clean) ;;
           setSession (withTimeout Armed)) s
      end.

(** The continuation scheduled by [setTimeout(..., 50)]. *)
Definition continuation (i : nat) (p : Platform) : M unit :=
  tryCatch
    (throwWhen (throwsAt p AtConstruct) ;;
     setSession (fun s => withUtterance (Some (newUtterance (cleanText s))) s) ;;
     setUtteranceRef (Some i) ;;
     throwWhen (throwsAt p AtGetVoices) ;;
     (fun s =>
        match getBestVoice (capturedVoices s.1) (getVoices p) with
        | Some voice =>
            (setUtterance (bindVoice voice) ;;
             setUtterance (assignLang (Voices.lang voice))) s
        | None => setUtterance (assignLang "hi-IN") s
        end) ;;
     (fun s =>
        let o := options s.1 in
        setUtterance
          (assignProsody
             (clamp (1 # 10) 10 (default (9 # 10)%Q (rate o)))
             (clamp 0 2 (default 1%Q (pitch o)))
             (clamp 0 1 (default 1%Q (volume o)))) s) ;;
     setUtterance assignOnstart ;;
     setUtterance (assignOnend First) ;;
     setUtterance (assignOnerror First) ;;
     setIsSpeaking true ;;
     throwWhen (throwsAt p AtSpeak) ;;
     engine (Speak i) ;;
     setSession (withQueued true) ;;
     setSession (withResumeInterval Armed) ;;
     setUtterance (assignOnend Second) ;;
     setUtterance (assignOnerror Second))
    (setIsSpeaking false ;;
     resolve).

(** The callback of [setInterval(..., 10000)]; [speaking] is what
    [window.speechSynthesis.speaking] reads. *)
Definition keepAlive (i : nat) (speaking : bool) : M unit :=
  if negb speaking then setSession (withResumeInterval Cleared)
  else engine (Pause i) ;; engine (Resume i).

Definition clearResumeInterval : M unit :=
  setSession (fun s =>
    match resumeInterval s with
    | Armed => withResumeInterval Cleared s
    | _ => s
    end).

(** The [onend] and [onerror] closures. *)
Definition runHandler (h : Handler) : M unit :=
  match h with
  | Unset => ret tt
  | First => setIsSpeaking false ;; setUtteranceRef None ;; resolve
  | Second =>
      clearResumeInterval ;;
      setIsSpeaking false ;; setUtteranceRef None ;; resolve
  end.

Definition runOnstart : M unit := fun s =>
  match utterance s.1 with
  | Some u => if onstart u then setIsSpeaking true s else ret tt s
  | None => ret tt s
  end.
Definition runOnend : M unit := fun s =>
  match utterance s.1 with
  | Some u => runHandler (onend u) s
  | None => ret tt s
  end.
Definition runOnerror : M unit := fun s =>
  match utterance s.1 with
  | Some u => runHandler (onerror u) s
  | None => ret tt s
  end.

Local Close Scope stmt_scope.

(** *** The event loop *)

Inductive Event :=
  | Mounted (hasSpeechSynthesis : bool) (voices : list SpeechSynthesisVoice)
  | Unmounted
  | VoicesChanged (voices : list SpeechSynthesisVoice)
  | CallSpeak (o : TTSOptions)
  | CallStop
  | TimeoutFires (i : nat) (p : Platform)
  | IntervalFires (i : nat) (speaking : bool)
  | UtteranceStart (i : nat)
  | UtteranceEnd (i : nat)
  | UtteranceError (i : nat).

Definition initial : Hook :=
  {| isSupported := false; availableVoices := [];
     shared := {| isSpeaking := false; utteranceRef := None; calls := [] |};
     sessions := [] |}.

Definition newSession (o : TTSOptions) (vs : list SpeechSynthesisVoice)
  : Session :=
  {| options := o; capturedVoices := vs; promise := Pending; cleanText := [];
     timeout := NotSet; utterance := None; queued := false;
     resumeInterval := NotSet |}.

(** [loadVoices] *)
Definition loadVoices (voices : list SpeechSynthesisVoice) (h : Hook) : Hook :=
  if (0 <? length voices)%nat
  then {| isSupported := isSupported h; availableVoices := voices;
          shared := shared h; sessions := sessions h |}
  else h.

(** Run a callback of call [i] in its scope. *)
Definition inScope (i : nat) (enabled : Session -> bool) (body : M unit)
    (h : Hook) : option Hook :=
  match sessions h !! i with
  | Some s =>
      if enabled s then
        let s' := finalScope (body (s, shared h)) in
        Some {| isSupported := isSupported h;
                availableVoices := availableVoices h;
                shared := s'.2;
                sessions := <[i := s'.1]> (sessions h) |}
      else None
  | None => None
  end.

(** [new Promise(executor)]: an exception leaving the executor rejects the
    promise. *)
Definition newPromise (body : M unit) : M unit :=
  tryCatch body reject.

Definition armed (t : TimerState) : bool :=
  match t with Armed => true | _ => false end.

Definition step (h : Hook) (e : Event) : option Hook :=
  match e with
  | Mounted has voices =>
      if has then
        Some (loadVoices voices
                {| isSupported := true; availableVoices := availableVoices h;
                   shared := shared h; sessions := sessions h |})
      else Some h
  | Unmounted =>
      let sh := shared h in
      Some {| isSupported := isSupported h;
              availableVoices := availableVoices h;
              shared := {| isSpeaking := isSpeaking sh;
                           utteranceRef := utteranceRef sh;
                           calls := Cancel None :: calls sh |};
              sessions := sessions h |}
  | VoicesChanged voices => Some (loadVoices voices h)
  | CallSpeak o =>
      let i := length (sessions h) in
      inScope i (fun _ => true) (newPromise (executor i (isSupported h)))
        {| isSupported := isSupported h; availableVoices := availableVoices h;
           shared := shared h;
           sessions := sessions h ++ [newSession o (availableVoices h)] |}
  | CallStop =>
      let sh := shared h in
      Some {| isSupported := isSupported h;
              availableVoices := availableVoices h;
              shared := {| isSpeaking := false; utteranceRef := None;
                           calls := Cancel None :: calls sh |};
              sessions := sessions h |}
  | TimeoutFires i p =>
      inScope i (fun s => armed (timeout s))
        (bind (setSession (withTimeout Fired)) (fun _ => continuation i p)) h
  | IntervalFires i speaking =>
      inScope i (fun s => armed (resumeInterval s)) (keepAlive i speaking) h
  | UtteranceStart i => inScope i queued runOnstart h
  | UtteranceEnd i => inScope i queued runOnend h
  | UtteranceError i => inScope i queued runOnerror h
  end.

Fixpoint run (h : Hook) (es : list Event) : option Hook :=
  match es with
  | [] => Some h
  | e :: es' =>
      match step h e with
      | Some h' => run h' es'
      | None => None
      end
  end.

End Speech.

(** ** Predicates used by the statements *)

Module SanitizeSpec.

Import Sanitize.

(** A pattern that cannot match the empty text leaves a shorter text. *)
Definition consuming (m : matcher) : Prop :=
  forall s out rest, m s = Some (out, rest) -> (length rest < length s)%nat.

(** [scan P s]: read code point by code point, [s] has no lone surrogate
    and each of its code points satisfies [P]. *)
Fixpoint scan (P : Z -> bool) (s : ustring) : bool :=
  match s with
  | [] => true
  | c :: r =>
      if isHigh c then
        match r with
        | d :: r' => isLow d && P (codePoint c d) && scan P r'
        | [] => false
        end
      else negb (isLow c) && P c && scan P r
  end.

(** Well-formed UTF-16. *)
Definition wellFormed (s : ustring) : bool := scan (fun _ => true) s.


(** [edit P s t]: [t] is [s] with some units outside the surrogate range
    dropped or replaced by units outside it that satisfy [P]. *)
Inductive edit (P : Z -> bool) : ustring -> ustring -> Prop :=
  | edit_nil : edit P [] []
  | edit_keep c s t : edit P s t -> edit P (c :: s) (c :: t)
  | edit_subst c w s t :
      isSurrogate c = false ->
      Forall (fun u => isSurrogate u = false /\ P u = true) w ->
      edit P s t -> edit P (c :: s) (w ++ t).

(** The first unit is not white space. *)
Definition startsClean (t : ustring) : Prop :=
  match t with
  | c :: _ => isSpace c = false
  | [] => True
  end.

(** Every white space unit is a single U+0020 between two other units or at
    an end. *)
Fixpoint spaced (t : ustring) : Prop :=
  match t with
  | [] => True
  | c :: r => (isSpace c = true -> c = space /\ startsClean r) /\ spaced r
  end.

(** The normal form of the white space replacements. *)
Definition tidy (t : ustring) : Prop :=
  spaced t /\ startsClean t /\ startsClean (rev t).

(** A unit that no emoji or markdown replacement looks at. *)
Definition plainUnit (c : Z) : bool :=
  negb (isSurrogate c) && negb (isEmoji c)
  && negb (c =? star) && negb (c =? backtick) && negb (c =? hash).

Definition plain (s : ustring) : Prop :=
  Forall (fun c => plainUnit c = true) s.



(** No unit of [s] is [k]. *)
Definition without (k : Z) (s : ustring) : Prop :=
  Forall (fun c => (c =? k) = false) s.

(** A pattern whose every match is an edit of the units it consumes. *)
Definition editing (m : matcher) : Prop :=
  forall s out rest, m s = Some (out, rest) ->
    exists used, s = used ++ rest /\ edit plainUnit used out.

(** The code points of a text, read as a pattern with the [u] flag reads
    it: a high surrogate and the low surrogate after it are one code point,
    any other unit is one by itself. *)
Fixpoint codePoints (s : ustring) : list Z :=
  match s with
  | [] => []
  | c :: r =>
      match r with
      | d :: r' =>
          if isHigh c && isLow d then codePoint c d :: codePoints r'
          else c :: codePoints r
      | [] => [c]
      end
  end.

(** A unit that is neither white space nor a full stop. *)
Definition solid (c : Z) : bool := negb (isSpace c) && negb (c =? dot).

End SanitizeSpec.

Module VoicesSpec.

Import Voices.

(** [v] is the first element of [l] with the property [P]. *)
Definition firstWith {A} (P : A -> Prop) (l : list A) (v : A) : Prop :=
  exists l1 l2, l = l1 ++ v :: l2 /\ P v /\ Forall (fun u => ~ P u) l1.

Definition noneWith {A} (P : A -> Prop) (l : list A) : Prop :=
  Forall (fun u => ~ P u) l.

Definition isHindi (v : SpeechSynthesisVoice) : Prop := lang v = "hi-IN".
Definition isIndianEnglish (v : SpeechSynthesisVoice) : Prop :=
  lang v = "en-IN".
Definition isEnglish (v : SpeechSynthesisVoice) : Prop :=
  exists rest, lang v = "en" +:+ rest.

End VoicesSpec.

Module PickerSpec.

Import Voices Picker.

(** In a log (latest first), every [speak] comes directly after a
    [cancel]. *)
Fixpoint cancelledBefore (log : list PickerCall) : Prop :=
  match log with
  | [] => True
  | PSpeak _ :: rest =>
      match rest with PCancel :: _ => True | _ => False end
      /\ cancelledBefore rest
  | PCancel :: rest => cancelledBefore rest
  end.

(** A preview utterance as [previewVoice] builds them. *)
Definition wellBuilt (u : PreviewUtterance) : Prop :=
  (startsWith (lang (pVoice u)) "hi" = true
   \/ startsWith (lang (pVoice u)) "en" = true)
  /\ pLang u = lang (pVoice u)
  /\ pText u = (if startsWith (lang (pVoice u)) "hi" then hindiGreeting
                else englishGreeting)
  /\ pRate u = (9 # 10)%Q /\ pPitch u = 1%Q.

Definition selectorOK (st : Selector) : Prop :=
  cancelledBefore (engineCalls st)
  /\ forall u, PSpeak u ∈ engineCalls st -> wellBuilt u.

End PickerSpec.

Module ExpirySpec.

Import Expiry.



(** The threshold date is a time value a [Date] can hold. *)
Definition representable (t : Z) : Prop := Z.abs t <= maxTime.

(** Local time is as far from UTC [n] local days after [now] as it is at
    [now]. *)
Definition sameOffset (LocalTZA : Z -> bool -> Z) (now n : Z) : Prop :=
  LocalTZA (LocalTime LocalTZA now + n * msPerDay) false = LocalTZA now true.

(** The end of the window in the local calendar: the local time of [now2]
    on the day of the month of [now] plus the whole days of
    [daysThreshold], counted in the month of [now2]. *)
Definition localLimit (LocalTZA : Z -> bool -> Z) (now now2 : Z)
    (daysThreshold : Q) : Z :=
  let t := LocalTime LocalTZA now2 in
  t + (truncate (inject_Z (getDate LocalTZA now) + daysThreshold)
       - DateFromTime t) * msPerDay.


(** A zone at a fixed distance from UTC. *)
Definition fixedZone (offset : Z) (t : Z) (isUTC : bool) : Z := offset.

(** Ascending days-left. *)
Definition daysLeft_le (a b : ExpiringStudent) : Prop :=
  num_le (daysLeft a) (daysLeft b) = true.

(** The day count of an entry is a number. *)
Definition counted (e : ExpiringStudent) : Prop :=
  exists d, daysLeft e = Num d.

(** Two students with the same identity fields and the same first
    subscription record, if any. *)
Definition agree (a b : StudentWithSubscription) : Prop :=
  id a = id b /\ full_name a = full_name b /\ class a = class b
  /\ photo_url a = photo_url b
  /\ head (subscriptions a) = head (subscriptions b).

(** Two entries that differ at most in the subscriptions after the first
    which they carry over. *)
Definition sameEntry (a b : ExpiringStudent) : Prop :=
  agree (student a) (student b)
  /\ daysLeft a = daysLeft b /\ endDate a = endDate b.

(** Everything an entry holds but the subscriptions after the first. *)
Definition observed (e : ExpiringStudent)
  : string * string * string * option string * option Subscription
    * num * num :=
  let s := student e in
  (id s, full_name s, class s, photo_url s, head (subscriptions s),
   daysLeft e, endDate e).

(** The entry has [d] days left. *)
Definition hasDays (d : Z) (e : ExpiringStudent) : bool :=
  match daysLeft e with
  | Num k => k =? d
  | NaN => false
  end.

(** The badge of the row of [e] has the variant [v]. *)
Definition hasBadge (v : BadgeVariant) (e : ExpiringStudent) : bool :=
  match (getUrgencyBadge (daysLeft e)).2, v with
  | destructive, destructive | secondary, secondary | outline, outline => true
  | _, _ => false
  end.

(** [e] is the entry of the student [s], which the filter keeps. *)
Definition entryOf (Date_parse : string -> num) (now : Z)
    (thresholdDate : num) (s : StudentWithSubscription)
    (e : ExpiringStudent) : Prop :=
  isExpiring Date_parse now thresholdDate s = true
  /\ withDaysLeft Date_parse now s = Some e.

(** A student with one subscription, for examples. *)
Definition subscribed (i : string) (p : Plan) (e : option string)
  : StudentWithSubscription :=
  {| id := i; full_name := i; class := "5"; photo_url := None;
     subscriptions :=
       [ {| plan := p; tts_used := 0; tts_limit := 150;
            start_date := "2025-01-01"; end_date := e;
            is_active := true |} ] |}.

(** The time values of a few dates, for examples. *)
Definition sampleDates (s : string) : num :=
  if String.eqb s "2025-03-01T12:00:00Z" then Num 1740830400000
  else if String.eqb s "2025-03-03T00:00:00Z" then Num 1740960000000
  else if String.eqb s "2025-03-06T00:00:00Z" then Num 1741219200000
  else if String.eqb s "2025-03-11T00:00:00Z" then Num 1741651200000
  else if String.eqb s "2025-03-04T00:00:00Z" then Num 1741046400000
  else NaN.

End ExpirySpec.

Module SpeechSpec.

Import Speech.

(** A state the hook can be in: the result of a sequence of events from
    the initial state. *)
Definition reachable (h : Hook) : Prop :=
  exists es, run initial es = Some h.

(** The state of the promise [speak] call [i] returned. *)
Definition promiseOf (h : Hook) (i : nat) : option PromiseState :=
  promise <$> sessions h !! i.

(** The promise of call [i] resolves in the step from [h] to [h']. *)
Definition resolvesIn (h h' : Hook) (i : nat) : Prop :=
  promiseOf h i <> Some Fulfilled /\ promiseOf h' i = Some Fulfilled.

(** A pause or resume issued by the keep-alive timer of call [i]. *)
Definition keepAliveCall (i : nat) (c : EngineCall) : bool :=
  match c with
  | Pause j | Resume j => (i =? j)%nat
  | _ => false
  end.

(** What holds of the scope of every call between two events. *)
Definition sessionOK (supported : bool) (s : Session) : Prop :=
  promise s <> Rejected
  /\ (queued s = true ->
        timeout s = Fired /\ resumeInterval s <> NotSet
        /\ exists u, utterance s = Some u
                     /\ onend u = Second /\ onerror u = Second)
  /\ (resumeInterval s <> NotSet -> timeout s = Fired)
  /\ resumeInterval s <> Fired
  /\ (supported = false -> timeout s = NotSet /\ queued s = false).

Definition hookOK (h : Hook) : Prop :=
  (forall i s, sessions h !! i = Some s -> sessionOK (isSupported h) s)
  /\ (isSupported h = false -> isSpeaking (shared h) = false).


(** The prosody of an utterance is in the ranges of the engine. *)
Definition inBounds (u : Utterance) : Prop :=
  ((1 # 10) <= uRate u <= 10)%Q
  /\ (0 <= uPitch u <= 2)%Q
  /\ (0 <= uVolume u <= 1)%Q.

(** [y] is [x] brought into the range from [lo] to [hi]. *)
Definition saturated (lo hi x y : Q) : Prop :=
  ((lo <= x <= hi -> y == x)
   /\ (x <= lo -> y == lo)
   /\ (hi <= x -> y == hi))%Q.

(** In a log (latest first): an utterance is handed over after the cancel
    of its call and not twice, and a pause or resume concerns an utterance
    handed over before. *)
Fixpoint orderly (log : list EngineCall) : Prop :=
  match log with
  | [] => True
  | Speak i :: rest =>
      Cancel (Some i) ∈ rest /\ (Speak i ∉ rest) /\ orderly rest
  | Pause i :: rest => Speak i ∈ rest /\ orderly rest
  | Resume i :: rest => Speak i ∈ rest /\ orderly rest
  | Cancel _ :: rest => orderly rest
  end.

(** In a log (latest first): pauses and resumes come as adjacent pairs, the
    pause first. *)
Fixpoint paired (log : list EngineCall) : Prop :=
  match log with
  | [] => True
  | Resume i :: rest =>
      match rest with
      | Pause j :: rest' => i = j /\ paired rest'
      | _ => False
      end
  | Pause _ :: _ => False
  | _ :: rest => paired rest
  end.

(** The utterance of a call as the continuation builds it. *)
Definition built (s : Session) (u : Utterance) : Prop :=
  uText u = cleanText s
  /\ uRate u = clamp (1 # 10) 10 (default (9 # 10)%Q (rate (options s)))
  /\ uPitch u = clamp 0 2 (default 1%Q (pitch (options s)))
  /\ uVolume u = clamp 0 1 (default 1%Q (volume (options s)))
  /\ uLang u = from_option Voices.lang "hi-IN" (uVoice u)
  /\ exists fresh, uVoice u = Voices.getBestVoice (capturedVoices s) fresh.

(** How the scope of call [i] and the log go together between two
    events. *)
Definition sessionFlow (i : nat) (log : list EngineCall) (s : Session)
  : Prop :=
  (armed (timeout s) = true -> promise s = Pending)
  /\ (promise s = Pending -> armed (timeout s) = true \/ queued s = true)
  /\ (promise s = Fulfilled -> resumeInterval s <> Armed)
  /\ (resumeInterval s <> NotSet -> queued s = true)
  /\ (timeout s <> NotSet ->
        Cancel (Some i) ∈ log
        /\ cleanText s = Sanitize.sanitizeText (text (options s))
        /\ cleanText s <> [])
  /\ (queued s = true <-> Speak i ∈ log)
  /\ (queued s = true -> forall u, utterance s = Some u -> built s u).

Definition hookFlow (h : Hook) : Prop :=
  (forall i s, sessions h !! i = Some s ->
     sessionFlow i (calls (shared h)) s)
  /\ (forall i, Speak i ∈ calls (shared h) -> is_Some (sessions h !! i))
  /\ orderly (calls (shared h))
  /\ paired (calls (shared h)).

(** Two requests and a platform, for examples. *)
Definition hello : TTSOptions :=
  {| text := units "hello"; lang := None; rate := None; pitch := None;
     volume := None |}.
Definition blank : TTSOptions :=
  {| text := units "  "; lang := None; rate := None; pitch := None;
     volume := None |}.
Definition quietPlatform : Platform := {| getVoices := []; throws := None |}.
Definition failingPlatform : Platform :=
  {| getVoices := []; throws := Some AtSpeak |}.

End SpeechSpec.

Import Sanitize SanitizeSpec.

(** * Properties *)

(** ** Global replacement *)

Section ReplaceAll.



Variable m : matcher.
Hypothesis m_consuming : consuming m.

Lemma replaceFrom_fuel (fuel1 fuel2 : nat) (s : ustring) :
  (length s <= fuel1)%nat -> (length s <= fuel2)%nat ->
  replaceFrom m fuel1 s = replaceFrom m fuel2 s.
Proof.
  revert fuel2 s.
  induction fuel1 as [|fuel1 IH]; intros fuel2 s H1 H2.
  - destruct s; simpl in *; [by destruct fuel2 | lia].
  - destruct s as [|c s]; [by destruct fuel2|].
    destruct fuel2 as [|fuel2]; simpl in *; [lia|].
    destruct (m (c :: s)) as [[out rest]|] eqn:E.
    + apply m_consuming in E. simpl in E.
      f_equal. apply IH; lia.
    + f_equal. apply IH; lia.
Qed.


Lemma replaceAll_cons (c : Z) (s : ustring) :
  replaceAll m (c :: s) =
  match m (c :: s) with
  | Some (out, rest) => out ++ replaceAll m rest
  | None => c :: replaceAll m s
  end.
Proof.
  unfold replaceAll. simpl.
  destruct (m (c :: s)) as [[out rest]|] eqn:E; [|done].
  apply m_consuming in E. simpl in E.
  f_equal. apply replaceFrom_fuel; lia.
Qed.

(** Every amount of fuel from the length of the text on gives the same
    result: the replacement is total. *)
Lemma replaceFrom_enough (fuel : nat) (s : ustring) :
  (length s <= fuel)%nat -> replaceFrom m fuel s = replaceAll m s.
Proof. intros. apply replaceFrom_fuel; [done | lia]. Qed.

(** Induction along the positions the replacement visits. *)
Lemma replaceAll_ind (R : ustring -> ustring -> Prop) :
  R [] [] ->
  (forall c s, m (c :: s) = None ->
               R s (replaceAll m s) -> R (c :: s) (c :: replaceAll m s)) ->
  (forall c s out rest, m (c :: s) = Some (out, rest) ->
               R rest (replaceAll m rest) ->
               R (c :: s) (out ++ replaceAll m rest)) ->
  forall s, R s (replaceAll m s).
Proof.
  intros Hnil Hskip Hmatch s.
  remember (length s) as n eqn:Hn. revert s Hn.
  induction n as [n IH] using lt_wf_ind. intros s Hn.
  destruct s as [|c s]; [exact Hnil|].
  rewrite replaceAll_cons.
  destruct (m (c :: s)) as [[out rest]|] eqn:E.
  - apply Hmatch; [done|].
    apply (IH (length rest)); [|done].
    apply m_consuming in E. lia.
  - apply Hskip; [done|]. apply (IH (length s)); [simpl in Hn; lia | done].
Qed.

End ReplaceAll.

(** ** What a match of each pattern consumes *)

Section Patterns.



Lemma stripPrefix_Some (p s r : ustring) :
  stripPrefix p s = Some r -> s = p ++ r.
Proof.
  revert s. induction p as [|a p IH]; intros s H; simpl in *.
  - by inversion H.
  - destruct s as [|c s]; [done|].
    destruct (a =? c) eqn:E; [|done].
    apply Z.eqb_eq in E. subst. f_equal. by apply IH.
Qed.


Lemma lazyUntil_Some (close s g rest : ustring) :
  lazyUntil close s = Some (g, rest) ->
  s = g ++ close ++ rest /\ Forall (fun c => isLineTerminator c = false) g.
Proof.
  revert g. induction s as [|c s IH]; intros g H.
  - simpl in H. destruct (stripPrefix close []) eqn:E; [|done].
    inversion H; subst. apply stripPrefix_Some in E. by split.
  - cbn [lazyUntil] in H.
    destruct (stripPrefix close (c :: s)) eqn:E.
    + inversion H; subst. apply stripPrefix_Some in E. by split.
    + destruct (isLineTerminator c) eqn:Ec; [done|].
      destruct (lazyUntil close s) as [[g' rest']|] eqn:El; [|done].
      inversion H; subst. destruct (IH g' eq_refl) as [-> Hg].
      split; [done | by constructor].
Qed.

Lemma delimited_Some (open close s out rest : ustring) :
  delimited open close s = Some (out, rest) ->
  s = open ++ out ++ close ++ rest
  /\ Forall (fun c => isLineTerminator c = false) out.
Proof.
  unfold delimited. intros H.
  destruct (stripPrefix open s) as [r|] eqn:E; [|done].
  apply stripPrefix_Some in E. apply lazyUntil_Some in H as [-> Hg].
  by subst.
Qed.

Lemma headingWith_Some (n : nat) (s out rest : ustring) :
  headingWith n s = Some (out, rest) ->
  out = [] /\ exists k c, (1 <= k <= n)%nat
     /\ s = replicate k hash ++ c :: rest /\ isSpace c = true.
Proof.
  induction n as [|n IH]; intros H; [done|].
  cbn [headingWith] in H.
  destruct (stripPrefix (replicate (S n) hash) s) as [[|c r]|] eqn:E.
  - destruct (IH H) as (-> & k & c & ? & ? & ?).
    split; [done|]. exists k, c. split; [lia | done].
  - destruct (isSpace c) eqn:Ec.
    + inversion H; subst. apply stripPrefix_Some in E.
      split; [done|]. exists (S n), c. split; [lia | done].
    + destruct (IH H) as (-> & k & c' & ? & ? & ?).
      split; [done|]. exists k, c'. split; [lia | done].
  - destruct (IH H) as (-> & k & c & ? & ? & ?).
    split; [done|]. exists k, c. split; [lia | done].
Qed.

Lemma dropWhile_split (p : Z -> bool) (s : ustring) :
  exists run, s = run ++ dropWhile p s /\ Forall (fun c => p c = true) run.
Proof.
  induction s as [|c s (run & Hs & Hrun)]; [by exists []|].
  simpl. destruct (p c) eqn:E.
  - exists (c :: run). split; [by rewrite Hs at 1 | by constructor].
  - by exists [].
Qed.

Lemma dropWhile_head (p : Z -> bool) (s : ustring) :
  match dropWhile p s with c :: _ => p c = false | [] => True end.
Proof.
  induction s as [|c s IH]; [done|].
  simpl. destruct (p c) eqn:E; [done|]. exact E.
Qed.

Lemma dropWhile_id (p : Z -> bool) (s : ustring) :
  match s with c :: _ => p c = false | [] => True end -> dropWhile p s = s.
Proof. destruct s as [|c s]; [done|]. simpl. by intros ->. Qed.

Lemma runOf_Some (p : Z -> bool) (o s out rest : ustring) :
  runOf p o s = Some (out, rest) ->
  out = o /\ exists c run, s = c :: run ++ rest /\ p c = true
     /\ Forall (fun d => p d = true) run.
Proof.
  destruct s as [|c s]; [done|]. simpl.
  destruct (p c) eqn:E; [|done]. intros H. inversion H; subst.
  split; [done|].
  destruct (dropWhile_split p s) as (run & Hs & Hrun).
  exists c, run. by rewrite <- Hs.
Qed.

Lemma delimited_consuming (open close : ustring) :
  open <> [] -> consuming (delimited open close).
Proof.
  intros Hopen s out rest H. apply delimited_Some in H as [-> _].
  rewrite !length_app. destruct open; [done | simpl; lia].
Qed.

Lemma headingWith_consuming (n : nat) : consuming (headingWith n).
Proof.
  intros s out rest H.
  apply headingWith_Some in H as (_ & k & c & _ & -> & _).
  rewrite length_app. simpl. lia.
Qed.

Lemma runOf_consuming (p : Z -> bool) (o : ustring) : consuming (runOf p o).
Proof.
  intros s out rest H.
  apply runOf_Some in H as (_ & c & run & -> & _).
  simpl. rewrite length_app. lia.
Qed.

Lemma boldPattern_consuming : consuming boldPattern.
Proof. by apply delimited_consuming. Qed.
Lemma italicPattern_consuming : consuming italicPattern.
Proof. by apply delimited_consuming. Qed.
Lemma codePattern_consuming : consuming codePattern.
Proof. by apply delimited_consuming. Qed.
Lemma headingPattern_consuming : consuming headingPattern.
Proof. apply headingWith_consuming. Qed.
Lemma newlinePattern_consuming : consuming newlinePattern.
Proof. apply runOf_consuming. Qed.
Lemma spacePattern_consuming : consuming spacePattern.
Proof. apply runOf_consuming. Qed.

End Patterns.

#[local] Hint Resolve boldPattern_consuming italicPattern_consuming
  codePattern_consuming headingPattern_consuming newlinePattern_consuming
  spacePattern_consuming : core.

(** ** Code points and edits *)

Section Scan.

Lemma isHigh_surrogate (c : Z) : isHigh c = true -> isSurrogate c = true.
Proof. unfold isHigh, isSurrogate, inRange. lia. Qed.


Lemma not_surrogate (c : Z) :
  isSurrogate c = false -> isHigh c = false /\ isLow c = false.
Proof. unfold isHigh, isLow, isSurrogate, inRange. lia. Qed.

Lemma scan_high (P : Z -> bool) (c d : Z) (r : ustring) :
  isHigh c = true ->
  scan P (c :: d :: r) = isLow d && P (codePoint c d) && scan P r.
Proof. intros H. cbn [scan]. by rewrite H. Qed.

Lemma scan_high_end (P : Z -> bool) (c : Z) :
  isHigh c = true -> scan P [c] = false.
Proof. intros H. cbn [scan]. by rewrite H. Qed.

Lemma scan_other (P : Z -> bool) (c : Z) (s : ustring) :
  isHigh c = false -> scan P (c :: s) = negb (isLow c) && P c && scan P s.
Proof. intros H. destruct s; cbn [scan]; by rewrite H. Qed.



(** Texts are read two units at a time. *)
Lemma ustring_pair_ind (R : ustring -> Prop) :
  R [] -> (forall c, R [c]) ->
  (forall c d r, R r -> R (d :: r) -> R (c :: d :: r)) ->
  forall s, R s.
Proof.
  intros H0 H1 H2 s.
  assert (H : R s /\ forall c, R (c :: s)); [|by destruct H].
  induction s as [|d r [IHr IHc]]; [by split|].
  split; [apply IHc|]. intros c. by apply H2.
Qed.

Lemma scan_mono (P Q : Z -> bool) (s : ustring) :
  (forall c, P c = true -> Q c = true) ->
  scan P s = true -> scan Q s = true.
Proof.
  intros HPQ. induction s as [|c|c d r IHr IHd] using ustring_pair_ind;
    [done| |].
  - destruct (isHigh c) eqn:Eh; [by rewrite scan_high_end|].
    rewrite (scan_other P), (scan_other Q) by done.
    intros [[-> ->%HPQ]%andb_prop _]%andb_prop. done.
  - destruct (isHigh c) eqn:Eh.
    + rewrite (scan_high P), (scan_high Q) by done.
      intros [[-> ->%HPQ]%andb_prop ->%IHr]%andb_prop. done.
    + rewrite (scan_other P), (scan_other Q) by done.
      intros [[-> ->%HPQ]%andb_prop ->%IHd]%andb_prop. done.
Qed.

Lemma removeRange_pair (lo hi c d : Z) (r : ustring) :
  removeRange lo hi (c :: d :: r) =
  if isHigh c && isLow d then
    if inRange lo hi (codePoint c d) then removeRange lo hi r
    else c :: d :: removeRange lo hi r
  else if inRange lo hi c then removeRange lo hi (d :: r)
  else c :: removeRange lo hi (d :: r).
Proof. reflexivity. Qed.

Lemma codePoints_pair (c d : Z) (r : ustring) :
  codePoints (c :: d :: r) =
  if isHigh c && isLow d then codePoint c d :: codePoints r
  else c :: codePoints (d :: r).
Proof. reflexivity. Qed.

Lemma codePoints_other (c : Z) (s : ustring) :
  isHigh c = false -> codePoints (c :: s) = c :: codePoints s.
Proof. intros H. destruct s; [done|]. by rewrite codePoints_pair, H. Qed.


(** One pass of [removeRange] keeps a text well formed and leaves no code
    point of the range. *)
Lemma scan_removeRange (P : Z -> bool) (lo hi : Z) (s : ustring) :
  scan P s = true ->
  scan (fun c => P c && negb (inRange lo hi c)) (removeRange lo hi s) = true.
Proof.
  induction s as [|c|c d r IHr IHd] using ustring_pair_ind; [done| |].
  - destruct (isHigh c) eqn:Eh; [by rewrite scan_high_end|].
    rewrite scan_other by done.
    intros [[Hl HP]%andb_prop _]%andb_prop. cbn [removeRange].
    destruct (inRange lo hi c) eqn:Er; [done|].
    rewrite scan_other by done. by rewrite Hl, HP, Er.
  - rewrite removeRange_pair. destruct (isHigh c) eqn:Eh.
    + rewrite scan_high by done.
      intros [[Hl HP]%andb_prop Hr%IHr]%andb_prop. rewrite Hl. cbn [andb].
      destruct (inRange lo hi (codePoint c d)) eqn:Er; [done|].
      rewrite scan_high by done. by rewrite Hl, HP, Er, Hr.
    + rewrite scan_other by done.
      intros [[Hl HP]%andb_prop Hr%IHd]%andb_prop. cbn [andb].
      destruct (inRange lo hi c) eqn:Er; [done|].
      rewrite scan_other by done. by rewrite Hl, HP, Er, Hr.
Qed.




Lemma edit_refl (P : Z -> bool) (s : ustring) : edit P s s.
Proof. induction s; by constructor. Qed.

Lemma edit_app (P : Z -> bool) (a a' b b' : ustring) :
  edit P a a' -> edit P b b' -> edit P (a ++ b) (a' ++ b').
Proof.
  induction 1; intros Hb; simpl; [done | constructor; auto |].
  rewrite <- app_assoc. constructor; auto.
Qed.

Lemma edit_drop (P : Z -> bool) (a : ustring) :
  Forall (fun c => isSurrogate c = false) a -> edit P a [].
Proof.
  induction 1 as [|c a Hc _ IH]; [constructor|].
  by apply (edit_subst P c [] a []).
Qed.

(** An edit keeps what holds of every unit, when the inserted units have
    it. *)
Lemma Forall_edit (P : Z -> bool) (Q : Z -> Prop) (s t : ustring) :
  (forall u, isSurrogate u = false -> P u = true -> Q u) ->
  edit P s t -> Forall Q s -> Forall Q t.
Proof.
  intros HPQ. induction 1 as [|c s t _ IH|c w s t Hc Hw _ IH]; intros Hs.
  - done.
  - inversion Hs; subst. constructor; auto.
  - inversion Hs; subst. apply Forall_app. split; [|auto].
    eapply Forall_impl; [exact Hw|]. intros u [? ?]. auto.
Qed.

End Scan.

(** ** The markdown and white space replacements as edits *)

Section Stages.

Lemma isSpace_not_surrogate (c : Z) :
  isSpace c = true -> isSurrogate c = false.
Proof. unfold isSpace, isSurrogate, inRange. lia. Qed.

Lemma isSpace_plainUnit (c : Z) : isSpace c = true -> plainUnit c = true.
Proof.
  unfold isSpace, plainUnit, isSurrogate, isEmoji, emojiRanges, inRange,
    star, backtick, hash.
  cbn [existsb fst snd]. lia.
Qed.

Lemma isNewline_isSpace (c : Z) : isNewline c = true -> isSpace c = true.
Proof. unfold isNewline, newline, isSpace, inRange. lia. Qed.

Lemma plainUnit_not_surrogate (c : Z) :
  plainUnit c = true -> isSurrogate c = false.
Proof. unfold plainUnit. destruct (isSurrogate c); [done | done]. Qed.



Lemma replaceAll_edit (m : matcher) (s : ustring) :
  consuming m -> editing m -> edit plainUnit s (replaceAll m s).
Proof.
  intros Hc He. apply (replaceAll_ind m Hc (edit plainUnit)).
  - constructor.
  - intros. by constructor.
  - intros c s0 out rest Hm IH.
    destruct (He _ _ _ Hm) as (used & -> & Hu). by apply edit_app.
Qed.



Lemma runOf_editing (p : Z -> bool) (o : ustring) :
  (forall c, p c = true -> isSpace c = true) ->
  Forall (fun u => isSurrogate u = false /\ plainUnit u = true) o ->
  editing (runOf p o).
Proof.
  intros Hp Ho s out rest (-> & c & run & -> & Hc & Hrun)%runOf_Some.
  exists (c :: run). split; [done|].
  rewrite <- (app_nil_r o). apply edit_subst; [|done|].
  - by apply isSpace_not_surrogate, Hp.
  - apply edit_drop. eapply Forall_impl; [exact Hrun|].
    intros d Hd. by apply isSpace_not_surrogate, Hp.
Qed.

Lemma edit_dropWhile (s : ustring) : edit plainUnit s (dropWhile isSpace s).
Proof.
  destruct (dropWhile_split isSpace s) as (run & Hs & Hrun).
  rewrite Hs at 1. change (dropWhile isSpace s) with ([] ++ dropWhile isSpace s).
  apply edit_app; [|apply edit_refl].
  apply edit_drop. eapply Forall_impl; [exact Hrun|].
  intros. by apply isSpace_not_surrogate.
Qed.

Lemma trimEnd_split (s : ustring) :
  exists run, s = rev (dropWhile isSpace (rev s)) ++ run
    /\ Forall (fun c => isSpace c = true) run.
Proof.
  destruct (dropWhile_split isSpace (rev s)) as (run & Hs & Hrun).
  exists (rev run). split.
  - rewrite <- rev_app_distr, <- Hs. by rewrite rev_involutive.
  - by apply Forall_rev.
Qed.

Lemma edit_trim (s : ustring) : edit plainUnit s (trim s).
Proof.
  unfold trim.
  destruct (trimEnd_split (dropWhile isSpace s)) as (run & Hs & Hrun).
  set (t := rev (dropWhile isSpace (rev (dropWhile isSpace s)))) in *.
  assert (edit plainUnit (dropWhile isSpace s) t) as Ht.
  { rewrite Hs. rewrite <- (app_nil_r t) at 2.
    apply edit_app; [apply edit_refl|].
    apply edit_drop. eapply Forall_impl; [exact Hrun|].
    intros. by apply isSpace_not_surrogate. }
  clear Hs. revert Ht. generalize t. clear.
  (* compose with the edit that drops the leading run *)
  destruct (dropWhile_split isSpace s) as (run & Hs & Hrun).
  intros t Ht. rewrite Hs. change t with ([] ++ t).
  apply edit_app; [|done].
  apply edit_drop. eapply Forall_impl; [exact Hrun|].
  intros. by apply isSpace_not_surrogate.
Qed.

Lemma newlinePattern_editing : editing newlinePattern.
Proof.
  apply runOf_editing; [apply isNewline_isSpace | by repeat constructor].
Qed.
Lemma spacePattern_editing : editing spacePattern.
Proof. apply runOf_editing; [done | by repeat constructor]. Qed.


Lemma cleanWhitespace_edits (R : ustring -> Prop) (s : ustring) :
  (forall a b, edit plainUnit a b -> R a -> R b) ->
  R s -> R (cleanWhitespace s).
Proof.
  intros HR Hs. unfold cleanWhitespace.
  eapply HR; [apply edit_trim|].
  repeat (eapply HR; [apply replaceAll_edit|]);
    eauto using newlinePattern_editing, spacePattern_editing.
Qed.


End Stages.

(** ** The normal form of the white space replacements *)

Section Tidy.

Lemma spaced_suffix (a b : ustring) : spaced (a ++ b) -> spaced b.
Proof. induction a as [|c a IH]; [done|]. intros [_ H]. auto. Qed.

Lemma startsClean_app (a b : ustring) :
  startsClean (a ++ b) -> startsClean a.
Proof. destruct a; [done | done]. Qed.

Lemma spaced_prefix (a b : ustring) : spaced (a ++ b) -> spaced a.
Proof.
  induction a as [|c a IH]; [done|]. intros [Hc H]. split; [|auto].
  intros Hs. destruct (Hc Hs) as [-> Hr]. split; [done|].
  by apply startsClean_app in Hr.
Qed.

Lemma spaced_spacePattern (s : ustring) :
  spaced (replaceAll spacePattern s).
Proof.
  cut (spaced (replaceAll spacePattern s)
       /\ (startsClean s -> startsClean (replaceAll spacePattern s)));
    [by intros [? _]|].
  apply (replaceAll_ind spacePattern spacePattern_consuming
           (fun s t => spaced t /\ (startsClean s -> startsClean t))).
  - done.
  - intros c s0 Hm [IH1 IH2]. simpl in Hm.
    destruct (isSpace c) eqn:Ec; [done|].
    split; [|done]. split; [|done]. congruence.
  - intros c s0 out rest Hm [IH1 IH2]. simpl in Hm.
    destruct (isSpace c) eqn:Ec; [|done]. inversion Hm; subst.
    split; [|simpl; congruence].
    split; [|done]. intros _. split; [done|].
    apply IH2, dropWhile_head.
Qed.

Lemma tidy_cleanWhitespace (s : ustring) : tidy (cleanWhitespace s).
Proof.
  unfold cleanWhitespace, trim.
  set (w := replaceAll spacePattern _).
  assert (Hw : spaced w) by apply spaced_spacePattern.
  destruct (dropWhile_split isSpace w) as (r1 & Hw1 & _).
  set (a := dropWhile isSpace w) in *.
  assert (Ha : spaced a) by (rewrite Hw1 in Hw; by apply spaced_suffix in Hw).
  assert (Ha' : startsClean a) by apply dropWhile_head.
  destruct (trimEnd_split a) as (r2 & Ha2 & _).
  set (b := rev (dropWhile isSpace (rev a))) in *.
  repeat split.
  - rewrite Ha2 in Ha. by apply spaced_prefix in Ha.
  - destruct b as [|c b]; [done|]. rewrite Ha2 in Ha'. exact Ha'.
  - unfold b. rewrite rev_involutive. apply dropWhile_head.
Qed.

(** Without a unit that starts a match, a replacement changes nothing. *)
Lemma replaceAll_untouched (m : matcher) (trigger : Z -> bool)
    (a s : ustring) :
  consuming m ->
  (forall c r, trigger c = false -> m (c :: r) = None) ->
  Forall (fun c => trigger c = false) a ->
  replaceAll m (a ++ s) = a ++ replaceAll m s.
Proof.
  intros Hc Hm. induction 1 as [|c a Hca _ IH]; [done|].
  rewrite <- app_comm_cons, replaceAll_cons, Hm by done. by rewrite IH.
Qed.

Lemma replaceAll_id (m : matcher) (trigger : Z -> bool) (a : ustring) :
  consuming m ->
  (forall c r, trigger c = false -> m (c :: r) = None) ->
  Forall (fun c => trigger c = false) a ->
  replaceAll m a = a.
Proof.
  intros Hc Hm Ha.
  rewrite <- (app_nil_r a) at 1.
  rewrite (replaceAll_untouched m trigger) by done. by rewrite app_nil_r.
Qed.

Lemma runOf_trigger (p : Z -> bool) (o : ustring) (c : Z) (r : ustring) :
  p c = false -> runOf p o (c :: r) = None.
Proof. simpl. by intros ->. Qed.

Lemma delimited_trigger (o : Z) (open close : ustring) (c : Z) (r : ustring) :
  (c =? o) = false -> delimited (o :: open) close (c :: r) = None.
Proof.
  unfold delimited. simpl. rewrite Z.eqb_sym. by intros ->.
Qed.

Lemma headingWith_trigger (n : nat) (c : Z) (r : ustring) :
  (c =? hash) = false -> headingWith n (c :: r) = None.
Proof.
  intros H. induction n as [|n IH]; [done|].
  cbn [headingWith replicate stripPrefix]. rewrite Z.eqb_sym, H. exact IH.
Qed.

Lemma spaced_no_newline (t : ustring) :
  spaced t -> Forall (fun c => isNewline c = false) t.
Proof.
  induction t as [|c t IH]; [done|]. intros [Hc Ht]. constructor; [|auto].
  destruct (isNewline c) eqn:E; [|done].
  destruct (Hc (isNewline_isSpace _ E)) as [-> _]. done.
Qed.

Lemma spacePattern_spaced (t : ustring) :
  spaced t -> replaceAll spacePattern t = t.
Proof.
  induction t as [|c t IH]; [done|]. intros [Hc Ht].
  rewrite replaceAll_cons by done. simpl.
  destruct (isSpace c) eqn:E.
  - destruct (Hc eq_refl) as [-> Hs].
    rewrite (dropWhile_id _ _ Hs). simpl. by rewrite IH.
  - by rewrite IH.
Qed.

Lemma trim_clean (t : ustring) :
  startsClean t -> startsClean (rev t) -> trim t = t.
Proof.
  intros H1 H2. unfold trim.
  rewrite (dropWhile_id _ t H1), (dropWhile_id _ (rev t) H2).
  apply rev_involutive.
Qed.

Lemma cleanWhitespace_tidy (t : ustring) : tidy t -> cleanWhitespace t = t.
Proof.
  intros (Hs & H1 & H2). unfold cleanWhitespace.
  rewrite (replaceAll_id newlinePattern isNewline);
    [|done|apply runOf_trigger|by apply spaced_no_newline].
  rewrite spacePattern_spaced by done. by apply trim_clean.
Qed.

(** The white space replacements are idempotent. *)
Lemma cleanWhitespace_idempotent (s : ustring) :
  cleanWhitespace (cleanWhitespace s) = cleanWhitespace s.
Proof. apply cleanWhitespace_tidy, tidy_cleanWhitespace. Qed.

End Tidy.

(** ** What the replacements do to marked-up plain text *)

Section Strip.

Lemma removeRange_other (lo hi c : Z) (r : ustring) :
  isHigh c = false ->
  removeRange lo hi (c :: r) =
  if inRange lo hi c then removeRange lo hi r else c :: removeRange lo hi r.
Proof.
  intros H. destruct r as [|d r]; [done|].
  by rewrite removeRange_pair, H.
Qed.

Lemma removeRange_id (lo hi : Z) (s : ustring) :
  Forall (fun c => isSurrogate c = false /\ inRange lo hi c = false) s ->
  removeRange lo hi s = s.
Proof.
  induction 1 as [|c s [[Hh _]%not_surrogate Hr] _ IH]; [done|].
  rewrite removeRange_other, Hr by done. by rewrite IH.
Qed.

(** A unit outside the surrogate and emoji ranges. *)
Lemma removeEmoji_id (s : ustring) :
  Forall (fun c => isSurrogate c = false /\ isEmoji c = false) s ->
  removeEmoji s = s.
Proof.
  intros H.
  assert (Hr : forall lo hi, (lo, hi) ∈ emojiRanges ->
                 removeRange lo hi s = s).
  { intros lo hi Hin. apply removeRange_id.
    eapply Forall_impl; [exact H|]. intros c [? He]. split; [done|].
    destruct (inRange lo hi c) eqn:E; [|done].
    assert (isEmoji c = true); [|congruence].
    apply existsb_exists. exists (lo, hi). split; [|done].
    by apply list_elem_of_In. }
  unfold removeEmoji, emojiRanges. cbn [fold_left fst snd].
  rewrite (Hr 0x1F600 0x1F64F), (Hr 0x1F300 0x1F5FF), (Hr 0x1F680 0x1F6FF),
    (Hr 0x2600 0x26FF), (Hr 0x2700 0x27BF), (Hr 0x1F900 0x1F9FF),
    (Hr 0x1FA00 0x1FA6F); first [done | unfold emojiRanges; set_solver].
Qed.

Lemma plainUnit_spec (c : Z) :
  plainUnit c = true ->
  isSurrogate c = false /\ isEmoji c = false /\ (c =? star) = false
  /\ (c =? backtick) = false /\ (c =? hash) = false.
Proof.
  unfold plainUnit.
  destruct (isSurrogate c), (isEmoji c), (c =? star), (c =? backtick),
    (c =? hash); done.
Qed.

Lemma plain_Forall (Q : Z -> Prop) (s : ustring) :
  (forall c, plainUnit c = true -> Q c) -> plain s -> Forall Q s.
Proof. intros HQ H. eapply Forall_impl; [exact H | exact HQ]. Qed.

Lemma plain_without (s : ustring) :
  plain s -> without star s /\ without backtick s /\ without hash s.
Proof.
  intros H. repeat split; (eapply plain_Forall; [|exact H]);
    intros c Hc%plainUnit_spec; tauto.
Qed.

Lemma boldPattern_id (s : ustring) :
  without star s -> replaceAll boldPattern s = s.
Proof.
  apply (replaceAll_id boldPattern (fun c => c =? star)); [done|].
  intros. by apply delimited_trigger.
Qed.

Lemma italicPattern_id (s : ustring) :
  without star s -> replaceAll italicPattern s = s.
Proof.
  apply (replaceAll_id italicPattern (fun c => c =? star)); [done|].
  intros. by apply delimited_trigger.
Qed.

Lemma codePattern_id (s : ustring) :
  without backtick s -> replaceAll codePattern s = s.
Proof.
  apply (replaceAll_id codePattern (fun c => c =? backtick)); [done|].
  intros. by apply delimited_trigger.
Qed.

Lemma headingPattern_id (s : ustring) :
  without hash s -> replaceAll headingPattern s = s.
Proof.
  apply (replaceAll_id headingPattern (fun c => c =? hash)); [done|].
  intros. by apply headingWith_trigger.
Qed.

Lemma markdown_plain (s : ustring) :
  plain s ->
  replaceAll headingPattern
    (replaceAll codePattern
       (replaceAll italicPattern (replaceAll boldPattern s))) = s.
Proof.
  intros (Hs & Hb & Hh)%plain_without.
  by rewrite boldPattern_id, italicPattern_id, codePattern_id,
    headingPattern_id.
Qed.

(** The emoji and markdown replacements leave a plain text as it is. *)
Lemma stripFormatting_plain (s : ustring) :
  plain s -> stripFormatting s = s.
Proof.
  intros H. unfold stripFormatting.
  rewrite removeEmoji_id; [by apply markdown_plain|].
  eapply plain_Forall; [|exact H]. intros c Hc%plainUnit_spec. tauto.
Qed.

Lemma plain_cleanWhitespace (s : ustring) :
  plain s -> plain (cleanWhitespace s).
Proof.
  apply (cleanWhitespace_edits plain). intros a b Hab.
  by apply (Forall_edit plainUnit).
Qed.












Lemma dropWhile_replicate (n : nat) (b : ustring) :
  match b with c :: _ => isNewline c = false | [] => True end ->
  dropWhile isNewline (replicate n newline ++ b) = b.
Proof.
  intros Hb. induction n as [|n IH]; [by apply dropWhile_id|]. exact IH.
Qed.




End Strip.

(** ** Sanitization: the stated properties *)

(** C4, as stated: sanitizing twice is sanitizing once, for every text.
    It fails on a text with an emphasis marker on each of two lines: the
    pattern for italics does not cross the line break, the line break then
    becomes a sentence break, and a second pass finds both markers on one
    line. *)
Lemma sanitizeText_twice_differs :
  ~ (forall x : ustring, sanitizeText (sanitizeText x) = sanitizeText x).
Proof.
  intros H. specialize (H (units "*a" ++ [newline] ++ units "b*")).
  vm_compute in H. discriminate H.
Qed.

(** C4, amended: sanitizing twice is sanitizing once for every text whose
    sanitized form is left unchanged by the emoji and markdown replacements,
    in particular for every text without emoji, surrogates, asterisks,
    backticks and hashes; the white space replacements alone are idempotent
    on every text. *)
Theorem sanitizeText_idempotent_once_stripped :
  (forall x : ustring,
     stripFormatting (sanitizeText x) = sanitizeText x ->
     sanitizeText (sanitizeText x) = sanitizeText x)
  /\ (forall x : ustring,
        plain x -> sanitizeText (sanitizeText x) = sanitizeText x)
  /\ (forall s : ustring,
        cleanWhitespace (cleanWhitespace s) = cleanWhitespace s).
Proof.
  assert (forall x : ustring,
            stripFormatting (sanitizeText x) = sanitizeText x ->
            sanitizeText (sanitizeText x) = sanitizeText x) as H.
  { intros x Hx. unfold sanitizeText at 1. rewrite Hx.
    unfold sanitizeText. apply cleanWhitespace_idempotent. }
  split; [exact H|]. split; [|apply cleanWhitespace_idempotent].
  intros x Hx. apply H, stripFormatting_plain.
  unfold sanitizeText. rewrite stripFormatting_plain by done.
  by apply plain_cleanWhitespace.
Qed.

Lemma sanitizeText_idempotent_once_stripped_witness :
  let x := units "  Hi" ++ [newline; newline] ++ units "there  " in
  stripFormatting (sanitizeText x) = sanitizeText x
  /\ sanitizeText (sanitizeText x) = sanitizeText x
  /\ sanitizeText x = units "Hi. there".
Proof.
  intros x.
  assert (stripFormatting (sanitizeText x) = sanitizeText x) as Hx
    by (vm_compute; reflexivity).
  split; [exact Hx|]. split.
  - exact (proj1 sanitizeText_idempotent_once_stripped x Hx).
  - vm_compute. reflexivity.
Defined.




(** ** Voices *)

Section VoiceFacts.

Import Speech Voices VoicesSpec.

Lemma find_firstWith {A} (f : A -> bool) (P : A -> Prop) (l : list A) (v : A) :
  (forall u, f u = true <-> P u) ->
  firstWith P l v -> List.find f l = Some v.
Proof.
  intros Hf (l1 & l2 & -> & Hv & Hl1).
  induction Hl1 as [|u l1 Hu _ IH]; simpl.
  - apply Hf in Hv. by rewrite Hv.
  - destruct (f u) eqn:E; [|done]. apply Hf in E. done.
Qed.

Lemma find_noneWith {A} (f : A -> bool) (P : A -> Prop) (l : list A) :
  (forall u, f u = true <-> P u) ->
  noneWith P l -> List.find f l = None.
Proof.
  intros Hf. induction 1 as [|u l Hu _ IH]; [done|]. simpl.
  destruct (f u) eqn:E; [|done]. apply Hf in E. done.
Qed.

Lemma eqb_isHindi (v : SpeechSynthesisVoice) :
  String.eqb (lang v) "hi-IN" = true <-> isHindi v.
Proof. apply String.eqb_eq. Qed.

Lemma eqb_isIndianEnglish (v : SpeechSynthesisVoice) :
  String.eqb (lang v) "en-IN" = true <-> isIndianEnglish v.
Proof. apply String.eqb_eq. Qed.

Lemma startsWith_isEnglish (v : SpeechSynthesisVoice) :
  startsWith (lang v) "en" = true <-> isEnglish v.
Proof.
  unfold startsWith, isEnglish. rewrite String.prefix_correct.
  destruct (lang v) as [|a [|b r]]; cbn [String.length String.substring].
  - split; [done | by intros [? ?]].
  - split; [done | by intros [? ?]].
  - assert (String.substring 0 0 r = "") as -> by (by destruct r).
    split; [intros [= <- <-]; by exists r | intros [? [= <- <- _]]; done].
Qed.

Lemma firstWith_nonempty {A} (P : A -> Prop) (l : list A) (v : A) :
  firstWith P l v -> (length l =? 0)%nat = false.
Proof.
  intros (l1 & l2 & -> & _). apply Nat.eqb_neq.
  rewrite length_app. simpl. lia.
Qed.


(** C8: the label is the voice name, " - " and the language label; the
    language label is fixed for the tags hi-IN, hi, en-IN, en-US and en-GB
    and is the tag itself for every other tag.  The voice named X with tag
    en-IN is labelled "X - 🇮🇳 English (India)". *)
Theorem getVoiceLabel_format :
  (forall n, getVoiceLabel {| name := n; lang := "hi-IN" |}
             = n +:+ " - " +:+ "🇮🇳 Hindi")
  /\ (forall n, getVoiceLabel {| name := n; lang := "hi" |}
                = n +:+ " - " +:+ "🇮🇳 Hindi")
  /\ (forall n, getVoiceLabel {| name := n; lang := "en-IN" |}
                = n +:+ " - " +:+ "🇮🇳 English (India)")
  /\ (forall n, getVoiceLabel {| name := n; lang := "en-US" |}
                = n +:+ " - " +:+ "🇺🇸 English (US)")
  /\ (forall n, getVoiceLabel {| name := n; lang := "en-GB" |}
                = n +:+ " - " +:+ "🇬🇧 English (UK)")
  /\ (forall v, lang v ∉ ["hi-IN"; "hi"; "en-IN"; "en-US"; "en-GB"] ->
                getVoiceLabel v = name v +:+ " - " +:+ lang v)
  /\ getVoiceLabel {| name := "X"; lang := "en-IN" |}
     = "X - 🇮🇳 English (India)".
Proof.
  repeat split; try (intros n; unfold getVoiceLabel; cbn [name lang];
                     by vm_compute (langLabels !! _)).
  - intros v Hv. unfold getVoiceLabel, langLabels.
    repeat (apply not_elem_of_cons in Hv as [? Hv]).
    rewrite !lookup_insert_ne, lookup_empty by done. done.
Qed.

Lemma getVoiceLabel_format_witness :
  getVoiceLabel {| name := "Lekha"; lang := "fr-FR" |} = "Lekha - fr-FR".
Proof.
  destruct getVoiceLabel_format as (_ & _ & _ & _ & _ & H & _).
  apply (H {| name := "Lekha"; lang := "fr-FR" |}).
  cbn [lang]. intros Hin.
  repeat (apply elem_of_cons in Hin as [Hin|Hin]; [discriminate Hin|]).
  by apply elem_of_nil in Hin.
Defined.

End VoiceFacts.

Section BestVoice.

Import Speech Voices VoicesSpec.

(** The utterance the 50 ms continuation builds when nothing throws. *)
Lemma continuation_utterance (h h' : Hook) (i : nat) (p : Platform) :
  step h (TimeoutFires i p) = Some h' -> throws p = None ->
  exists s s' u,
    sessions h !! i = Some s /\ sessions h' !! i = Some s'
    /\ utterance s' = Some u
    /\ uText u = cleanText s
    /\ match getBestVoice (capturedVoices s) (getVoices p) with
       | Some voice => uVoice u = Some voice /\ uLang u = lang voice
       | None => uVoice u = None /\ uLang u = "hi-IN"
       end.
Proof.
  intros Hstep Hp. unfold step, inScope in Hstep.
  destruct (sessions h !! i) as [s|] eqn:Hs; [|done].
  destruct (armed (timeout s)); [|done].
  inversion Hstep; subst; clear Hstep. cbn [sessions].
  pose proof (lookup_lt_Some _ _ _ Hs) as Hi.
  rewrite list_lookup_insert_eq by done.
  unfold continuation, tryCatch, bind, throwWhen, throwsAt. rewrite Hp.
  cbn.
  destruct (getBestVoice (capturedVoices s) (getVoices p)) as [v|] eqn:Ev;
    cbn; eexists s, _, _; (split; [done|]); (split; [reflexivity|]);
    (split; [reflexivity|]); (split; [reflexivity|]); rewrite Ev; done.
Qed.


(** C2: [getBestVoice] returns the first voice tagged exactly hi-IN; without
    one, the first tagged exactly en-IN; without one, the first whose tag
    starts with en; without one, the first voice; and nothing for an empty
    list.  Of [en-US, en-IN, hi-IN] it returns the hi-IN voice, of
    [en-US, en-GB] the en-US voice.  The continuation of [speak] binds the
    voice returned and takes its tag, and with no voice leaves the utterance
    unbound with the tag hi-IN. *)
Theorem getBestVoice_priority :
  (forall availableVoices getVoices : list SpeechSynthesisVoice,
     let voices := currentVoices availableVoices getVoices in
     (forall v, firstWith isHindi voices v ->
        getBestVoice availableVoices getVoices = Some v)
     /\ (forall v, noneWith isHindi voices ->
           firstWith isIndianEnglish voices v ->
           getBestVoice availableVoices getVoices = Some v)
     /\ (forall v, noneWith isHindi voices ->
           noneWith isIndianEnglish voices ->
           firstWith isEnglish voices v ->
           getBestVoice availableVoices getVoices = Some v)
     /\ (forall v rest, noneWith isHindi voices ->
           noneWith isIndianEnglish voices -> noneWith isEnglish voices ->
           voices = v :: rest ->
           getBestVoice availableVoices getVoices = Some v)
     /\ (voices = [] -> getBestVoice availableVoices getVoices = None))
  /\ (forall a b c : string,
        let l := [ {| name := a; lang := "en-US" |};
                   {| name := b; lang := "en-IN" |};
                   {| name := c; lang := "hi-IN" |} ] in
        getBestVoice l [] = Some {| name := c; lang := "hi-IN" |}
        /\ getBestVoice [] l = Some {| name := c; lang := "hi-IN" |})
  /\ (forall a b : string,
        let l := [ {| name := a; lang := "en-US" |};
                   {| name := b; lang := "en-GB" |} ] in
        getBestVoice l [] = Some {| name := a; lang := "en-US" |}
        /\ getBestVoice [] l = Some {| name := a; lang := "en-US" |})
  /\ getBestVoice [] [] = None
  /\ (forall (h h' : Hook) (i : nat) (p : Platform),
        step h (TimeoutFires i p) = Some h' -> throws p = None ->
        exists s s' u,
          sessions h !! i = Some s /\ sessions h' !! i = Some s'
          /\ utterance s' = Some u
          /\ match getBestVoice (capturedVoices s) (getVoices p) with
             | Some voice => uVoice u = Some voice /\ uLang u = lang voice
             | None => uVoice u = None /\ uLang u = "hi-IN"
             end).
Proof.
  split.
  { intros av gv voices. unfold getBestVoice. fold voices.
    repeat split.
    - intros v Hv. rewrite (firstWith_nonempty _ _ _ Hv).
      by rewrite (find_firstWith _ _ _ _ eqb_isHindi Hv).
    - intros v Hh Hv. rewrite (firstWith_nonempty _ _ _ Hv).
      rewrite (find_noneWith _ _ _ eqb_isHindi Hh).
      by rewrite (find_firstWith _ _ _ _ eqb_isIndianEnglish Hv).
    - intros v Hh Hi Hv. rewrite (firstWith_nonempty _ _ _ Hv).
      rewrite (find_noneWith _ _ _ eqb_isHindi Hh).
      rewrite (find_noneWith _ _ _ eqb_isIndianEnglish Hi).
      by rewrite (find_firstWith _ _ _ _ startsWith_isEnglish Hv).
    - intros v rest Hh Hi He Hv.
      rewrite (find_noneWith _ _ _ eqb_isHindi Hh).
      rewrite (find_noneWith _ _ _ eqb_isIndianEnglish Hi).
      rewrite (find_noneWith _ _ _ startsWith_isEnglish He).
      by rewrite Hv.
    - by intros ->. }
  split; [done|]. split; [done|]. split; [done|].
  intros h h' i p Hstep Hp.
  destruct (continuation_utterance h h' i p Hstep Hp)
    as (s & s' & u & ? & ? & ? & _ & ?).
  by exists s, s', u.
Qed.

Lemma getBestVoice_priority_witness :
  let fr := {| name := "Amelie"; lang := "fr-FR" |} in
  let gb := {| name := "Daniel"; lang := "en-GB" |} in
  let ind := {| name := "Rishi"; lang := "en-IN" |} in
  let o := {| text := units "hello"; Speech.lang := None;
              rate := None; pitch := None; volume := None |} in
  let p := {| getVoices := []; throws := None |} in
  getBestVoice [] [fr; gb; ind] = Some ind
  /\ exists h h' s' u,
       run Speech.initial [Mounted true []; CallSpeak o] = Some h
       /\ step h (TimeoutFires 0 p) = Some h'
       /\ sessions h' !! 0%nat = Some s'
       /\ utterance s' = Some u /\ uVoice u = None /\ uLang u = "hi-IN".
Proof.
  intros fr gb ind o p.
  destruct getBestVoice_priority as (Hp & _ & _ & _ & Hs).
  split.
  - destruct (Hp [] [fr; gb; ind]) as (_ & H2 & _). apply H2.
    + repeat constructor; discriminate.
    + exists [fr; gb], []. split; [done|]. split; [done|].
      repeat constructor; discriminate.
  - destruct (run Speech.initial [Mounted true []; CallSpeak o]) as [h|] eqn:Eh;
      [|vm_compute in Eh; discriminate Eh].
    destruct (step h (TimeoutFires 0 p)) as [h'|] eqn:Eh';
      [|vm_compute in Eh; inversion Eh; subst h; vm_compute in Eh';
        discriminate Eh'].
    destruct (Hs h h' 0%nat p Eh' eq_refl) as (s & s' & u & Hl & Hl' & Hu & Hv).
    assert (getBestVoice (capturedVoices s) (getVoices p) = None) as Hn.
    { vm_compute in Eh. inversion Eh; subst h. vm_compute in Hl.
      inversion Hl; subst s. reflexivity. }
    rewrite Hn in Hv. destruct Hv as [Hv1 Hv2].
    by exists h, h', s', u.
Defined.

End BestVoice.

(** ** Expiry widget *)

Section ExpiryFacts.

Import Expiry ExpirySpec.

(** *** The calendar *)

Lemma DayFromYear_period (c : Z) : DayFromYear (1970 + 400 * c) = 146097 * c.
Proof. unfold DayFromYear. Z.div_mod_to_equations. lia. Qed.

Lemma DayFromYear_next (y : Z) : DayFromYear y < DayFromYear (y + 1).
Proof. unfold DayFromYear. Z.div_mod_to_equations. lia. Qed.

Lemma DayFromYear_mono (y y' : Z) :
  y <= y' -> DayFromYear y <= DayFromYear y'.
Proof. intros H. unfold DayFromYear. Z.div_mod_to_equations. lia. Qed.

Lemma TimeFromYear_mono (y y' : Z) :
  y <= y' -> TimeFromYear y <= TimeFromYear y'.
Proof.
  intros H%DayFromYear_mono. unfold TimeFromYear, msPerDay. lia.
Qed.

Lemma yearFrom_spec (fuel : nat) (y top t : Z) :
  TimeFromYear y <= t < TimeFromYear top -> top - y <= Z.of_nat fuel ->
  TimeFromYear (yearFrom fuel y t) <= t
  < TimeFromYear (yearFrom fuel y t + 1).
Proof.
  revert y. induction fuel as [|fuel IH]; intros y Ht Hf.
  - pose proof (TimeFromYear_mono top y ltac:(lia)). lia.
  - cbn [yearFrom].
    destruct (Z.leb_spec (TimeFromYear (y + 1)) t) as [Hle|Hgt]; [|lia].
    apply IH; lia.
Qed.

(** [YearFromTime t] is the year ECMA-262 defines: the largest [y] with
    [TimeFromYear y <= t]. *)
Lemma YearFromTime_spec (t : Z) :
  TimeFromYear (YearFromTime t) <= t < TimeFromYear (YearFromTime t + 1).
Proof.
  unfold YearFromTime.
  apply (yearFrom_spec 400 _ (1970 + 400 * (Day t / 146097 + 1))); [|lia].
  unfold TimeFromYear. rewrite !DayFromYear_period.
  unfold Day, msPerDay. Z.div_mod_to_equations. lia.
Qed.

Lemma YearFromTime_largest (t y : Z) :
  TimeFromYear y <= t -> y <= YearFromTime t.
Proof.
  intros H. destruct (YearFromTime_spec t) as [_ Hlt].
  destruct (Z.le_gt_cases y (YearFromTime t)) as [|Hgt]; [done|].
  pose proof (TimeFromYear_mono (YearFromTime t + 1) y ltac:(lia)). lia.
Qed.

Lemma MonthFromTime_range (t : Z) : 0 <= MonthFromTime t <= 11.
Proof.
  unfold MonthFromTime. cbv zeta.
  repeat match goal with
         | |- context [if ?b then _ else _] => destruct b
         end; lia.
Qed.

(** [setDate] keeps the month: the day number moves from the date of [t]
    to the date asked for. *)
Lemma MakeDay_same_month (t : Z) (q : Q) :
  MakeDay (YearFromTime t) (MonthFromTime t) (Finite q)
  = Num (Day t - DateFromTime t + truncate q).
Proof.
  pose proof (MonthFromTime_range t) as Hm.
  unfold MakeDay, DateFromTime. cbv zeta.
  rewrite (Z.div_small (MonthFromTime t) 12),
    (Z.mod_small (MonthFromTime t) 12), Z.add_0_r by lia.
  unfold DayWithinYear, InLeapYear.
  revert Hm. generalize (MonthFromTime t) (leapDay (YearFromTime t))
    (DayFromYear (YearFromTime t)) (Day t) (truncate q).
  intros m leap first day dt Hm. f_equal.
  assert (m = 0 \/ m = 1 \/ m = 2 \/ m = 3 \/ m = 4 \/ m = 5 \/ m = 6
          \/ m = 7 \/ m = 8 \/ m = 9 \/ m = 10 \/ m = 11) as Hcases by lia.
  repeat (destruct Hcases as [->|Hcases]; [cbn; lia|]).
  rewrite Hcases. cbn. lia.
Qed.

Lemma truncate_whole (d n : Z) : truncate (inject_Z d + inject_Z n) = d + n.
Proof. unfold truncate. cbn. rewrite Z.quot_1_r. lia. Qed.

Section Zone.

Variable LocalTZA : Z -> bool -> Z.

Lemma setDate_Finite (t : Z) (q : Q) :
  setDate LocalTZA t (Finite q)
  = TimeClip
      (UTC LocalTZA
         (LocalTime LocalTZA t
          + (truncate q - DateFromTime (LocalTime LocalTZA t)) * msPerDay)).
Proof.
  unfold setDate. cbv zeta. rewrite MakeDay_same_month. cbn [MakeDate].
  do 2 f_equal. unfold Day, TimeWithinDay.
  pose proof (Z.div_mod (LocalTime LocalTZA t) msPerDay) as H.
  unfold msPerDay in *. lia.
Qed.


(** The threshold date, in general ... *)
Lemma thresholdDate_Finite (now now2 : Z) (q : Q) :
  thresholdDate LocalTZA now now2 (Finite q)
  = TimeClip (UTC LocalTZA (localLimit LocalTZA now now2 q)).
Proof. unfold thresholdDate. cbn [number_add]. by rewrite setDate_Finite. Qed.


(** ... and when both dates are created at the same instant, the
    threshold is a whole number of days and local time is as far from UTC
    at the threshold date as now. *)
Lemma thresholdDate_whole (now n : Z) :
  sameOffset LocalTZA now n -> representable (now + n * msPerDay) ->
  thresholdDate LocalTZA now now (Finite (inject_Z n))
  = Num (now + n * msPerDay).
Proof.
  intros Hz Hr. rewrite thresholdDate_Finite. unfold localLimit. cbv zeta.
  rewrite truncate_whole. unfold getDate.
  replace (LocalTime LocalTZA now
           + (DateFromTime (LocalTime LocalTZA now) + n
              - DateFromTime (LocalTime LocalTZA now)) * msPerDay)
    with (LocalTime LocalTZA now + n * msPerDay) by lia.
  unfold UTC. rewrite Hz. unfold LocalTime.
  replace (now + LocalTZA now true + n * msPerDay - LocalTZA now true)
    with (now + n * msPerDay) by lia.
  unfold TimeClip. unfold representable in Hr.
  destruct (Z.leb_spec (Z.abs (now + n * msPerDay)) maxTime); [done | lia].
Qed.

End Zone.

Variable Date_parse : string -> num.
Variable LocalTZA : Z -> bool -> Z.
Variable now : Z.

Lemma falsy_false (v : option string) :
  falsy v = false <-> exists e, v = Some e /\ e <> "".
Proof.
  destruct v as [e|]; simpl.
  - rewrite <- not_true_iff_false, String.eqb_eq. split.
    + intros H. by exists e.
    + by intros (? & [= <-] & ?).
  - split; [done | by intros (? & ? & ?)].
Qed.

Lemma isPro_true (p : Plan) : isPro p = true <-> p = pro.
Proof. by destruct p. Qed.

(** What the filter keeps. *)
Lemma isExpiring_spec (thresholdDate : num) (s : StudentWithSubscription) :
  isExpiring Date_parse now thresholdDate s = true <->
  exists sub rest e t,
    subscriptions s = sub :: rest /\ plan sub = pro
    /\ end_date sub = Some e /\ e <> "" /\ Date_parse e = Num t
    /\ now < t /\ num_le (Num t) thresholdDate = true.
Proof.
  unfold isExpiring. destruct (subscriptions s) as [|sub rest]; simpl.
  { split; [done | by intros (? & ? & ? & ? & ? & _)]. }
  destruct (isPro (plan sub)) eqn:Ep; simpl.
  2:{ split; [done|]. intros (? & ? & ? & ? & [= <- <-] & Hp & _).
      apply isPro_true in Hp. congruence. }
  apply isPro_true in Ep.
  destruct (falsy (end_date sub)) eqn:Ef.
  { split; [done|]. intros (? & ? & e & ? & [= <- <-] & _ & He & Hne & _).
    assert (falsy (end_date sub) = false); [|congruence].
    apply falsy_false. eauto. }
  apply falsy_false in Ef as (e & He & Hne). rewrite He. simpl.
  unfold num_gt. split.
  - intros [H1 H2]%andb_prop. destruct (Date_parse e) as [|t] eqn:Et; [done|].
    simpl in H1. exists sub, rest, e, t. repeat split; [done..|lia|done].
  - intros (? & ? & e' & t & [= <- <-] & _ & He' & _ & Ht & Hlt & Hle).
    rewrite He in He'. inversion He'; subst e'. rewrite Ht. simpl.
    apply andb_true_intro. split; [lia | done].
Qed.



(** On a student the filter keeps, the callback of [map] does not throw
    and computes a day count of at least one. *)
Lemma withDaysLeft_kept (thresholdDate : num) (s : StudentWithSubscription) :
  isExpiring Date_parse now thresholdDate s = true ->
  exists sub rest e t,
    subscriptions s = sub :: rest /\ end_date sub = Some e
    /\ Date_parse e = Num t /\ now < t
    /\ withDaysLeft Date_parse now s
       = Some {| student := s;
                 daysLeft := Num (ceilDiv (t - now) msPerDay);
                 endDate := Num t |}.
Proof.
  intros (sub & rest & e & t & Hs & _ & He & _ & Ht & Hlt & _)%isExpiring_spec.
  exists sub, rest, e, t. repeat split; try done.
  unfold withDaysLeft. rewrite Hs. simpl. rewrite He. simpl. by rewrite Ht.
Qed.

Lemma ceilDiv_positive (a : Z) : 0 < a -> 1 <= ceilDiv a msPerDay.
Proof.
  intros Ha. unfold ceilDiv.
  assert (- a / msPerDay < 0); [|lia].
  apply Z.div_lt_upper_bound; [done|]. unfold msPerDay. lia.
Qed.

End ExpiryFacts.

Section SortFacts.

Import Expiry ExpirySpec.

Lemma insertSorted_perm (x : ExpiringStudent) (l : list ExpiringStudent) :
  insertSorted x l ≡ₚ x :: l.
Proof.
  induction l as [|y l IH]; [done|]. simpl.
  destruct (isNegative (compareFn y x)); [|done].
  rewrite IH. apply Permutation_swap.
Qed.

Lemma sort_perm (l : list ExpiringStudent) : sort l ≡ₚ l.
Proof.
  induction l as [|x l IH]; [done|].
  unfold sort in *. simpl. rewrite insertSorted_perm. by constructor.
Qed.

Lemma isNegative_compareFn (x y : ExpiringStudent) (dx dy : Z) :
  daysLeft x = Num dx -> daysLeft y = Num dy ->
  isNegative (compareFn y x) = (dy <? dx).
Proof.
  intros Hx Hy. unfold isNegative, compareFn. rewrite Hx, Hy. simpl.
  destruct (Z.ltb_spec (dy - dx) 0), (Z.ltb_spec dy dx); done || lia.
Qed.

Lemma insertSorted_sorted (x : ExpiringStudent) (l : list ExpiringStudent) :
  counted x -> Forall counted l ->
  StronglySorted daysLeft_le l -> StronglySorted daysLeft_le (insertSorted x l).
Proof.
  intros [dx Hx] Hl Hs. induction Hs as [|y l Hs IH Hy].
  - repeat constructor.
  - inversion Hl as [|? ? [dy Hdy] Hl']; subst. simpl.
    rewrite (isNegative_compareFn x y dx dy) by done.
    destruct (Z.ltb_spec dy dx).
    + constructor; [by apply IH|].
      rewrite insertSorted_perm. constructor; [|done].
      unfold daysLeft_le. rewrite Hx, Hdy. simpl. lia.
    + constructor; [by constructor|]. constructor.
      * unfold daysLeft_le. rewrite Hx, Hdy. simpl. lia.
      * eapply Forall_impl; [exact Hy|]. intros z. unfold daysLeft_le.
        rewrite Hx, Hdy. destruct (daysLeft z); simpl; [done | lia].
Qed.

Lemma sort_sorted (l : list ExpiringStudent) :
  Forall counted l -> StronglySorted daysLeft_le (sort l).
Proof.
  induction 1 as [|x l Hx Hl IH]; [constructor|].
  unfold sort in *. simpl. apply insertSorted_sorted; [done| |done].
  fold (sort l). by rewrite sort_perm.
Qed.

(** The sort looks at the day counts only. *)
Lemma insertSorted_sameEntry (x y : ExpiringStudent)
    (l k : list ExpiringStudent) :
  sameEntry x y -> Forall2 sameEntry l k ->
  Forall2 sameEntry (insertSorted x l) (insertSorted y k).
Proof.
  intros Hxy.
  induction 1 as [|a b l k Hab Hlk IH]; [constructor; [done | constructor]|].
  simpl. unfold compareFn.
  pose proof Hxy as (_ & Hd & _). pose proof Hab as (_ & Hd' & _).
  rewrite Hd, Hd'.
  destruct (isNegative _).
  - by constructor.
  - constructor; [done|]. by constructor.
Qed.

Lemma sort_sameEntry (l k : list ExpiringStudent) :
  Forall2 sameEntry l k -> Forall2 sameEntry (sort l) (sort k).
Proof.
  induction 1; [constructor|]. unfold sort in *. simpl.
  by apply insertSorted_sameEntry.
Qed.

Lemma filter_sublist {A} (f : A -> bool) (l : list A) :
  List.filter f l `sublist_of` l.
Proof.
  induction l as [|x l IH]; [constructor|]. simpl.
  destruct (f x); by constructor.
Qed.


Lemma Forall2_elem_r {A B} (R : A -> B -> Prop) (l : list A) (k : list B)
    (y : B) :
  Forall2 R l k -> y ∈ k -> exists x, x ∈ l /\ R x y.
Proof.
  induction 1 as [|a b l k Hab _ IH]; intros Hy.
  - by apply elem_of_nil in Hy.
  - apply elem_of_cons in Hy as [->|Hy].
    + exists a. split; [left | done].
    + destruct (IH Hy) as (x & ? & ?). exists x. split; [by right | done].
Qed.

End SortFacts.

Section Pipeline.

Import Expiry ExpirySpec.

Variable Date_parse : string -> num.
Variable LocalTZA : Z -> bool -> Z.
Variables now now2 : Z.

(** The [map] after the [filter] never throws: the widget always has a
    derived list, the sorted list of the entries of the kept students. *)
Lemma expiringStudents_total (students : list StudentWithSubscription)
    (n : number) :
  exists entries,
    expiringStudents Date_parse LocalTZA now now2 students n
    = Some (sort entries)
    /\ Forall2 (entryOf Date_parse now (thresholdDate LocalTZA now now2 n))
         (List.filter
            (isExpiring Date_parse now (thresholdDate LocalTZA now now2 n))
            students) entries.
Proof.
  unfold expiringStudents. set (th := thresholdDate LocalTZA now now2 n).
  set (kept := List.filter (isExpiring Date_parse now th) students).
  assert (Forall (fun s => isExpiring Date_parse now th s = true) kept) as Hk.
  { apply Forall_forall. intros s Hs%list_elem_of_In.
    by apply List.filter_In in Hs as [_ ?]. }
  destruct (mapM_is_Some_2 (withDaysLeft Date_parse now) kept) as [es Hes].
  { eapply Forall_impl; [exact Hk|]. intros s Hs.
    destruct (withDaysLeft_kept Date_parse now th s Hs)
      as (? & ? & ? & ? & _ & _ & _ & _ & Heq).
    simpl. rewrite Heq. by eexists. }
  exists es. rewrite Hes. split; [done|].
  apply mapM_Some_1 in Hes. clear -Hes Hk.
  induction Hes; [constructor|]. inversion Hk; subst.
  constructor; [by split | auto].
Qed.

Lemma entryOf_shape (th : num) (s : StudentWithSubscription)
    (e : ExpiringStudent) :
  entryOf Date_parse now th s e ->
  student e = s
  /\ exists sub rest d t,
       subscriptions s = sub :: rest /\ plan sub = pro
       /\ end_date sub = Some d /\ Date_parse d = Num t /\ now < t
       /\ endDate e = Num t
       /\ daysLeft e = Num (ceilDiv (t - now) msPerDay).
Proof.
  intros [Hk He].
  pose proof Hk as (sub & rest & d & t & Hs & Hp & Hd & _ & Ht & Hlt & _)%isExpiring_spec.
  destruct (withDaysLeft_kept Date_parse now th s Hk)
    as (sub' & rest' & d' & t' & Hs' & Hd' & Ht' & _ & He').
  rewrite He in He'. inversion He'; subst e. simpl.
  rewrite Hs in Hs'. inversion Hs'; subst sub' rest'.
  rewrite Hd in Hd'. inversion Hd'; subst d'.
  rewrite Ht in Ht'. inversion Ht'; subst t'.
  split; [done|]. by exists sub, rest, d, t.
Qed.

End Pipeline.

Section ExpiryClaims.

Import Expiry ExpirySpec.










(** C10: every entry of the derived list has a day count of at least one,
    so the critical band, guarded by days-left <= 1 in the badge and in the
    colour, holds exactly for a day count of one. *)
Theorem daysLeft_at_least_one :
  forall (Date_parse : string -> num) (LocalTZA : Z -> bool -> Z)
         (now now2 : Z) (students : list StudentWithSubscription)
         (n : number),
  exists out,
    expiringStudents Date_parse LocalTZA now now2 students n = Some out
    /\ forall e, e ∈ out ->
         exists d, daysLeft e = Num d /\ 1 <= d
           /\ (num_le (daysLeft e) (Num 1) = true <-> d = 1)
           /\ (getUrgencyBadge (daysLeft e) = ("Tomorrow!", destructive)
               <-> d = 1)
           /\ (getUrgencyColor (daysLeft e)
               = "text-destructive bg-destructive/10 border-destructive/30"
               <-> d = 1).
Proof.
  intros Date_parse LocalTZA now now2 students n.
  destruct (expiringStudents_total Date_parse LocalTZA now now2 students n)
    as (entries & Hout & Hent).
  exists (sort entries). split; [done|].
  intros e He. rewrite sort_perm in He.
  destruct (Forall2_elem_r _ _ _ _ Hent He) as (s & Hs & Hse).
  destruct (entryOf_shape _ _ _ _ _ Hse)
    as (_ & sub & rest & d & t & _ & _ & _ & _ & Hlt & _ & Hd).
  exists (ceilDiv (t - now) msPerDay).
  pose proof (ceilDiv_positive (t - now) ltac:(lia)) as Hpos.
  rewrite Hd. split; [done|]. split; [done|].
  unfold getUrgencyBadge, getUrgencyColor. cbn [num_le].
  destruct (Z.leb_spec (ceilDiv (t - now) msPerDay) 1) as [Hle|Hgt].
  - repeat split; intros; try done; lia.
  - destruct (ceilDiv (t - now) msPerDay <=? 3);
      repeat split; intros; try lia; try discriminate.
Qed.

Lemma daysLeft_at_least_one_witness :
  exists out e,
    expiringStudents sampleDates (fixedZone 0) 1740787200000 1740787200000
      [subscribed "a" pro (Some "2025-03-01T12:00:00Z")] (Finite 7)
    = Some out
    /\ e ∈ out /\ daysLeft e = Num 1
    /\ getUrgencyBadge (daysLeft e) = ("Tomorrow!", destructive).
Proof.
  destruct (daysLeft_at_least_one sampleDates (fixedZone 0) 1740787200000
              1740787200000
              [subscribed "a" pro (Some "2025-03-01T12:00:00Z")] (Finite 7))
    as (out & Hout & Hall).
  pose proof Hout as Hval. vm_compute in Hval. inversion Hval as [Hval'].
  set (e := {| student := subscribed "a" pro (Some "2025-03-01T12:00:00Z");
               daysLeft := Num 1; endDate := Num 1740830400000 |}).
  assert (e ∈ out) as He by (rewrite <- Hval'; left).
  destruct (Hall e He) as (d & Hd & _ & _ & Hb & _).
  exists out, e. split; [done|]. split; [done|]. split; [done|].
  apply Hb. cbn in Hd. by inversion Hd.
Defined.

(** C9, as stated: two inputs that agree on the identity fields and on the
    first subscription of every student give identical derived lists.  The
    entries spread the whole student, so they carry the later subscriptions
    along, and the lists differ there. *)
Lemma expiringStudents_carry_later_subscriptions :
  ~ (forall (Date_parse : string -> num) (LocalTZA : Z -> bool -> Z)
            (now now2 : Z) (n : number)
            (l1 l2 : list StudentWithSubscription),
       Forall2 agree l1 l2 ->
       expiringStudents Date_parse LocalTZA now now2 l1 n
       = expiringStudents Date_parse LocalTZA now now2 l2 n).
Proof.
  intros H.
  set (first := {| plan := pro; tts_used := 0; tts_limit := 150;
                   start_date := "2025-01-01";
                   end_date := Some "2025-03-03T00:00:00Z";
                   is_active := true |}).
  set (later := {| plan := basic; tts_used := 0; tts_limit := 30;
                   start_date := "2024-01-01"; end_date := None;
                   is_active := false |}).
  set (a := {| id := "a"; full_name := "Asha"; class := "5";
               photo_url := None; subscriptions := [first] |}).
  set (b := {| id := "a"; full_name := "Asha"; class := "5";
               photo_url := None; subscriptions := [first; later] |}).
  specialize (H sampleDates (fixedZone 0) 1740787200000 1740787200000
                (Finite 7) [a] [b]).
  assert (Forall2 agree [a] [b]) as Hab
    by (constructor; [by repeat split | constructor]).
  specialize (H Hab). vm_compute in H. discriminate H.
Qed.

Lemma isExpiring_agree (Date_parse : string -> num) (now : Z) (th : num)
    (a b : StudentWithSubscription) :
  agree a b ->
  isExpiring Date_parse now th a = isExpiring Date_parse now th b.
Proof. intros (_ & _ & _ & _ & H). unfold isExpiring. by rewrite H. Qed.

Lemma filter_agree (f : StudentWithSubscription -> bool)
    (l1 l2 : list StudentWithSubscription) :
  (forall a b, agree a b -> f a = f b) ->
  Forall2 agree l1 l2 -> Forall2 agree (List.filter f l1) (List.filter f l2).
Proof.
  intros Hf. induction 1 as [|a b l1 l2 Hab _ IH]; [constructor|].
  simpl. rewrite (Hf a b Hab). destruct (f b); [by constructor | done].
Qed.

Lemma withDaysLeft_agree (Date_parse : string -> num) (now : Z)
    (a b : StudentWithSubscription) (ea eb : ExpiringStudent) :
  agree a b ->
  withDaysLeft Date_parse now a = Some ea ->
  withDaysLeft Date_parse now b = Some eb ->
  sameEntry ea eb.
Proof.
  intros Hab. pose proof Hab as (_ & _ & _ & _ & H).
  unfold withDaysLeft. rewrite H.
  destruct (head (subscriptions b)); [|done].
  intros [= <-] [= <-]. split; [exact Hab | by split].
Qed.

(** C9, amended: two inputs that agree on the identity fields and on the
    first subscription of every student give derived lists that are
    identical in everything but the subscriptions after the first, which
    each entry carries over from its own student: the same identity fields,
    first subscription, days left and end date, entry by entry; and the
    first subscription of every listed student is a pro plan with an end
    date after now, whatever the later ones are. *)
Theorem expiringStudents_first_subscription_only :
  forall (Date_parse : string -> num) (LocalTZA : Z -> bool -> Z)
         (now now2 : Z) (n : number)
         (l1 l2 : list StudentWithSubscription),
  Forall2 agree l1 l2 ->
  exists out1 out2,
    expiringStudents Date_parse LocalTZA now now2 l1 n = Some out1
    /\ expiringStudents Date_parse LocalTZA now now2 l2 n = Some out2
    /\ Forall2 sameEntry out1 out2
    /\ observed <$> out1 = observed <$> out2
    /\ forall e, e ∈ out1 ->
         exists sub rest d t,
           subscriptions (student e) = sub :: rest /\ plan sub = pro
           /\ end_date sub = Some d /\ Date_parse d = Num t /\ now < t.
Proof.
  intros Date_parse LocalTZA now now2 n l1 l2 Hl.
  destruct (expiringStudents_total Date_parse LocalTZA now now2 l1 n)
    as (es1 & Hout1 & Hent1).
  destruct (expiringStudents_total Date_parse LocalTZA now now2 l2 n)
    as (es2 & Hout2 & Hent2).
  exists (sort es1), (sort es2). split; [done|]. split; [done|].
  assert (Forall2 sameEntry (sort es1) (sort es2)) as Hsame; [|split; [done|split]].
  - apply sort_sameEntry.
    set (th := thresholdDate LocalTZA now now2 n) in *.
    pose proof (filter_agree (isExpiring Date_parse now th) l1 l2
                  (isExpiring_agree Date_parse now th) Hl) as Hk.
    clear Hout1 Hout2.
    set (k1 := List.filter (isExpiring Date_parse now th) l1) in *.
    set (k2 := List.filter (isExpiring Date_parse now th) l2) in *.
    clearbody k1 k2. revert es1 es2 Hent1 Hent2.
    induction Hk as [|a b k1 k2 Hab _ IH]; intros es1 es2 H1 H2.
    + inversion H1; inversion H2; constructor.
    + inversion H1 as [|? ea ? es1' [_ Ha] H1']; subst.
      inversion H2 as [|? eb ? es2' [_ Hb] H2']; subst.
      constructor; [by eapply withDaysLeft_agree|].
      by eapply IH.
  - clear -Hsame. induction Hsame as [|a b k1 k2 Hab _ IH]; [done|].
    rewrite !fmap_cons, IH. f_equal.
    destruct Hab as ((Hi & Hn & Hc & Hp & Hh) & Hd & He).
    unfold observed. by rewrite Hi, Hn, Hc, Hp, Hh, Hd, He.
  - intros e He. rewrite sort_perm in He.
    destruct (Forall2_elem_r _ _ _ _ Hent1 He) as (s & Hs & Hse).
    destruct (entryOf_shape _ _ _ _ _ Hse)
      as (-> & sub & rest & d & t & ? & ? & ? & ? & ? & _).
    by exists sub, rest, d, t.
Qed.

Lemma expiringStudents_first_subscription_only_witness :
  let first := {| plan := pro; tts_used := 0; tts_limit := 150;
                  start_date := "2025-01-01";
                  end_date := Some "2025-03-03T00:00:00Z";
                  is_active := true |} in
  let later := {| plan := basic; tts_used := 0; tts_limit := 30;
                  start_date := "2024-01-01"; end_date := None;
                  is_active := false |} in
  let a := {| id := "a"; full_name := "Asha"; class := "5";
              photo_url := None; subscriptions := [first] |} in
  let b := {| id := "a"; full_name := "Asha"; class := "5";
              photo_url := None; subscriptions := [first; later] |} in
  exists out1 out2,
    expiringStudents sampleDates (fixedZone 0) 1740787200000 1740787200000
      [a] (Finite 7) = Some out1
    /\ expiringStudents sampleDates (fixedZone 0) 1740787200000
         1740787200000 [b] (Finite 7) = Some out2
    /\ observed <$> out1 = observed <$> out2.
Proof.
  intros first later a b.
  assert (Forall2 agree [a] [b]) as Hab
    by (constructor; [by repeat split | constructor]).
  destruct (expiringStudents_first_subscription_only
              sampleDates (fixedZone 0) 1740787200000 1740787200000
              (Finite 7) [a] [b] Hab)
    as (out1 & out2 & H1 & H2 & _ & H & _).
  exists out1, out2. split; [exact H1|]. split; [exact H2 | exact H].
Defined.

End ExpiryClaims.

(** ** Speech controller *)

Section SpeechFacts.

Import Speech SpeechSpec.

Local Arguments sanitizeText : simpl never.

Lemma inScope_Some (i : nat) (enabled : Session -> bool) (body : M unit)
    (h h' : Hook) :
  inScope i enabled body h = Some h' ->
  exists s, sessions h !! i = Some s /\ enabled s = true
    /\ isSupported h' = isSupported h
    /\ availableVoices h' = availableVoices h
    /\ shared h' = (finalScope (body (s, shared h))).2
    /\ sessions h' = <[i := (finalScope (body (s, shared h))).1]> (sessions h).
Proof.
  unfold inScope. destruct (sessions h !! i) as [s|]; [|done].
  destruct (enabled s) eqn:E; [|done]. intros [= <-]. exists s.
  by repeat split.
Qed.

(** *** The effect of each callback on its scope *)

Ltac session_ok :=
  unfold sessionOK; cbn; repeat split; intros; try done; try congruence;
  eauto.

Lemma executor_scope (i : nat) (supported : bool) (o : TTSOptions)
    (cv : list Voices.SpeechSynthesisVoice) (sh : Shared) :
  let s' := finalScope (newPromise (executor i supported) (newSession o cv, sh)) in
  sessionOK supported s'.1
  /\ isSpeaking s'.2 = isSpeaking sh
  /\ (exists new, calls s'.2 = new ++ calls sh
        /\ forall j, Forall (fun c => keepAliveCall j c = false) new)
  /\ (supported = false -> promise s'.1 = Fulfilled)
  /\ (sanitizeText (text o) = [] -> promise s'.1 = Fulfilled)
  /\ promise s'.1 <> Rejected.
Proof.
  cbv zeta. unfold newPromise, executor, tryCatch.
  destruct supported; cbn.
  - destruct (sanitizeText (text o)) eqn:E; cbn.
    + split; [session_ok|]. split; [done|]. split; [by exists []|]. done.
    + split; [session_ok|]. split; [done|]. split; [|done].
      exists [Cancel (Some i)]. split; [done|].
      intros j. by repeat constructor.
  - split; [session_ok|]. split; [done|]. split; [by exists []|]. done.
Qed.


Lemma continuation_scope (i : nat) (p : Platform) (supported : bool)
    (s : Session) (sh : Shared) :
  sessionOK supported s -> armed (timeout s) = true ->
  let s' := finalScope
              (bind (setSession (withTimeout Fired))
                 (fun _ => continuation i p) (s, sh)) in
  sessionOK supported s'.1
  /\ (forall t, throws p = Some t ->
        promise s'.1 = Fulfilled /\ isSpeaking s'.2 = false)
  /\ (throws p = None -> promise s'.1 = promise s)
  /\ (exists new, calls s'.2 = new ++ calls sh
        /\ forall j, Forall (fun c => keepAliveCall j c = false) new).
Proof.
  intros (H1 & H2 & H3 & H4 & H5) Ha. cbv zeta.
  assert (supported = true) as ->.
  { destruct supported; [done|]. destruct (H5 eq_refl) as [Ht _].
    rewrite Ht in Ha. done. }
  assert (timeout s = Armed) as Ht by (by destruct (timeout s)).
  assert (queued s = false) as Hq.
  { destruct (queued s); [|done]. destruct (H2 eq_refl) as [? _]. congruence. }
  assert (resumeInterval s = NotSet) as Hr.
  { destruct (resumeInterval s); [done|..]; exfalso;
      (assert (timeout s = Fired) as HF by (by apply H3)); congruence. }
  destruct s as [o cv pr ct to ut q ri]. cbn in *. subst.
  unfold continuation, tryCatch, bind, throwWhen, throwsAt.
  destruct p as [gv [[]|]]; cbn.
  - split; [by destruct pr; session_ok|].
    split; [intros t _; by destruct pr|]. split; [done|].
    exists []. split; [done|]. by intros j.
  - split; [by destruct pr; session_ok|].
    split; [intros t _; by destruct pr|]. split; [done|].
    exists []. split; [done|]. by intros j.
  - destruct (Voices.getBestVoice cv gv); cbn;
      (split; [by destruct pr; session_ok|]);
      (split; [intros t _; by destruct pr|]); (split; [done|]);
      exists []; (split; [done|]); by intros j.
  - destruct (Voices.getBestVoice cv gv); cbn;
      (split; [by destruct pr; session_ok|]);
      (split; [done|]); (split; [done|]);
      exists [Speak i]; (split; [done|]); intros j; by repeat constructor.
Qed.

Lemma keepAlive_scope (i : nat) (speaking supported : bool)
    (s : Session) (sh : Shared) :
  sessionOK supported s -> armed (resumeInterval s) = true ->
  let s' := finalScope (keepAlive i speaking (s, sh)) in
  sessionOK supported s'.1
  /\ promise s'.1 = promise s
  /\ isSpeaking s'.2 = isSpeaking sh
  /\ timeout s'.1 = timeout s
  /\ (speaking = false -> resumeInterval s'.1 = Cleared)
  /\ (exists new, calls s'.2 = new ++ calls sh
        /\ forall j, j <> i ->
             Forall (fun c => keepAliveCall j c = false) new).
Proof.
  intros Hok Ha. pose proof Hok as (H1 & H2 & H3 & H4 & H5). cbv zeta.
  assert (resumeInterval s = Armed) as Hr by (by destruct (resumeInterval s)).
  destruct s as [o cv pr ct to ut q ri]. cbn in *. subst.
  unfold keepAlive. destruct speaking; cbn.
  - split; [exact Hok|]. repeat (split; [done|]).
    exists [Resume i; Pause i]. split; [done|].
    intros j Hj. repeat constructor; cbn; by apply Nat.eqb_neq.
  - split.
    { unfold sessionOK; cbn. split; [done|]. split.
      - intros Hq. destruct (H2 Hq) as (? & ? & ?). by repeat split.
      - split; [intros _; by apply H3|]. split; [done|]. done. }
    repeat (split; [done|]). exists []. split; [done|]. by intros j.
Qed.

Lemma handler_scope (supported : bool) (s : Session) (sh : Shared)
    (body : M unit) :
  body = runOnend \/ body = runOnerror ->
  sessionOK supported s -> queued s = true ->
  let s' := finalScope (body (s, sh)) in
  sessionOK supported s'.1
  /\ promise s'.1 = Fulfilled
  /\ isSpeaking s'.2 = false
  /\ resumeInterval s'.1 = Cleared /\ timeout s'.1 = Fired
  /\ calls s'.2 = calls sh.
Proof.
  intros Hb (H1 & H2 & H3 & H4 & H5) Hq. cbv zeta.
  destruct (H2 Hq) as (Ht & Hr & u & Hu & He & Hx).
  assert (supported = true) as ->.
  { destruct supported; [done|]. destruct (H5 eq_refl) as [_ ?]. congruence. }
  destruct s as [o cv pr ct to ut q ri]. cbn in *. subst.
  destruct u as [ut uv ul ur up uvol os oe ox]. cbn in *. subst.
  destruct Hb as [-> | ->]; unfold runOnend, runOnerror; cbn;
    destruct pr, ri; try done; cbn;
    (split; [session_ok|]); by repeat split.
Qed.

Lemma onstart_scope (s : Session) (sh : Shared) :
  let s' := finalScope (runOnstart (s, sh)) in
  s'.1 = s /\ calls s'.2 = calls sh.
Proof.
  cbv zeta. unfold runOnstart. cbn.
  destruct (utterance s) as [u|]; [destruct (onstart u)|]; done.
Qed.


(** *** The invariant of the event loop *)

Lemma sessionOK_supported (supported : bool) (s : Session) :
  sessionOK supported s -> sessionOK true s.
Proof.
  intros (H1 & H2 & H3 & H4 & _). do 4 (split; [done|]). by intros [=].
Qed.

Lemma inScope_frame (i : nat) (enabled : Session -> bool) (body : M unit)
    (h h' : Hook) (j : nat) (s' : Session) :
  inScope i enabled body h = Some h' -> sessions h' !! j = Some s' ->
  (j <> i /\ sessions h !! j = Some s')
  \/ (j = i /\ exists s, sessions h !! i = Some s /\ enabled s = true
                 /\ s' = (finalScope (body (s, shared h))).1).
Proof.
  intros (s & Hs & He & _ & _ & _ & Hss)%inScope_Some. rewrite Hss.
  intros [[-> [<- _]]|[? ?]]%list_lookup_insert_Some; [|by left].
  right. split; [done|]. by exists s.
Qed.

Lemma inScope_hookOK (i : nat) (enabled : Session -> bool) (body : M unit)
    (h h' : Hook) :
  hookOK h -> inScope i enabled body h = Some h' ->
  (forall s, sessions h !! i = Some s -> enabled s = true ->
     sessionOK (isSupported h) (finalScope (body (s, shared h))).1
     /\ (isSupported h = false ->
         isSpeaking (finalScope (body (s, shared h))).2 = false)) ->
  hookOK h'.
Proof.
  intros [Hs Hf] Hstep Hbody.
  pose proof (inScope_Some _ _ _ _ _ Hstep)
    as (s & Hl & He & Hsup & _ & Hsh & _).
  destruct (Hbody s Hl He) as [Hok Hflag].
  split.
  - intros j s' Hj. rewrite Hsup.
    destruct (inScope_frame _ _ _ _ _ _ _ Hstep Hj)
      as [[_ Hj']|(-> & s0 & Hl0 & _ & ->)]; [by eapply Hs|].
    rewrite Hl in Hl0. by inversion Hl0; subst.
  - rewrite Hsup, Hsh. exact Hflag.
Qed.

Lemma step_hookOK (h h' : Hook) (e : Event) :
  hookOK h -> step h e = Some h' -> hookOK h'.
Proof.
  intros Hok Hstep. pose proof Hok as [Hs Hf].
  destruct e as [has vs| |vs|o| |i p|i sp|i|i|i]; cbn [step] in Hstep.
  - destruct has; [|by inversion Hstep; subst]. inversion Hstep; subst.
    unfold loadVoices. destruct (0 <? length vs)%nat; cbn;
      (split; [|done]); intros j s Hj; cbn in *;
      eapply sessionOK_supported; by eapply Hs.
  - inversion Hstep; subst. split; [exact Hs | exact Hf].
  - inversion Hstep; subst. unfold loadVoices.
    by destruct (0 <? length vs)%nat.
  - eapply inScope_hookOK; [|exact Hstep|].
    + split; [|exact Hf]. cbn. intros j s Hj.
      apply lookup_app_Some in Hj as [Hj|[_ Hj]]; [by eapply Hs|].
      apply list_lookup_singleton_Some in Hj as [_ <-].
      unfold sessionOK, newSession; cbn. repeat split; intros; done.
    + cbn. intros s Hl _.
      rewrite lookup_app_r, Nat.sub_diag in Hl by done.
      inversion Hl; subst s.
      destruct (executor_scope (length (sessions h)) (isSupported h) o
                  (availableVoices h) (shared h)) as (H1 & H2 & _).
      split; [exact H1|]. rewrite H2. exact Hf.
  - inversion Hstep; subst. split; [exact Hs | done].
  - eapply inScope_hookOK; [exact Hok|exact Hstep|].
    intros s Hl Ha. cbn beta in Ha. specialize (Hs _ _ Hl).
    destruct (continuation_scope i p _ s (shared h) Hs Ha) as (H1 & _).
    split; [exact H1|]. intros Hsup. rewrite Hsup in Hs.
    destruct Hs as (_ & _ & _ & _ & H5). destruct (H5 eq_refl) as [Ht _].
    rewrite Ht in Ha. done.
  - eapply inScope_hookOK; [exact Hok|exact Hstep|].
    intros s Hl Ha. cbn beta in Ha. specialize (Hs _ _ Hl).
    destruct (keepAlive_scope i sp _ s (shared h) Hs Ha) as (H1 & _ & H3 & _).
    split; [exact H1|]. rewrite H3. exact Hf.
  - eapply inScope_hookOK; [exact Hok|exact Hstep|].
    intros s Hl Hq. specialize (Hs _ _ Hl).
    destruct (onstart_scope s (shared h)) as [-> _].
    split; [exact Hs|]. intros Hsup. rewrite Hsup in Hs.
    destruct Hs as (_ & _ & _ & _ & H5). destruct (H5 eq_refl) as [_ ?].
    congruence.
  - eapply inScope_hookOK; [exact Hok|exact Hstep|].
    intros s Hl Hq. specialize (Hs _ _ Hl).
    destruct (handler_scope _ s (shared h) runOnend (or_introl eq_refl) Hs Hq)
      as (H1 & _ & H3 & _).
    by split.
  - eapply inScope_hookOK; [exact Hok|exact Hstep|].
    intros s Hl Hq. specialize (Hs _ _ Hl).
    destruct (handler_scope _ s (shared h) runOnerror (or_intror eq_refl) Hs Hq)
      as (H1 & _ & H3 & _).
    by split.
Qed.

Lemma run_hookOK (es : list Event) (h h' : Hook) :
  hookOK h -> run h es = Some h' -> hookOK h'.
Proof.
  revert h. induction es as [|e es IH]; intros h Hok; cbn [run].
  - by intros [= <-].
  - destruct (step h e) as [h1|] eqn:E; [|done].
    apply IH. by eapply step_hookOK.
Qed.

Lemma reachable_hookOK (h : Hook) : reachable h -> hookOK h.
Proof.
  intros [es Hes]. eapply run_hookOK; [|exact Hes].
  split; [|done]. intros i s Hi. cbn in Hi. by destruct i.
Qed.

End SpeechFacts.

Section SpeechClaims.

Import Speech SpeechSpec.

Local Arguments sanitizeText : simpl never.

(** A call of [speak] always returns: it opens a scope for the call and
    runs the executor in it. *)
Lemma callSpeak_step (h : Hook) (o : TTSOptions) :
  let i := length (sessions h) in
  let s' := finalScope (newPromise (executor i (isSupported h))
                          (newSession o (availableVoices h), shared h)) in
  exists h', step h (CallSpeak o) = Some h'
    /\ sessions h' = sessions h ++ [s'.1]
    /\ shared h' = s'.2
    /\ isSupported h' = isSupported h.
Proof.
  cbv zeta. cbn [step]. unfold inScope. cbn [sessions shared].
  rewrite lookup_app_r, Nat.sub_diag by done. cbn [lookup list_lookup].
  eexists. split; [reflexivity|]. cbn [sessions shared isSupported].
  split; [|done].
  rewrite insert_app_r_alt, Nat.sub_diag by done. done.
Qed.

Lemma promiseOf_inScope (i : nat) (enabled : Session -> bool) (body : M unit)
    (h h' : Hook) (j : nat) :
  inScope i enabled body h = Some h' ->
  (j <> i /\ promiseOf h' j = promiseOf h j)
  \/ (j = i /\ exists s, sessions h !! i = Some s /\ enabled s = true
        /\ promiseOf h' j
           = Some (promise (finalScope (body (s, shared h))).1)).
Proof.
  intros (s & Hs & He & _ & _ & _ & Hss)%inScope_Some.
  unfold promiseOf. rewrite Hss.
  destruct (decide (j = i)) as [->|Hne].
  - right. split; [done|]. exists s. split; [done|]. split; [done|].
    rewrite list_lookup_insert_eq; [done|]. by eapply lookup_lt_Some.
  - left. split; [done|]. by rewrite list_lookup_insert_ne.
Qed.

(** C3: the promise of a [speak] call is never rejected, and it is
    resolved at once on an unsupported platform and on a text that is
    empty after sanitization, by the continuation when constructing or
    starting the utterance throws, and by the end and error events of the
    utterance. *)
Theorem speak_promise_resolves :
  (forall h, reachable h ->
     forall i s, sessions h !! i = Some s -> promise s <> Rejected)
  /\ (forall h o, exists h',
        step h (CallSpeak o) = Some h'
        /\ (promiseOf h' (length (sessions h)) = Some Pending
            \/ promiseOf h' (length (sessions h)) = Some Fulfilled)
        /\ (isSupported h = false ->
            promiseOf h' (length (sessions h)) = Some Fulfilled)
        /\ (sanitizeText (text o) = [] ->
            promiseOf h' (length (sessions h)) = Some Fulfilled))
  /\ (forall h h' i p t, reachable h ->
        step h (TimeoutFires i p) = Some h' -> throws p = Some t ->
        promiseOf h' i = Some Fulfilled)
  /\ (forall h h' i, reachable h ->
        step h (UtteranceError i) = Some h' ->
        promiseOf h' i = Some Fulfilled)
  /\ (forall h h' i, reachable h ->
        step h (UtteranceEnd i) = Some h' ->
        promiseOf h' i = Some Fulfilled).
Proof.
  split; [|split; [|split; [|split]]].
  - intros h [Hs _]%reachable_hookOK i s Hi. by destruct (Hs i s Hi).
  - intros h o. destruct (callSpeak_step h o) as (h' & Hstep & Hss & _).
    exists h'. split; [done|]. unfold promiseOf. rewrite Hss.
    rewrite lookup_app_r, Nat.sub_diag by done. cbn [lookup list_lookup fmap option_fmap option_map].
    destruct (executor_scope (length (sessions h)) (isSupported h) o
                (availableVoices h) (shared h)) as (_ & _ & _ & H4 & H5 & H6).
    split; [|split].
    + destruct (promise _); [by left | by right | done].
    + intros Hu. by rewrite (H4 Hu).
    + intros Hu. by rewrite (H5 Hu).
  - intros h h' i p t [Hs _]%reachable_hookOK Hstep Ht. cbn [step] in Hstep.
    destruct (promiseOf_inScope _ _ _ _ _ i Hstep)
      as [[? _]|(_ & s & Hl & Ha & ->)]; [done|].
    cbn beta in Ha.
    destruct (continuation_scope i p _ s (shared h) (Hs _ _ Hl) Ha)
      as (_ & H2 & _).
    by destruct (H2 t Ht) as [-> _].
  - intros h h' i [Hs _]%reachable_hookOK Hstep. cbn [step] in Hstep.
    destruct (promiseOf_inScope _ _ _ _ _ i Hstep)
      as [[? _]|(_ & s & Hl & Hq & ->)]; [done|].
    destruct (handler_scope _ s (shared h) runOnerror (or_intror eq_refl)
                (Hs _ _ Hl) Hq) as (_ & -> & _).
    done.
  - intros h h' i [Hs _]%reachable_hookOK Hstep. cbn [step] in Hstep.
    destruct (promiseOf_inScope _ _ _ _ _ i Hstep)
      as [[? _]|(_ & s & Hl & Hq & ->)]; [done|].
    destruct (handler_scope _ s (shared h) runOnend (or_introl eq_refl)
                (Hs _ _ Hl) Hq) as (_ & -> & _).
    done.
Qed.


Lemma speak_promise_resolves_witness :
  exists h h',
    run initial [Mounted true []; CallSpeak hello] = Some h
    /\ step h (TimeoutFires 0 failingPlatform) = Some h'
    /\ promiseOf h' 0 = Some Fulfilled.
Proof.
  destruct speak_promise_resolves as (_ & _ & H & _).
  destruct (run initial [Mounted true []; CallSpeak hello]) as [h|] eqn:Eh;
    [|vm_compute in Eh; discriminate Eh].
  destruct (step h (TimeoutFires 0 failingPlatform)) as [h'|] eqn:Eh';
    [|vm_compute in Eh; inversion Eh; subst h; vm_compute in Eh';
      discriminate Eh'].
  exists h, h'. split; [done|]. split; [done|].
  apply (H h h' 0%nat failingPlatform AtSpeak);
    [by exists [Mounted true []; CallSpeak hello] | done | done].
Defined.

(** C6, as stated: whenever the promise of a [speak] call resolves, the
    is-speaking flag is false.  It fails for a call with a blank text made
    while an utterance is being spoken: the call resolves at once and
    leaves the flag as it is. *)
Lemma blank_speak_resolves_while_speaking :
  ~ (forall h e h' i, reachable h -> step h e = Some h' ->
       resolvesIn h h' i -> isSpeaking (shared h') = false).
Proof.
  intros H.
  destruct (run initial [Mounted true []; CallSpeak hello;
                         TimeoutFires 0 quietPlatform]) as [h|] eqn:Eh;
    [|vm_compute in Eh; discriminate Eh].
  destruct (step h (CallSpeak blank)) as [h'|] eqn:Eh';
    [|vm_compute in Eh; inversion Eh; subst h; vm_compute in Eh';
      discriminate Eh'].
  specialize (H h (CallSpeak blank) h' 1%nat
                (ex_intro _ _ Eh) Eh').
  vm_compute in Eh. inversion Eh; subst h. clear Eh.
  vm_compute in Eh'. inversion Eh'; subst h'. clear Eh'.
  assert (isSpeaking
            {| isSpeaking := true; utteranceRef := Some 0%nat;
               calls := [Speak 0; Cancel (Some 0%nat)] |} = false) as Hf;
    [|discriminate Hf].
  apply H. split; vm_compute; [discriminate | reflexivity].
Qed.

(** C6, amended: when the promise of a [speak] call resolves through the
    end or error event of its utterance or through the exception path of
    its continuation, the is-speaking flag is false; a call that resolves
    at once (unsupported platform, or text empty after sanitization)
    leaves the flag as it was, and on an unsupported platform that is
    false. *)
Theorem resolved_promise_flag :
  forall h e h' i,
    reachable h -> step h e = Some h' -> resolvesIn h h' i ->
    match e with
    | CallSpeak _ =>
        isSpeaking (shared h') = isSpeaking (shared h)
        /\ (isSupported h = false -> isSpeaking (shared h') = false)
    | _ => isSpeaking (shared h') = false
    end.
Proof.
  intros h e h' i Hr Hstep [Hpre Hpost].
  pose proof (reachable_hookOK h Hr) as [Hs Hf].
  destruct e as [has vs| |vs|o| |j p|j sp|j|j|j]; cbn [step] in Hstep.
  - exfalso. apply Hpre. rewrite <- Hpost. unfold promiseOf.
    destruct has; inversion Hstep; subst; [|done].
    unfold loadVoices. by destruct (0 <? length vs)%nat.
  - exfalso. apply Hpre. rewrite <- Hpost. by inversion Hstep; subst.
  - exfalso. apply Hpre. rewrite <- Hpost. unfold promiseOf.
    inversion Hstep; subst. unfold loadVoices.
    by destruct (0 <? length vs)%nat.
  - destruct (callSpeak_step h o) as (h1 & Hstep1 & _ & Hsh & _).
    cbn [step] in Hstep1. rewrite Hstep in Hstep1.
    inversion Hstep1; subst h1. rewrite Hsh.
    destruct (executor_scope (length (sessions h)) (isSupported h) o
                (availableVoices h) (shared h)) as (_ & H2 & _).
    rewrite H2. split; [done | exact Hf].
  - by inversion Hstep; subst.
  - destruct (promiseOf_inScope _ _ _ _ _ i Hstep)
      as [[_ Heq]|(-> & s & Hl & Ha & Heq)]; [congruence|].
    cbn beta in Ha.
    pose proof (inScope_Some _ _ _ _ _ Hstep)
      as (s0 & Hl0 & _ & _ & _ & Hsh & _).
    rewrite Hl in Hl0. inversion Hl0; subst s0. rewrite Hsh.
    destruct (continuation_scope j p _ s (shared h) (Hs _ _ Hl) Ha)
      as (_ & H2 & H3 & _).
    destruct (throws p) as [t|] eqn:Et; [by destruct (H2 t eq_refl)|].
    exfalso. apply Hpre. unfold promiseOf. rewrite Hl. cbn.
    rewrite <- (H3 eq_refl). congruence.
  - exfalso.
    destruct (promiseOf_inScope _ _ _ _ _ i Hstep)
      as [[_ Heq]|(-> & s & Hl & Ha & Heq)]; [congruence|].
    cbn beta in Ha.
    destruct (keepAlive_scope j sp _ s (shared h) (Hs _ _ Hl) Ha)
      as (_ & H2 & _).
    apply Hpre. unfold promiseOf. rewrite Hl. cbn. congruence.
  - exfalso.
    destruct (promiseOf_inScope _ _ _ _ _ i Hstep)
      as [[_ Heq]|(-> & s & Hl & Ha & Heq)]; [congruence|].
    destruct (onstart_scope s (shared h)) as [H1 _].
    apply Hpre. unfold promiseOf. rewrite Hl. cbn. congruence.
  - pose proof (inScope_Some _ _ _ _ _ Hstep)
      as (s & Hl & Hq & _ & _ & Hsh & _).
    rewrite Hsh.
    by destruct (handler_scope _ s (shared h) runOnend (or_introl eq_refl)
                   (Hs _ _ Hl) Hq) as (_ & _ & -> & _).
  - pose proof (inScope_Some _ _ _ _ _ Hstep)
      as (s & Hl & Hq & _ & _ & Hsh & _).
    rewrite Hsh.
    by destruct (handler_scope _ s (shared h) runOnerror (or_intror eq_refl)
                   (Hs _ _ Hl) Hq) as (_ & _ & -> & _).
Qed.

Lemma resolved_promise_flag_witness :
  exists h h',
    run initial [Mounted true []; CallSpeak hello;
                 TimeoutFires 0 quietPlatform] = Some h
    /\ step h (UtteranceError 0) = Some h'
    /\ isSpeaking (shared h) = true
    /\ resolvesIn h h' 0
    /\ isSpeaking (shared h') = false.
Proof.
  destruct (run initial [Mounted true []; CallSpeak hello;
                         TimeoutFires 0 quietPlatform]) as [h|] eqn:Eh;
    [|vm_compute in Eh; discriminate Eh].
  destruct (step h (UtteranceError 0)) as [h'|] eqn:Eh';
    [|vm_compute in Eh; inversion Eh; subst h; vm_compute in Eh';
      discriminate Eh'].
  assert (isSpeaking (shared h) = true /\ resolvesIn h h' 0) as [Hsp Hres].
  { vm_compute in Eh. inversion Eh; subst h.
    vm_compute in Eh'. inversion Eh'; subst h'.
    split; [reflexivity|]. split; vm_compute; [discriminate | reflexivity]. }
  exists h, h'. do 4 (split; [done|]).
  exact (resolved_promise_flag h (UtteranceError 0) h' 0%nat
           (ex_intro _ _ Eh) Eh' Hres).
Defined.


(** *** The keep-alive timer *)






End SpeechClaims.

(** * Further properties *)

(** ** Expiry widget: window, display cap, order, summary *)

Section ExpiryMore.

Import Expiry ExpirySpec.

Lemma ceilDiv_upper (a n : Z) : a <= n * msPerDay -> ceilDiv a msPerDay <= n.
Proof.
  intros Ha. unfold ceilDiv.
  assert (- n <= - a / msPerDay); [|lia].
  apply Z.div_le_lower_bound; unfold msPerDay in *; lia.
Qed.

Lemma ceilDiv_mono (a b : Z) :
  a <= b -> ceilDiv a msPerDay <= ceilDiv b msPerDay.
Proof.
  intros H. unfold ceilDiv.
  assert (- b / msPerDay <= - a / msPerDay); [|lia].
  apply Z.div_le_mono; unfold msPerDay; lia.
Qed.

Lemma entryOf_window (Date_parse : string -> num) (now : Z) (limit : num)
    (s : StudentWithSubscription) (e : ExpiringStudent) :
  entryOf Date_parse now limit s e ->
  exists d th, daysLeft e = Num d /\ limit = Num th /\ now < th
               /\ 1 <= d <= ceilDiv (th - now) msPerDay.
Proof.
  intros Hse.
  destruct (entryOf_shape _ _ _ _ _ Hse)
    as (_ & sub & rest & d & t & Hs & _ & Hd & Ht & Hlt & _ & Hdl).
  destruct Hse as [Hk _].
  apply isExpiring_spec in Hk
    as (sub' & rest' & d' & t' & Hs' & _ & Hd' & _ & Ht' & _ & Hle).
  rewrite Hs in Hs'. inversion Hs'; subst sub' rest'.
  rewrite Hd in Hd'. inversion Hd'; subst d'.
  rewrite Ht in Ht'. inversion Ht'; subst t'.
  destruct limit as [|th]; [done|].
  cbn in Hle. apply Z.leb_le in Hle.
  exists (ceilDiv (t - now) msPerDay), th.
  split; [done|]. split; [done|]. split; [lia|]. split.
  - apply ceilDiv_positive. lia.
  - apply ceilDiv_mono. lia.
Qed.

(** X1: Every entry of the derived list has at least one day left and at
    most the days, rounded up, from now to the threshold date that
    [setDate] gives; the list is empty when that date is invalid or not
    after now.  When both dates hold the same instant, the threshold is a
    whole number and local time is as far from UTC at the threshold date as
    at now, every entry has between one day and the threshold left, and a
    threshold of zero days or less gives the empty list. *)
Theorem daysLeft_within_threshold :
  (forall (Date_parse : string -> num) (LocalTZA : Z -> bool -> Z)
          (now now2 : Z) (students : list StudentWithSubscription)
          (daysThreshold : number),
     exists out,
       expiringStudents Date_parse LocalTZA now now2 students daysThreshold
       = Some out
       /\ (forall e, e ∈ out ->
             exists d th,
               daysLeft e = Num d
               /\ thresholdDate LocalTZA now now2 daysThreshold = Num th
               /\ 1 <= d <= ceilDiv (th - now) msPerDay)
       /\ (thresholdDate LocalTZA now now2 daysThreshold = NaN -> out = [])
       /\ (forall th,
             thresholdDate LocalTZA now now2 daysThreshold = Num th ->
             th <= now -> out = []))
  /\ (forall (Date_parse : string -> num) (LocalTZA : Z -> bool -> Z)
             (now : Z) (students : list StudentWithSubscription) (n : Z),
        sameOffset LocalTZA now n -> representable (now + n * msPerDay) ->
        exists out,
          expiringStudents Date_parse LocalTZA now now students
            (Finite (inject_Z n)) = Some out
          /\ (forall e, e ∈ out ->
                exists d, daysLeft e = Num d /\ 1 <= d <= n)
          /\ (n <= 0 -> out = [])).
Proof.
  assert (forall (Date_parse : string -> num) (LocalTZA : Z -> bool -> Z)
                 (now now2 : Z) (students : list StudentWithSubscription)
                 (n : number),
            exists out,
              expiringStudents Date_parse LocalTZA now now2 students n
              = Some out
              /\ forall e, e ∈ out ->
                   exists d th,
                     daysLeft e = Num d
                     /\ thresholdDate LocalTZA now now2 n = Num th
                     /\ now < th
                     /\ 1 <= d <= ceilDiv (th - now) msPerDay) as Hgen.
  { intros Date_parse LocalTZA now now2 students n.
    destruct (expiringStudents_total Date_parse LocalTZA now now2 students n)
      as (entries & Hout & Hent).
    exists (sort entries). split; [done|].
    intros e He. rewrite sort_perm in He.
    destruct (Forall2_elem_r _ _ _ _ Hent He) as (s & _ & Hse).
    by eapply entryOf_window. }
  split.
  - intros Date_parse LocalTZA now now2 students n.
    destruct (Hgen Date_parse LocalTZA now now2 students n)
      as (out & Hout & Hall).
    exists out. split; [done|]. split; [|split].
    + intros e He. destruct (Hall e He) as (d & th & ? & ? & _ & ?).
      by exists d, th.
    + intros Hnan. destruct out as [|e l]; [done|].
      destruct (Hall e) as (d & th & _ & Hth & _); [left|].
      rewrite Hnan in Hth. discriminate Hth.
    + intros th Hth Hle. destruct out as [|e l]; [done|].
      destruct (Hall e) as (d & th' & _ & Hth' & Hlt & _); [left|].
      rewrite Hth in Hth'. inversion Hth'; subst th'. lia.
  - intros Date_parse LocalTZA now students n Hz Hr.
    destruct (Hgen Date_parse LocalTZA now now students (Finite (inject_Z n)))
      as (out & Hout & Hall).
    rewrite (thresholdDate_whole LocalTZA now n Hz Hr) in Hall.
    exists out. split; [done|].
    assert (forall e, e ∈ out ->
              exists d, daysLeft e = Num d /\ 1 <= d <= n) as Hbound.
    { intros e He. destruct (Hall e He) as (d & th & Hd & [= <-] & _ & Hb).
      exists d. split; [done|].
      pose proof (ceilDiv_upper (now + n * msPerDay - now) n ltac:(lia)).
      lia. }
    split; [done|]. intros Hn.
    destruct out as [|e l]; [done|].
    destruct (Hbound e) as (d & _ & Hd); [left | lia].
Qed.

Lemma daysLeft_within_threshold_witness :
  let now := 1740787200000 in
  let l := [subscribed "a" pro (Some "2025-03-06T00:00:00Z")] in
  (exists out e d,
     expiringStudents sampleDates (fixedZone 0) now now l
       (Finite (inject_Z 7)) = Some out
     /\ e ∈ out /\ daysLeft e = Num d /\ 1 <= d <= 7)
  /\ expiringStudents sampleDates (fixedZone 0) now now l
       (Finite (inject_Z 0)) = Some [].
Proof.
  intros now l.
  destruct daysLeft_within_threshold as [_ Hwhole].
  assert (forall n, sameOffset (fixedZone 0) now n) as Hz by reflexivity.
  split.
  - assert (representable (now + 7 * msPerDay)) as Hr
      by (unfold representable; vm_compute; discriminate).
    destruct (Hwhole sampleDates (fixedZone 0) now l 7 (Hz 7) Hr)
      as (out & Hout & Hall & _).
    pose proof Hout as Hval. vm_compute in Hval. inversion Hval as [Hval'].
    set (e := {| student := subscribed "a" pro (Some "2025-03-06T00:00:00Z");
                 daysLeft := Num 5; endDate := Num 1741219200000 |}).
    assert (e ∈ out) as He by (rewrite <- Hval'; left).
    destruct (Hall e He) as (d & Hd & Hb).
    exists out, e, d. split; [exact Hout|]. split; [exact He|].
    split; [exact Hd | exact Hb].
  - assert (representable (now + 0 * msPerDay)) as Hr
      by (unfold representable; vm_compute; discriminate).
    destruct (Hwhole sampleDates (fixedZone 0) now l 0 (Hz 0) Hr)
      as (out & Hout & _ & Hempty).
    rewrite Hout, Hempty; [reflexivity | lia].
Defined.

(** X2: The rows rendered are at most five, they are the head of the derived
    list, and none of them has more days left than an entry that is not
    rendered; the "view all" footer shows exactly when an entry is left
    out. *)
Theorem displayed_most_urgent :
  forall (Date_parse : string -> num) (LocalTZA : Z -> bool -> Z)
         (now now2 : Z) (students : list StudentWithSubscription)
         (n : number),
  exists out,
    expiringStudents Date_parse LocalTZA now now2 students n = Some out
    /\ (length (displayed out) <= 5)%nat
    /\ displayed out ++ drop 5 out = out
    /\ (forall a b, a ∈ displayed out -> b ∈ drop 5 out -> daysLeft_le a b)
    /\ (showViewAll out = true <-> drop 5 out <> []).
Proof.
  intros Date_parse LocalTZA now now2 students n.
  destruct (expiringStudents_total Date_parse LocalTZA now now2 students n)
    as (entries & Hout & Hent).
  exists (sort entries). split; [done|].
  assert (StronglySorted daysLeft_le (sort entries)) as Hs.
  { apply sort_sorted, Forall_forall. intros e He.
    destruct (Forall2_elem_r _ _ _ _ Hent He) as (s & _ & Hse).
    destruct (entryOf_window _ _ _ _ _ Hse) as (d & th & Hd & _).
    by exists d. }
  unfold displayed, showViewAll.
  split; [rewrite length_take; lia|].
  split; [apply take_drop|]. split.
  - intros a b Ha Hb. rewrite <- (take_drop 5 (sort entries)) in Hs.
    by eapply StronglySorted_app_1_elem_of.
  - rewrite Nat.ltb_lt. split.
    + intros Hlen Hd. apply (f_equal length) in Hd.
      rewrite length_drop in Hd. simpl in Hd. lia.
    + intros Hd. destruct (decide (5 < length (sort entries))%nat); [done|].
      exfalso. apply Hd. apply drop_ge. lia.
Qed.

Lemma displayed_most_urgent_witness :
  let l := [ subscribed "a" pro (Some "2025-03-06T00:00:00Z");
             subscribed "b" pro (Some "2025-03-03T00:00:00Z");
             subscribed "c" pro (Some "2025-03-01T12:00:00Z");
             subscribed "d" pro (Some "2025-03-04T00:00:00Z");
             subscribed "e" pro (Some "2025-03-06T00:00:00Z");
             subscribed "f" pro (Some "2025-03-03T00:00:00Z") ] in
  exists out a b,
    expiringStudents sampleDates (fixedZone 0) 1740787200000 1740787200000
      l (Finite 7) = Some out
    /\ a ∈ displayed out /\ b ∈ drop 5 out /\ daysLeft_le a b
    /\ showViewAll out = true.
Proof.
  intros l.
  destruct (displayed_most_urgent sampleDates (fixedZone 0)
              1740787200000 1740787200000 l (Finite 7))
    as (out & Hout & _ & _ & Hle & Hshow).
  pose proof Hout as Hval. vm_compute in Hval. inversion Hval as [Hval'].
  set (a := {| student := subscribed "c" pro (Some "2025-03-01T12:00:00Z");
               daysLeft := Num 1; endDate := Num 1740830400000 |}).
  set (b := {| student := subscribed "e" pro (Some "2025-03-06T00:00:00Z");
               daysLeft := Num 5; endDate := Num 1741219200000 |}).
  assert (a ∈ displayed out) as Ha by (rewrite <- Hval'; left).
  assert (b ∈ drop 5 out) as Hb by (rewrite <- Hval'; left).
  exists out, a, b. do 3 (split; [done|]). split; [by apply Hle|].
  apply Hshow. rewrite <- Hval'. done.
Defined.


Lemma hasDays_counted (d : Z) (e : ExpiringStudent) :
  hasDays d e = true <-> daysLeft e = Num d.
Proof.
  unfold hasDays. destruct (daysLeft e) as [|k]; [done|].
  rewrite Z.eqb_eq. split; [by intros -> | by intros [= ->]].
Qed.

(** The sort is stable: it does not reorder entries with the same day
    count. *)
Lemma filter_insertSorted (d : Z) (x : ExpiringStudent)
    (l : list ExpiringStudent) :
  counted x -> Forall counted l ->
  List.filter (hasDays d) (insertSorted x l)
  = List.filter (hasDays d) (x :: l).
Proof.
  intros [dx Hx]. induction 1 as [|y l [dy Hy] Hl IH]; [done|].
  cbn [insertSorted]. rewrite (isNegative_compareFn x y dx dy) by done.
  destruct (Z.ltb_spec dy dx) as [Hlt|Hge]; [|done].
  cbn [List.filter] in *. rewrite IH.
  destruct (hasDays d y) eqn:Ey, (hasDays d x) eqn:Ex; try done.
  apply hasDays_counted in Ey, Ex. rewrite Hx in Ex. rewrite Hy in Ey.
  inversion Ex; inversion Ey; lia.
Qed.

Lemma filter_sort (d : Z) (l : list ExpiringStudent) :
  Forall counted l ->
  List.filter (hasDays d) (sort l) = List.filter (hasDays d) l.
Proof.
  induction 1 as [|x l Hx Hl IH]; [done|].
  change (sort (x :: l)) with (insertSorted x (sort l)).
  rewrite filter_insertSorted; [|done|by rewrite sort_perm].
  cbn [List.filter]. by rewrite IH.
Qed.

(** X3: Students with the same number of days left are listed in the order of
    the input. *)
Theorem equal_days_keep_input_order :
  forall (Date_parse : string -> num) (LocalTZA : Z -> bool -> Z)
         (now now2 : Z) (students : list StudentWithSubscription)
         (n : number),
  exists out,
    expiringStudents Date_parse LocalTZA now now2 students n = Some out
    /\ forall d,
         student <$> List.filter (hasDays d) out `sublist_of` students.
Proof.
  intros Date_parse LocalTZA now now2 students n.
  destruct (expiringStudents_total Date_parse LocalTZA now now2 students n)
    as (entries & Hout & Hent).
  exists (sort entries). split; [done|]. intros d.
  assert (Forall counted entries) as Hc.
  { apply Forall_forall. intros e He.
    destruct (Forall2_elem_r _ _ _ _ Hent He) as (s & _ & Hse).
    destruct (entryOf_window _ _ _ _ _ Hse) as (k & th & Hk & _).
    by exists k. }
  rewrite filter_sort by done.
  transitivity (student <$> entries).
  { apply fmap_sublist, filter_sublist. }
  assert (student <$> entries
          = List.filter (isExpiring Date_parse now (thresholdDate LocalTZA now now2 n))
              students) as ->; [|apply filter_sublist].
  clear -Hent. induction Hent as [|s e l k Hse _ IH]; [done|].
  rewrite fmap_cons. destruct (entryOf_shape _ _ _ _ _ Hse) as [-> _].
  f_equal. exact IH.
Qed.


Lemma equal_days_keep_input_order_witness :
  let b := subscribed "b" pro (Some "2025-03-03T00:00:00Z") in
  let c := subscribed "c" pro (Some "2025-03-01T12:00:00Z") in
  let f := subscribed "f" pro (Some "2025-03-03T00:00:00Z") in
  exists out,
    expiringStudents sampleDates (fixedZone 0) 1740787200000 1740787200000
      [b; c; f] (Finite 7) = Some out
    /\ student <$> List.filter (hasDays 2) out = [b; f]
    /\ [b; f] `sublist_of` [b; c; f].
Proof.
  intros b c f.
  destruct (equal_days_keep_input_order sampleDates (fixedZone 0)
              1740787200000 1740787200000 [b; c; f] (Finite 7))
    as (out & Hout & Hsub).
  pose proof Hout as Hval. vm_compute in Hval. inversion Hval as [Hval'].
  assert (student <$> List.filter (hasDays 2) out = [b; f]) as Heq
    by (rewrite <- Hval'; reflexivity).
  exists out. split; [done|]. split; [done|].
  rewrite <- Heq. apply Hsub.
Defined.

(** In a list in ascending order of day counts, the entries with at most
    [k] days are the leading ones. *)
Lemma leading_entries (k : Z) (l : list ExpiringStudent) :
  StronglySorted daysLeft_le l -> Forall counted l ->
  forall i e, l !! i = Some e ->
    (i < length (List.filter (fun s => num_le (daysLeft s) (Num k)) l))%nat
    <-> num_le (daysLeft e) (Num k) = true.
Proof.
  induction 1 as [|x l Hs IH Hx]; intros Hc i e Hi; [done|].
  inversion Hc as [|? ? [dx Hdx] Hc']; subst.
  cbn [List.filter]. destruct (num_le (daysLeft x) (Num k)) eqn:Ex.
  - destruct i as [|i]; cbn in Hi.
    + inversion Hi; subst. cbn [length]. split; [done | lia].
    + cbn [length]. rewrite <- (IH Hc' i e Hi). lia.
  - assert (forall y, y ∈ x :: l -> num_le (daysLeft y) (Num k) = false)
      as Hall.
    { intros y [->|Hy]%elem_of_cons; [done|].
      rewrite Forall_forall in Hx. specialize (Hx y Hy).
      unfold daysLeft_le in Hx. rewrite Hdx in Hx, Ex.
      destruct (daysLeft y) as [|dy]; [done|]. cbn in *. lia. }
    assert (List.filter (fun s => num_le (daysLeft s) (Num k)) l = []) as ->.
    { clear -Hall. induction l as [|y l IH]; [done|]. cbn.
      rewrite (Hall y) by (right; left). apply IH.
      intros z [->|Hz]%elem_of_cons; apply Hall; [left | right; by right]. }
    rewrite (Hall e) by (by eapply list_elem_of_lookup_2).
    cbn. split; [lia | done].
Qed.

Lemma length_filter_split {A} (f g h : A -> bool) (l : list A) :
  (forall x, f x = g x || h x) -> (forall x, g x && h x = false) ->
  length (List.filter f l)
  = (length (List.filter g l) + length (List.filter h l))%nat.
Proof.
  intros Hf Hgh. induction l as [|x l IH]; [done|].
  cbn [List.filter]. rewrite Hf. specialize (Hgh x).
  destruct (g x), (h x); cbn [orb length] in *; try done; lia.
Qed.

Lemma count_bands (l : list ExpiringStudent) :
  length (List.filter (fun s => num_le (daysLeft s) (Num 3)) l)
  = (urgentCount l + soonCount l)%nat.
Proof.
  apply length_filter_split; intros x; unfold num_gt;
    destruct (daysLeft x) as [|d]; cbn; [done | lia | done | lia].
Qed.

(** X4: The counts of the summary line count the leading rows of the derived
    list: the first [urgentCount] entries are those with at most one day
    left, the next [soonCount] those with two or three; and the summary
    line shows exactly when the first entry has at most three days left. *)
Theorem summary_counts_leading_rows :
  forall (Date_parse : string -> num) (LocalTZA : Z -> bool -> Z)
         (now now2 : Z) (students : list StudentWithSubscription)
         (n : number),
  exists out,
    expiringStudents Date_parse LocalTZA now now2 students n = Some out
    /\ (forall i e, out !! i = Some e ->
          ((i < urgentCount out)%nat <-> daysLeft e = Num 1)
          /\ ((urgentCount out <= i < urgentCount out + soonCount out)%nat
              <-> daysLeft e = Num 2 \/ daysLeft e = Num 3))
    /\ (showSummary out = true
        <-> exists e d, head out = Some e /\ daysLeft e = Num d /\ d <= 3).
Proof.
  intros Date_parse LocalTZA now now2 students n.
  destruct (expiringStudents_total Date_parse LocalTZA now now2 students n)
    as (entries & Hout & Hent).
  exists (sort entries). split; [done|].
  assert (forall e, e ∈ sort entries ->
            exists d, daysLeft e = Num d /\ 1 <= d) as Hall.
  { intros e He. rewrite sort_perm in He.
    destruct (Forall2_elem_r _ _ _ _ Hent He) as (s & _ & Hse).
    destruct (entryOf_window _ _ _ _ _ Hse) as (d & th & Hd & _ & _ & ? & _).
    by exists d. }
  assert (Forall counted (sort entries)) as Hc.
  { apply Forall_forall. intros e He.
    destruct (Hall e He) as (d & ? & _). by exists d. }
  assert (StronglySorted daysLeft_le (sort entries)) as Hs.
  { apply sort_sorted. by rewrite <- (sort_perm entries). }
  assert (forall i e, sort entries !! i = Some e ->
            ((i < urgentCount (sort entries))%nat <-> daysLeft e = Num 1)
            /\ ((urgentCount (sort entries) <= i
                 < urgentCount (sort entries) + soonCount (sort entries))%nat
                <-> daysLeft e = Num 2 \/ daysLeft e = Num 3)) as Hrows.
  { intros i e Hi.
    pose proof (leading_entries 1 _ Hs Hc i e Hi) as H1.
    pose proof (leading_entries 3 _ Hs Hc i e Hi) as H3.
    rewrite count_bands in H3. fold (urgentCount (sort entries)) in H1.
    destruct (Hall e) as (d & Hd & Hpos); [by eapply list_elem_of_lookup_2|].
    rewrite Hd in *. cbn in H1, H3. rewrite Z.leb_le in H1, H3.
    split.
    - rewrite H1. split; [intros; f_equal; lia | by intros [= ->]].
    - split.
      + intros [Hlo Hhi]. assert (1 < d <= 3) as Hd' by lia.
        assert (d = 2 \/ d = 3) as [-> | ->] by lia; auto.
      + intros [[= ->]|[= ->]]; lia. }
  split; [exact Hrows|].
  unfold showSummary. rewrite orb_true_iff, !Nat.ltb_lt.
  destruct (sort entries) as [|e l] eqn:El.
  { cbn. split; [lia | by intros (? & ? & ? & _)]. }
  destruct (Hall e) as (d & Hd & Hpos); [left|].
  destruct (Hrows 0%nat e eq_refl) as [H1 H23]. cbn [head]. split.
  - intros Hcount. exists e, d. split; [done|]. split; [done|].
    destruct (decide (0 < urgentCount (e :: l))%nat) as [Hu|Hu].
    + apply H1 in Hu. rewrite Hd in Hu. inversion Hu. lia.
    + assert (daysLeft e = Num 2 \/ daysLeft e = Num 3) as [Hx|Hx]
        by (apply H23; lia);
        rewrite Hd in Hx; inversion Hx; lia.
  - intros (e' & d' & [= <-] & Hd' & Hle). rewrite Hd in Hd'.
    inversion Hd'; subst d'.
    assert (d = 1 \/ d = 2 \/ d = 3) as [->|[->| ->]] by lia.
    + left. by apply H1.
    + assert (urgentCount (e :: l) <= 0
              < urgentCount (e :: l) + soonCount (e :: l))%nat
        by (apply H23; by left). lia.
    + assert (urgentCount (e :: l) <= 0
              < urgentCount (e :: l) + soonCount (e :: l))%nat
        by (apply H23; by right). lia.
Qed.

Lemma summary_counts_leading_rows_witness :
  let l := [ subscribed "a" pro (Some "2025-03-06T00:00:00Z");
             subscribed "b" pro (Some "2025-03-03T00:00:00Z");
             subscribed "c" pro (Some "2025-03-01T12:00:00Z") ] in
  exists out e,
    expiringStudents sampleDates (fixedZone 0) 1740787200000 1740787200000
      l (Finite 7) = Some out
    /\ urgentCount out = 1%nat /\ soonCount out = 1%nat
    /\ out !! 1%nat = Some e /\ daysLeft e = Num 2.
Proof.
  intros l.
  destruct (summary_counts_leading_rows sampleDates (fixedZone 0)
              1740787200000 1740787200000 l (Finite 7))
    as (out & Hout & Hrows & _).
  pose proof Hout as Hval. vm_compute in Hval. inversion Hval as [Hval'].
  set (e := {| student := subscribed "b" pro (Some "2025-03-03T00:00:00Z");
               daysLeft := Num 2; endDate := Num 1740960000000 |}).
  assert (out !! 1%nat = Some e) as He by (rewrite <- Hval'; reflexivity).
  assert (urgentCount out = 1%nat /\ soonCount out = 1%nat) as [Hu Hsn]
    by (rewrite <- Hval'; split; reflexivity).
  destruct (Hrows 1%nat e He) as [_ H23].
  assert (daysLeft e = Num 2 \/ daysLeft e = Num 3) as [Hd|Hd]
    by (apply H23; lia); [|discriminate Hd].
  exists out, e. split; [exact Hout|]. split; [exact Hu|].
  split; [exact Hsn|]. split; [exact He | exact Hd].
Defined.

(** X5: The summary line and the rows agree, for every list: the count of
    entries "expiring tomorrow" is the number of rows with the badge
    "Tomorrow!", the count "within 3 days" the number of rows with the
    secondary badge, and every other row has the outline badge; and the
    colour of a row is that of the band of its badge. *)
Theorem summary_matches_badges :
  (forall l : list ExpiringStudent,
     urgentCount l = length (List.filter (hasBadge destructive) l)
     /\ soonCount l = length (List.filter (hasBadge secondary) l)
     /\ length l = (urgentCount l + soonCount l
                    + length (List.filter (hasBadge outline) l))%nat)
  /\ (forall d : num,
        match (getUrgencyBadge d).2 with
        | destructive =>
            (getUrgencyBadge d).1 = "Tomorrow!"
            /\ getUrgencyColor d
               = "text-destructive bg-destructive/10 border-destructive/30"
        | secondary =>
            (getUrgencyBadge d).1 = numToString d +:+ " days"
            /\ getUrgencyColor d
               = "text-warning bg-warning/10 border-warning/30"
        | outline =>
            (getUrgencyBadge d).1 = numToString d +:+ " days"
            /\ getUrgencyColor d
               = "text-primary bg-primary/10 border-primary/30"
        end).
Proof.
  split.
  - intros l.
    assert (urgentCount l = length (List.filter (hasBadge destructive) l))
      as H1.
    { unfold urgentCount. f_equal. apply List.filter_ext. intros e.
      unfold hasBadge, getUrgencyBadge.
      destruct (num_le (daysLeft e) (Num 1)); [done|].
      by destruct (num_le (daysLeft e) (Num 3)). }
    assert (soonCount l = length (List.filter (hasBadge secondary) l))
      as H2.
    { unfold soonCount. f_equal. apply List.filter_ext. intros e.
      unfold hasBadge, getUrgencyBadge, num_gt.
      destruct (daysLeft e) as [|d]; cbn; [done|].
      destruct (Z.leb_spec d 1), (Z.ltb_spec 1 d); try lia;
        by destruct (d <=? 3). }
    split; [done|]. split; [done|]. rewrite H1, H2.
    clear H1 H2. induction l as [|e l IH]; [done|].
    assert (forall v,
              length (List.filter (hasBadge v) (e :: l))
              = ((if hasBadge v e then 1 else 0)
                 + length (List.filter (hasBadge v) l))%nat) as Hc.
    { intros v. cbn [List.filter]. by destruct (hasBadge v e). }
    rewrite !Hc. cbn [length].
    destruct (hasBadge destructive e) eqn:E1,
      (hasBadge secondary e) eqn:E2, (hasBadge outline e) eqn:E3;
      unfold hasBadge in E1, E2, E3;
      destruct (getUrgencyBadge (daysLeft e)).2; try discriminate; lia.
  - intros d. unfold getUrgencyBadge, getUrgencyColor.
    destruct (num_le d (Num 1)); [done|].
    by destruct (num_le d (Num 3)).
Qed.

End ExpiryMore.

(** ** Voices: what [getBestVoice] returns, what the selector lists and
       previews *)

Section VoicesMore.

Import Voices VoicesSpec Picker PickerSpec.

(** X6: [getBestVoice] returns a voice of the list in use, returns nothing
    exactly when that list is empty, and does not look at [getVoices()]
    once voices are cached. *)
Theorem getBestVoice_from_list :
  forall availableVoices getVoices : list SpeechSynthesisVoice,
    (forall v, getBestVoice availableVoices getVoices = Some v ->
               v ∈ currentVoices availableVoices getVoices)
    /\ (getBestVoice availableVoices getVoices = None
        <-> currentVoices availableVoices getVoices = [])
    /\ (availableVoices <> [] ->
        forall later, getBestVoice availableVoices later
                      = getBestVoice availableVoices getVoices).
Proof.
  intros av gv. unfold getBestVoice.
  set (voices := currentVoices av gv).
  split; [|split].
  - intros v. destruct voices as [|v0 l] eqn:E; [done|]. cbn [length Nat.eqb].
    intros H.
    repeat match type of H with
           | match List.find ?f ?l with _ => _ end = _ =>
               let Ef := fresh "Ef" in
               destruct (List.find f l) eqn:Ef;
               [inversion H; subst;
                apply List.find_some in Ef as [Ef _];
                by apply list_elem_of_In|]
           end.
    cbn in H. inversion H; subst. left.
  - destruct voices as [|v0 l] eqn:E; [done|]. cbn [length Nat.eqb].
    split; [|done]. intros H.
    repeat match type of H with
           | match List.find ?f ?l with _ => _ end = _ =>
               destruct (List.find f l); [done|]
           end.
    done.
  - intros Hne later. subst voices. unfold currentVoices.
    destruct av; [done|]. done.
Qed.

Lemma getBestVoice_from_list_witness :
  let fr := {| name := "Amelie"; lang := "fr-FR" |} in
  let gb := {| name := "Daniel"; lang := "en-GB" |} in
  let hin := {| name := "Lekha"; lang := "hi-IN" |} in
  getBestVoice [fr; gb] [hin] = Some gb
  /\ gb ∈ currentVoices [fr; gb] [hin]
  /\ getBestVoice [fr; gb] [] = getBestVoice [fr; gb] [hin].
Proof.
  intros fr gb hin.
  destruct (getBestVoice_from_list [fr; gb] [hin]) as (Hm & _ & Hc).
  split; [reflexivity|]. split.
  - apply Hm. reflexivity.
  - apply Hc. discriminate.
Defined.

Lemma startsWith_substring (s p : string) :
  startsWith s p = true <-> String.substring 0 (String.length p) s = p.
Proof. unfold startsWith. apply String.prefix_correct. Qed.

Lemma hindi_not_english (s : string) :
  startsWith s "hi" = true -> startsWith s "en" = false.
Proof.
  intros H%startsWith_substring.
  destruct (startsWith s "en") eqn:E; [|done].
  apply startsWith_substring in E. cbn [String.length] in *. congruence.
Qed.

Lemma indian_is_english (s : string) :
  String.eqb s "en-IN" = true -> startsWith s "en" = true.
Proof. intros ->%String.eqb_eq. reflexivity. Qed.

Lemma filter_three_way {A} (f g h k : A -> bool) (l : list A) :
  (forall x, f x = g x || h x || k x) ->
  (forall x, g x && h x = false) -> (forall x, g x && k x = false) ->
  (forall x, h x && k x = false) ->
  List.filter g l ++ List.filter h l ++ List.filter k l ≡ₚ List.filter f l.
Proof.
  intros Hf Hgh Hgk Hhk. induction l as [|x l IH]; [done|].
  cbn [List.filter]. rewrite Hf.
  specialize (Hgh x). specialize (Hgk x). specialize (Hhk x).
  destruct (g x), (h x), (k x); cbn in *; try done.
  - by rewrite IH.
  - rewrite <- IH. symmetry. apply Permutation_middle.
  - rewrite <- IH. rewrite !app_assoc. symmetry. apply Permutation_middle.
Qed.

(** X7: The selector lists each supplied voice whose tag starts with hi or en
    exactly once and no other voice; it renders nothing exactly when there
    is no such voice. *)
Theorem sortedVoices_lists_once :
  forall voices : list SpeechSynthesisVoice,
    sortedVoices voices
    ≡ₚ List.filter (fun v => startsWith (lang v) "hi"
                            || startsWith (lang v) "en") voices
    /\ (forall v, v ∈ sortedVoices voices
                  <-> v ∈ voices
                      /\ (startsWith (lang v) "hi" = true
                          \/ startsWith (lang v) "en" = true))
    /\ (rendersNothing voices = true
        <-> forall v, v ∈ voices ->
              startsWith (lang v) "hi" = false
              /\ startsWith (lang v) "en" = false).
Proof.
  intros voices.
  assert (sortedVoices voices
          ≡ₚ List.filter (fun v => startsWith (lang v) "hi"
                                   || startsWith (lang v) "en") voices)
    as Hperm.
  { unfold sortedVoices. apply filter_three_way; intros v.
    - destruct (startsWith (lang v) "hi") eqn:Eh; [done|].
      destruct (String.eqb (lang v) "en-IN") eqn:Ei.
      + by rewrite (indian_is_english _ Ei).
      + cbn. by rewrite andb_true_r.
    - destruct (startsWith (lang v) "hi") eqn:Eh; [|done].
      destruct (String.eqb (lang v) "en-IN") eqn:Ei; [|done].
      apply indian_is_english in Ei. apply hindi_not_english in Eh.
      congruence.
    - destruct (startsWith (lang v) "hi") eqn:Eh; [|done].
      by rewrite (hindi_not_english _ Eh).
    - by destruct (String.eqb (lang v) "en-IN"), (startsWith (lang v) "en"). }
  assert (forall v, v ∈ sortedVoices voices
                    <-> v ∈ voices
                        /\ (startsWith (lang v) "hi" = true
                            \/ startsWith (lang v) "en" = true)) as Hmem.
  { intros v. rewrite Hperm, list_elem_of_In, List.filter_In, orb_true_iff.
    by rewrite list_elem_of_In. }
  split; [done|]. split; [done|].
  unfold rendersNothing. rewrite Nat.eqb_eq. split.
  - intros Hlen v Hv. apply nil_length_inv in Hlen.
    destruct (startsWith (lang v) "hi") eqn:Eh,
             (startsWith (lang v) "en") eqn:Ee; try done;
      (assert (v ∈ sortedVoices voices) as Hin
         by (apply Hmem; split; [done|]; rewrite ?Eh, ?Ee; tauto));
      rewrite Hlen in Hin; by apply elem_of_nil in Hin.
  - intros Hnone. destruct (sortedVoices voices) as [|v l] eqn:E; [done|].
    exfalso. assert (v ∈ v :: l) as Hin by left.
    apply Hmem in Hin as [Hv [Hh|He]]; destruct (Hnone v Hv); congruence.
Qed.

Lemma sortedVoices_lists_once_witness :
  let fr := {| name := "Amelie"; lang := "fr-FR" |} in
  let gb := {| name := "Daniel"; lang := "en-GB" |} in
  let hin := {| name := "Lekha"; lang := "hi-IN" |} in
  let ind := {| name := "Rishi"; lang := "en-IN" |} in
  sortedVoices [fr; gb; ind; hin] = [hin; ind; gb]
  /\ gb ∈ sortedVoices [fr; gb; ind; hin]
  /\ rendersNothing [fr] = true.
Proof.
  intros fr gb hin ind.
  destruct (sortedVoices_lists_once [fr; gb; ind; hin]) as (_ & Hmem & _).
  destruct (sortedVoices_lists_once [fr]) as (_ & _ & Hnone).
  split; [reflexivity|]. split.
  - apply Hmem. split; [right; left | right; reflexivity].
  - apply Hnone. intros v Hv. apply list_elem_of_singleton in Hv as ->.
    by split.
Defined.


Lemma sortedVoices_elem (voices : list SpeechSynthesisVoice)
    (v : SpeechSynthesisVoice) :
  v ∈ sortedVoices voices ->
  v ∈ voices /\ (startsWith (lang v) "hi" = true
                 \/ startsWith (lang v) "en" = true).
Proof.
  unfold sortedVoices. rewrite !elem_of_app, !list_elem_of_In.
  rewrite !List.filter_In, andb_true_iff.
  intros [[? ?]|[[? ?%indian_is_english]|[? [? _]]]]; tauto.
Qed.

(** What a click on the preview button adds to the log. *)
Lemma previewVoice_spoken (voices : list SpeechSynthesisVoice)
    (selectedVoice : option string) (st : Selector) (u : PreviewUtterance) :
  PSpeak u ∈ engineCalls (previewVoice voices selectedVoice st) ->
  PSpeak u ∈ engineCalls st
  \/ (isPreviewing st = false /\ pVoice u ∈ voices
      /\ selectedVoice = Some (name (pVoice u)) /\ name (pVoice u) <> ""
      /\ wellBuilt u
      /\ engineCalls (previewVoice voices selectedVoice st)
         = PSpeak u :: PCancel :: engineCalls st).
Proof.
  unfold previewVoice.
  destruct (noSelection selectedVoice) eqn:Es; cbn [orb].
  { cbn. intros [[=]|?]%elem_of_cons. by left. }
  destruct (isPreviewing st) eqn:Ep.
  { cbn. intros [[=]|?]%elem_of_cons. by left. }
  destruct selectedVoice as [sel|]; [|done]. cbn in Es.
  apply String.eqb_neq in Es. cbn [default].
  destruct (List.find _ _) as [voice|] eqn:Ef; [|by left].
  apply List.find_some in Ef as [Hin Hname].
  apply list_elem_of_In, sortedVoices_elem in Hin as [Hv Htag].
  apply String.eqb_eq in Hname. cbn [engineCalls].
  intros [[= ->]|[[=]|?]%elem_of_cons]%elem_of_cons; [|by left].
  unfold id in Hname. right. cbn. repeat split; try done; congruence.
Qed.

Lemma pickerStep_ok (st : Selector) (e : PickerEvent) :
  selectorOK st -> selectorOK (pickerStep st e).
Proof.
  intros [Hc Hw]. destruct e as [voices sel| | |]; cbn [pickerStep];
    [|by split..].
  split.
  - unfold previewVoice.
    destruct (noSelection sel || isPreviewing st); [done|].
    destruct (List.find _ _); [|done]. by split.
  - intros u [?|(_ & _ & _ & _ & ? & _)]%previewVoice_spoken; auto.
Qed.

Lemma pickerRun_ok (es : list PickerEvent) (st : Selector) :
  selectorOK st -> selectorOK (pickerRun st es).
Proof.
  revert st. induction es as [|e es IH]; intros st Hst; [done|].
  cbn. apply IH. by apply pickerStep_ok.
Qed.

(** X8: The preview never hands an utterance to the engine without cancelling
    first; every utterance it speaks has a listed voice (tag starting
    with hi or en), that voice's tag, the Hindi greeting exactly for a tag
    starting with hi, rate 0.9 and pitch 1; a click speaks only when no
    preview is running, for the supplied voice with the selected, non-empty
    name; and a click while a preview is running only cancels and clears
    the flag. *)
Theorem preview_discipline :
  (forall es, selectorOK (pickerRun pickerInitial es))
  /\ (forall voices selectedVoice st u,
        PSpeak u ∈ engineCalls (previewVoice voices selectedVoice st) ->
        PSpeak u ∈ engineCalls st
        \/ (isPreviewing st = false /\ pVoice u ∈ voices
            /\ selectedVoice = Some (name (pVoice u))
            /\ name (pVoice u) <> ""))
  /\ (forall voices selectedVoice st,
        isPreviewing st = true ->
        previewVoice voices selectedVoice st
        = {| isPreviewing := false;
             engineCalls := PCancel :: engineCalls st |}).
Proof.
  split; [|split].
  - intros es. apply pickerRun_ok. split; [done|].
    intros u Hu. by apply elem_of_nil in Hu.
  - intros voices sel st u
      [?|(? & ? & ? & ? & _)]%previewVoice_spoken; auto.
  - intros voices sel st Hp. unfold previewVoice.
    by rewrite Hp, orb_true_r.
Qed.

Lemma preview_discipline_witness :
  let hin := {| name := "Lekha"; lang := "hi-IN" |} in
  let gb := {| name := "Daniel"; lang := "en-GB" |} in
  let st := pickerRun pickerInitial
              [Click [gb; hin] (Some "Lekha"); PreviewStart;
               Click [gb; hin] (Some "Lekha"); PreviewEnd;
               Click [gb; hin] (Some "Daniel")] in
  exists u,
    engineCalls st
    = [PSpeak u; PCancel; PCancel;
       PSpeak {| pText := hindiGreeting; pVoice := hin; pLang := "hi-IN";
                 pRate := 9 # 10; pPitch := 1 |}; PCancel]
    /\ pVoice u = gb /\ wellBuilt u /\ cancelledBefore (engineCalls st).
Proof.
  intros hin gb st.
  destruct preview_discipline as (Hok & _ & _).
  destruct (Hok [Click [gb; hin] (Some "Lekha"); PreviewStart;
                 Click [gb; hin] (Some "Lekha"); PreviewEnd;
                 Click [gb; hin] (Some "Daniel")]) as [Hc Hw].
  fold st in Hc, Hw.
  set (u := {| pText := englishGreeting; pVoice := gb; pLang := "en-GB";
               pRate := 9 # 10; pPitch := 1 |}).
  exists u. split; [reflexivity|]. split; [reflexivity|].
  split; [|exact Hc]. apply Hw. left.
Defined.

End VoicesMore.

(** ** Speech controller: prosody, the order of engine calls, promises
       and timers *)

Section SpeechMore.

Import Speech SpeechSpec.

Local Arguments sanitizeText : simpl never.
Local Open Scope Q_scope.

Lemma clamp_bounds (lo hi x : Q) :
  lo <= hi -> lo <= clamp lo hi x <= hi.
Proof.
  intros H. unfold clamp. split; [apply Q.le_max_l|].
  apply Q.max_lub; [done | apply Q.le_min_l].
Qed.

Lemma clamp_inside (lo hi x : Q) :
  lo <= x <= hi -> clamp lo hi x == x.
Proof.
  intros [H1 H2]. unfold clamp.
  rewrite (Q.min_r hi x) by done. by apply Q.max_r.
Qed.

Lemma clamp_above (lo hi x : Q) :
  lo <= hi -> hi <= x -> clamp lo hi x == hi.
Proof.
  intros H1 H2. unfold clamp.
  rewrite (Q.min_l hi x) by done. by apply Q.max_r.
Qed.

Lemma clamp_below (lo hi x : Q) :
  lo <= hi -> x <= lo -> clamp lo hi x == lo.
Proof.
  intros H1 H2. unfold clamp. apply Q.max_l.
  apply Qle_trans with x; [apply Q.le_min_r | done].
Qed.

Local Close Scope Q_scope.

(** *** The effect of each callback on its scope and on the log *)

Lemma sessionFlow_grow (j : nat) (new log : list EngineCall) (s : Session) :
  (Speak j ∉ new) ->
  sessionFlow j log s -> sessionFlow j (new ++ log) s.
Proof.
  intros Hn (F1 & F2 & F3 & F4 & F5 & F6 & F7).
  do 4 (split; [done|]). split; [|split; [|done]].
  - intros Ht. destruct (F5 Ht) as (? & ? & ?).
    split; [|done]. apply elem_of_app. by right.
  - rewrite elem_of_app, F6. split; [by right|]. by intros [?|?].
Qed.

Lemma executor_flow (i : nat) (supported : bool) (o : TTSOptions)
    (cv : list Voices.SpeechSynthesisVoice) (sh : Shared) :
  (Speak i ∉ calls sh) -> orderly (calls sh) -> paired (calls sh) ->
  let s' := finalScope (newPromise (executor i supported) (newSession o cv, sh)) in
  sessionFlow i (calls s'.2) s'.1
  /\ orderly (calls s'.2) /\ paired (calls s'.2)
  /\ exists new, calls s'.2 = new ++ calls sh /\ forall j, Speak j ∉ new.
Proof.
  intros Hn Ho Hp. cbv zeta. unfold newPromise, executor, tryCatch.
  destruct supported; cbn.
  - destruct (sanitizeText (text o)) eqn:E; cbn.
    + split; [|split; [done|split; [done|]]].
      * unfold sessionFlow; cbn. split_and!; try done.
      * exists []. split; [done|]. intros j. apply not_elem_of_nil.
    + split; [|split; [done|split; [done|]]].
      * unfold sessionFlow; cbn. split_and!; try done.
        -- by left.
        -- intros _. split; [apply list_elem_of_here | done].
        -- split; [done|]. by intros [[=]|?]%elem_of_cons.
      * exists [Cancel (Some i)]. split; [done|].
        intros j [[=]|[]%elem_of_nil]%elem_of_cons.
  - split; [|split; [done|split; [done|]]].
    + unfold sessionFlow; cbn. split_and!; try done.
    + exists []. split; [done|]. intros j. apply not_elem_of_nil.
Qed.

Lemma continuation_flow (i : nat) (p : Platform) (supported : bool)
    (s : Session) (sh : Shared) :
  sessionOK supported s -> sessionFlow i (calls sh) s ->
  orderly (calls sh) -> paired (calls sh) ->
  armed (timeout s) = true ->
  let s' := finalScope
              (bind (setSession (withTimeout Fired))
                 (fun _ => continuation i p) (s, sh)) in
  sessionFlow i (calls s'.2) s'.1
  /\ orderly (calls s'.2) /\ paired (calls s'.2)
  /\ exists new, calls s'.2 = new ++ calls sh
       /\ forall j, Speak j ∈ new -> j = i.
Proof.
  intros (H1 & H2 & H3 & H4 & H5) (F1 & F2 & F3 & F4 & F5 & F6 & F7)
    Ho Hp Ha. cbv zeta.
  assert (timeout s = Armed) as Ht by (by destruct (timeout s)).
  assert (queued s = false) as Hq.
  { destruct (queued s); [|done]. destruct (H2 eq_refl) as [? _]. congruence. }
  assert (resumeInterval s = NotSet) as Hr.
  { destruct (resumeInterval s); [done|..]; exfalso;
      (assert (timeout s = Fired) as HF by (by apply H3)); congruence. }
  pose proof (F1 Ha) as Hpr.
  destruct F5 as (Hc & Hct & Hne); [congruence|].
  assert (Speak i ∉ calls sh) as Hns.
  { intros Hin. apply F6 in Hin. congruence. }
  destruct s as [o cv pr ct to ut q ri]. cbn in *. subst.
  unfold continuation, tryCatch, bind, throwWhen, throwsAt.
  assert (forall new : list EngineCall, new = [] -> forall j, Speak j ∈ new -> j = i)
    as Hnil by (by intros ? -> j ?%elem_of_nil).
  destruct p as [gv [[]|]]; cbn.
  - split; [|split; [done|split; [done|by exists []; split; [|apply Hnil]]]].
    unfold sessionFlow; cbn. split_and!; done.
  - split; [|split; [done|split; [done|by exists []; split; [|apply Hnil]]]].
    unfold sessionFlow; cbn. split_and!; done.
  - destruct (Voices.getBestVoice cv gv); cbn;
      (split; [|split; [done|split; [done|by exists []; split; [|apply Hnil]]]]);
      unfold sessionFlow; cbn; split_and!; done.
  - destruct (Voices.getBestVoice cv gv) as [v|] eqn:E; cbn.
    all: split; [|split; [done|split; [done|]]].
    all: try (exists [Speak i]; split; [done|];
              by intros j [[=]|?%elem_of_nil]%elem_of_cons).
    all: unfold sessionFlow; cbn; split_and!; try done.
    all: try (by right).
    all: try (intros _; split; [by apply elem_of_cons; right | done]).
    all: try (split; [intros _; apply list_elem_of_here | done]).
    all: intros _ u [= <-]; unfold built; cbn; split_and!; try done;
      exists gv; by rewrite E.
Qed.

Lemma keepAlive_flow (i : nat) (speaking supported : bool)
    (s : Session) (sh : Shared) :
  sessionOK supported s -> sessionFlow i (calls sh) s ->
  orderly (calls sh) -> paired (calls sh) ->
  armed (resumeInterval s) = true ->
  let s' := finalScope (keepAlive i speaking (s, sh)) in
  sessionFlow i (calls s'.2) s'.1
  /\ orderly (calls s'.2) /\ paired (calls s'.2)
  /\ exists new, calls s'.2 = new ++ calls sh
       /\ forall j, Speak j ∈ new -> j = i.
Proof.
  intros Hok Hfl Ho Hp Ha. cbv zeta.
  pose proof Hfl as (F1 & F2 & F3 & F4 & F5 & F6 & F7).
  assert (resumeInterval s = Armed) as Hr by (by destruct (resumeInterval s)).
  assert (queued s = true) as Hq by (apply F4; congruence).
  pose proof (proj1 F6 Hq) as Hsp.
  unfold keepAlive. destruct speaking; cbn.
  - split; [|split; [|split; [done|]]].
    + apply (sessionFlow_grow i [Resume i; Pause i]); [|done].
      by intros [[=]|[[=]|?%elem_of_nil]%elem_of_cons]%elem_of_cons.
    + split; [by apply elem_of_cons; right|]. by split.
    + exists [Resume i; Pause i]. split; [done|].
      by intros j [[=]|[[=]|?%elem_of_nil]%elem_of_cons]%elem_of_cons.
  - split; [|split; [done|split; [done|]]].
    + destruct s as [o cv pr ct to ut q ri]. cbn in *. subst.
      unfold sessionFlow; cbn. split_and!; try done.
    + exists []. split; [done|]. by intros j ?%elem_of_nil.
Qed.

Lemma handler_flow (i : nat) (supported : bool) (s : Session) (sh : Shared)
    (body : M unit) :
  body = runOnend \/ body = runOnerror ->
  sessionOK supported s -> sessionFlow i (calls sh) s ->
  queued s = true ->
  let s' := finalScope (body (s, sh)) in
  sessionFlow i (calls s'.2) s'.1 /\ calls s'.2 = calls sh.
Proof.
  intros Hb (H1 & H2 & H3 & H4 & H5) (F1 & F2 & F3 & F4 & F5 & F6 & F7) Hq.
  cbv zeta.
  destruct (H2 Hq) as (Ht & Hr & u & Hu & He & Hx).
  specialize (F7 Hq).
  destruct s as [o cv pr ct to ut q ri]. cbn in *. subst.
  destruct u as [ut uv ul ur up uvol os oe ox]. cbn in *. subst.
  destruct Hb as [-> | ->]; unfold runOnend, runOnerror; cbn;
    destruct pr, ri; try done; cbn; (split; [|done]);
    unfold sessionFlow; cbn; split_and!; try done.
Qed.

(** *** The invariant of the event loop on scopes and log *)

Lemma inScope_hookFlow (i : nat) (enabled : Session -> bool) (body : M unit)
    (h h' : Hook) :
  (forall j s, j <> i -> sessions h !! j = Some s ->
     sessionFlow j (calls (shared h)) s) ->
  (forall j, Speak j ∈ calls (shared h) -> is_Some (sessions h !! j)) ->
  inScope i enabled body h = Some h' ->
  (forall s, sessions h !! i = Some s -> enabled s = true ->
     let s' := finalScope (body (s, shared h)) in
     sessionFlow i (calls s'.2) s'.1
     /\ orderly (calls s'.2) /\ paired (calls s'.2)
     /\ exists new, calls s'.2 = new ++ calls (shared h)
          /\ forall j, Speak j ∈ new -> j = i) ->
  hookFlow h'.
Proof.
  intros Hothers Hdom Hstep Hbody.
  pose proof (inScope_Some _ _ _ _ _ Hstep)
    as (s & Hl & He & _ & _ & Hsh & Hss).
  destruct (Hbody s Hl He) as (Hfl & Ho & Hp & new & Hnew & Hsp).
  rewrite <- Hsh in Hfl, Ho, Hp, Hnew.
  split; [|split; [|by split]].
  - intros j s' Hj.
    destruct (inScope_frame _ _ _ _ _ _ _ Hstep Hj)
      as [[Hne Hj']|(-> & s0 & Hl0 & _ & ->)].
    + rewrite Hnew. apply sessionFlow_grow; [|by apply Hothers].
      intros Hin. by apply Hsp in Hin.
    + rewrite Hl in Hl0. by inversion Hl0; subst.
  - intros j. rewrite Hnew, Hss, elem_of_app. intros [Hin|Hin].
    + apply Hsp in Hin as ->. apply lookup_lt_is_Some.
      rewrite length_insert. by eapply lookup_lt_Some.
    + apply lookup_lt_is_Some. rewrite length_insert.
      by apply lookup_lt_is_Some, Hdom.
Qed.

Lemma step_hookFlow (h h' : Hook) (e : Event) :
  hookOK h -> hookFlow h -> step h e = Some h' -> hookFlow h'.
Proof.
  intros [Hs _] Hfl Hstep. pose proof Hfl as (Hf & Hdom & Ho & Hp).
  assert (forall c, hookFlow
            {| isSupported := isSupported h;
               availableVoices := availableVoices h;
               shared := {| isSpeaking := c.1; utteranceRef := c.2;
                            calls := Cancel None :: calls (shared h) |};
               sessions := sessions h |}) as Hcancel.
  { intros c. split; [|split; [|by split]]; cbn.
    - intros j s Hj. apply (sessionFlow_grow j [Cancel None]); [|by apply Hf].
      by intros [[=]|?%elem_of_nil]%elem_of_cons.
    - intros j [[=]|Hin]%elem_of_cons. by apply Hdom. }
  destruct e as [has vs| |vs|o| |i p|i sp|i|i|i]; cbn [step] in Hstep.
  - destruct has; [|by inversion Hstep; subst]. inversion Hstep; subst.
    unfold loadVoices. by destruct (0 <? length vs)%nat.
  - inversion Hstep; subst. apply (Hcancel (_, _)).
  - inversion Hstep; subst. unfold loadVoices.
    by destruct (0 <? length vs)%nat.
  - eapply inScope_hookFlow; [| |exact Hstep|]; cbn.
    + intros j s Hne Hj.
      apply lookup_app_Some in Hj as [Hj|[Hge Hj]]; [by eapply Hf|].
      apply list_lookup_singleton_Some in Hj as [Hj _]. lia.
    + intros j Hin. apply lookup_lt_is_Some. rewrite length_app.
      apply Hdom, lookup_lt_is_Some in Hin. lia.
    + intros s Hl _.
      rewrite lookup_app_r, Nat.sub_diag in Hl by done.
      inversion Hl; subst s.
      destruct (executor_flow (length (sessions h)) (isSupported h) o
                  (availableVoices h) (shared h))
        as (H1 & H2 & H3 & new & Hnew & Hsp); [|done|done|].
      { intros Hin. apply Hdom, lookup_lt_is_Some in Hin. lia. }
      split; [done|]. split; [done|]. split; [done|].
      exists new. split; [done|]. intros j Hin. by apply Hsp in Hin.
  - inversion Hstep; subst. apply (Hcancel (_, _)).
  - eapply inScope_hookFlow; [by intros; eapply Hf|done|exact Hstep|].
    intros s Hl Ha. cbn beta in Ha.
    by eapply continuation_flow; [eapply Hs|eapply Hf|..].
  - eapply inScope_hookFlow; [by intros; eapply Hf|done|exact Hstep|].
    intros s Hl Ha. cbn beta in Ha.
    by eapply keepAlive_flow; [eapply Hs|eapply Hf|..].
  - eapply inScope_hookFlow; [by intros; eapply Hf|done|exact Hstep|].
    intros s Hl Hq. cbv zeta.
    destruct (onstart_scope s (shared h)) as [-> ->].
    split; [by eapply Hf|]. split; [done|]. split; [done|].
    exists []. split; [done|]. by intros j ?%elem_of_nil.
  - eapply inScope_hookFlow; [by intros; eapply Hf|done|exact Hstep|].
    intros s Hl Hq. cbv zeta.
    destruct (handler_flow i _ s (shared h) runOnend (or_introl eq_refl)
                (Hs _ _ Hl) (Hf _ _ Hl) Hq) as [H1 H2].
    split; [done|]. rewrite H2. split; [done|]. split; [done|].
    exists []. split; [done|]. by intros j ?%elem_of_nil.
  - eapply inScope_hookFlow; [by intros; eapply Hf|done|exact Hstep|].
    intros s Hl Hq. cbv zeta.
    destruct (handler_flow i _ s (shared h) runOnerror (or_intror eq_refl)
                (Hs _ _ Hl) (Hf _ _ Hl) Hq) as [H1 H2].
    split; [done|]. rewrite H2. split; [done|]. split; [done|].
    exists []. split; [done|]. by intros j ?%elem_of_nil.
Qed.

Lemma run_hookFlow (es : list Event) (h h' : Hook) :
  hookOK h -> hookFlow h -> run h es = Some h' -> hookFlow h'.
Proof.
  revert h. induction es as [|e es IH]; intros h Hok Hfl; cbn [run].
  - by intros [= <-].
  - destruct (step h e) as [h1|] eqn:E; [|done].
    apply IH; [by eapply step_hookOK | by eapply step_hookFlow].
Qed.

Lemma reachable_hookFlow (h : Hook) : reachable h -> hookFlow h.
Proof.
  intros [es Hes]. eapply run_hookFlow; [| |exact Hes].
  - split; [|done]. intros i s Hi. cbn in Hi. by destruct i.
  - split; [|split; [|done]].
    + intros i s Hi. cbn in Hi. by destruct i.
    + by intros j ?%elem_of_nil.
Qed.

Lemma clamp_saturated (lo hi x : Q) :
  (lo <= hi)%Q -> saturated lo hi x (clamp lo hi x).
Proof.
  intros H. split; [apply clamp_inside|].
  split; [by apply clamp_below | by apply clamp_above].
Qed.

Lemma getBestVoice_cached (av gv : list Voices.SpeechSynthesisVoice) :
  av <> [] -> exists v, Voices.getBestVoice av gv = Some v /\ v ∈ av.
Proof.
  unfold Voices.getBestVoice, Voices.currentVoices.
  destruct av as [|a l]; [done|]. intros _. cbn [length Nat.ltb Nat.leb].
  cbn [Nat.eqb].
  repeat match goal with
         | |- exists v, match List.find ?f ?l with _ => _ end = _ /\ _ =>
             let Ef := fresh "Ef" in
             destruct (List.find f l) eqn:Ef;
             [eexists; split; [done|];
              apply List.find_some in Ef as [Ef _];
              by apply list_elem_of_In|]
         end.
  exists a. split; [done|]. left.
Qed.

(** X9: Whatever the events, the calls the hook makes to the engine are in
    order: the utterance of a [speak] call is handed over after the cancel
    of that call and at most once, a pause or resume only follows the
    hand-over of the utterance of its call, and pauses and resumes come as
    adjacent pairs, the pause first. *)
Theorem engine_calls_in_order (h : Hook) :
  reachable h ->
  orderly (calls (shared h)) /\ paired (calls (shared h))
  /\ forall i before after,
       calls (shared h) = after ++ Speak i :: before ->
       Cancel (Some i) ∈ before
       /\ (Speak i ∉ before) /\ (Speak i ∉ after)
       /\ (Pause i ∉ before) /\ (Resume i ∉ before).
Proof.
  intros (_ & _ & Ho & Hp)%reachable_hookFlow.
  split; [done|]. split; [done|].
  clear Hp. revert Ho. generalize (calls (shared h)). intros log Ho i.
  assert (forall l, orderly l ->
            forall c, c ∈ l ->
              match c with
              | Speak j | Pause j | Resume j => Speak j ∈ l
              | Cancel _ => True
              end) as Hjust.
  { induction l as [|c l IH]; intros Hl c' Hin; [by apply elem_of_nil in Hin|].
    apply elem_of_cons in Hin as [->|Hin].
    - destruct c as [?|j|j|j]; [done|left|..]; cbn in Hl;
        destruct Hl as [? _]; by right.
    - assert (orderly l) as Hl'.
      { destruct c; cbn in Hl; [done|by destruct Hl as (_ & _ & ?)|
                                 by destruct Hl|by destruct Hl]. }
      specialize (IH Hl' c' Hin). destruct c'; [done|by right..]. }
  induction log as [|c log IH]; intros before after Heq;
    [by destruct after|].
  destruct after as [|c' after]; cbn in Heq; inversion Heq; subst.
  - cbn in Ho. destruct Ho as (Hc & Hn & Ho).
    split; [done|]. split; [done|]. split; [apply not_elem_of_nil|].
    split; intros Hin; apply (Hjust _ Ho) in Hin; done.
  - assert (orderly (after ++ Speak i :: before)) as Ho'.
    { destruct c'; cbn in Ho; [done|by destruct Ho as (_ & _ & ?)|
                                by destruct Ho|by destruct Ho]. }
    destruct (IH Ho' before after eq_refl) as (H1 & H2 & H3 & H4 & H5).
    split; [done|]. split; [done|]. split; [|by split].
    intros [<-|Hin]%elem_of_cons; [|done].
    cbn in Ho. destruct Ho as (_ & Hn & _). apply Hn.
    apply elem_of_app. right. left.
Qed.

(** [Mounted], a call of [speak], its continuation and a keep-alive
    check. *)
Lemma engine_calls_in_order_witness :
  exists h,
    run initial [Mounted true []; CallSpeak hello;
                 TimeoutFires 0 quietPlatform; IntervalFires 0 true] = Some h
    /\ calls (shared h) = [Resume 0; Pause 0; Speak 0; Cancel (Some 0%nat)]
    /\ orderly (calls (shared h)) /\ paired (calls (shared h)).
Proof.
  destruct (run initial [Mounted true []; CallSpeak hello;
                         TimeoutFires 0 quietPlatform; IntervalFires 0 true])
    as [h|] eqn:E; [|vm_compute in E; discriminate E].
  exists h. split; [done|]. split.
  - vm_compute in E. by inversion E.
  - destruct (engine_calls_in_order h (ex_intro _ _ E)) as (H1 & H2 & _).
    by split.
Defined.

(** X10: Every utterance handed to the engine carries the sanitized text of its
    request, which is not empty; its rate, pitch and volume are the
    requested ones (0.9, 1 and 1 when not given) brought into the ranges
    0.1 to 10, 0 to 2 and 0 to 1; its language tag is that of its voice, and
    hi-IN without one; and when voices were cached at the time of the
    call, its voice is one of them. *)
Theorem handed_over_utterance (h : Hook) (i : nat) :
  reachable h -> Speak i ∈ calls (shared h) ->
  exists s u,
    sessions h !! i = Some s /\ utterance s = Some u
    /\ uText u = sanitizeText (text (options s)) /\ uText u <> []
    /\ inBounds u
    /\ saturated (1 # 10) 10 (default (9 # 10)%Q (rate (options s))) (uRate u)
    /\ saturated 0 2 (default 1%Q (pitch (options s))) (uPitch u)
    /\ saturated 0 1 (default 1%Q (volume (options s))) (uVolume u)
    /\ uLang u = from_option Voices.lang "hi-IN" (uVoice u)
    /\ (capturedVoices s <> [] ->
        exists v, uVoice u = Some v /\ v ∈ capturedVoices s).
Proof.
  intros Hr Hin. pose proof (reachable_hookOK h Hr) as [Hs _].
  pose proof (reachable_hookFlow h Hr) as (Hf & Hdom & _).
  destruct (Hdom i Hin) as [s Hl]. specialize (Hs i s Hl).
  destruct (Hf i s Hl) as (_ & _ & _ & _ & F5 & F6 & F7).
  apply F6 in Hin.
  destruct Hs as (_ & H2 & _). destruct (H2 Hin) as (Ht & _ & u & Hu & _).
  destruct (F7 Hin u Hu) as (B1 & B2 & B3 & B4 & B5 & gv & B6).
  destruct F5 as (_ & Hct & Hne); [congruence|].
  exists s, u. split; [done|]. split; [done|].
  split; [congruence|]. split; [congruence|].
  split.
  { unfold inBounds. rewrite B2, B3, B4.
    split; [|split]; by apply clamp_bounds. }
  split; [rewrite B2; by apply clamp_saturated|].
  split; [rewrite B3; by apply clamp_saturated|].
  split; [rewrite B4; by apply clamp_saturated|].
  split; [done|]. intros Hcv. rewrite B6. by apply getBestVoice_cached.
Qed.

(** A request for the rate 20 with the voice [v] cached: the utterance is
    handed over at the rate 10 and bound to [v]. *)
Lemma handed_over_utterance_witness :
  let v := {| Voices.name := "Lekha"; Voices.lang := "hi-IN" |} in
  let o := {| text := units "**hello**"; lang := None; rate := Some 20%Q;
              pitch := None; volume := None |} in
  exists h s u,
    run initial [Mounted true [v]; CallSpeak o; TimeoutFires 0 quietPlatform]
      = Some h
    /\ sessions h !! 0%nat = Some s /\ utterance s = Some u
    /\ uText u = units "hello"
    /\ (uRate u == 10)%Q /\ (uPitch u == 1)%Q /\ (uVolume u == 1)%Q
    /\ uLang u = "hi-IN" /\ uVoice u = Some v.
Proof.
  intros v o.
  destruct (run initial [Mounted true [v]; CallSpeak o;
                         TimeoutFires 0 quietPlatform])
    as [h|] eqn:E; [|vm_compute in E; discriminate E].
  assert (Speak 0 ∈ calls (shared h)) as Hin.
  { vm_compute in E. inversion E; subst h. left. }
  destruct (handed_over_utterance h 0%nat (ex_intro _ _ E) Hin)
    as (s & u & Hl & Hu & Ht & _ & _ & (_ & _ & Hrate) & (Hpitch & _)
        & (Hvol & _) & Hlang & Hvoice).
  assert (options s = o /\ capturedVoices s = [v]) as [Ho Hcv].
  { vm_compute in E. inversion E; subst h. cbn in Hl.
    inversion Hl; subst s. split; reflexivity. }
  rewrite Ho in *. rewrite Hcv in Hvoice.
  destruct Hvoice as (v' & Hv' & Hel); [done|].
  apply list_elem_of_singleton in Hel. subst v'.
  exists h, s, u. split; [done|]. split; [done|]. split; [done|].
  split; [rewrite Ht; by vm_compute|].
  split; [exact (Hrate ltac:(by vm_compute))|].
  split; [exact (Hpitch ltac:(split; by vm_compute))|].
  split; [exact (Hvol ltac:(split; by vm_compute))|].
  split; [by rewrite Hlang, Hv'|done].
Defined.

(** X11: A promise of [speak] that is still pending is waiting for something
    that can still come: either the 50 ms timer of its call is armed, the
    utterance is not yet handed over, and the continuation can run; or the
    utterance has been handed to the engine, and its end and its error event
    each resolve the promise.  Once the promise is resolved, neither the
    50 ms timer nor the keep-alive timer of the call is armed. *)
Theorem pending_promise_in_flight (h : Hook) (i : nat) (s : Session) :
  reachable h -> sessions h !! i = Some s ->
  (promise s = Pending ->
     (armed (timeout s) = true /\ queued s = false
      /\ (Speak i ∉ calls (shared h))
      /\ forall p, is_Some (step h (TimeoutFires i p)))
     \/ (timeout s = Fired /\ queued s = true
         /\ Speak i ∈ calls (shared h)
         /\ forall e, e = UtteranceEnd i \/ e = UtteranceError i ->
              exists h', step h e = Some h'
                         /\ promiseOf h' i = Some Fulfilled))
  /\ (promise s = Fulfilled ->
        armed (timeout s) = false /\ armed (resumeInterval s) = false).
Proof.
  intros Hr Hl. pose proof (reachable_hookOK h Hr) as [Hs _].
  pose proof (reachable_hookFlow h Hr) as (Hf & _).
  specialize (Hs i s Hl).
  destruct (Hf i s Hl) as (F1 & F2 & F3 & F4 & F5 & F6 & F7).
  pose proof (lookup_lt_Some _ _ _ Hl) as Hi.
  split.
  - intros Hp. destruct (queued s) eqn:Hq.
    + right. pose proof Hs as (_ & H2 & _).
      destruct (H2 Hq) as (Ht & _). split; [done|]. split; [done|].
      split; [by apply F6|].
      intros e [-> | ->]; cbn [step]; unfold inScope; rewrite Hl, Hq;
        eexists; (split; [reflexivity|]); unfold promiseOf; cbn [sessions];
        rewrite list_lookup_insert_eq by done; cbn [fmap option_fmap option_map];
        f_equal.
      * by destruct (handler_scope _ s (shared h) runOnend
                       (or_introl eq_refl) Hs Hq) as (_ & ? & _).
      * by destruct (handler_scope _ s (shared h) runOnerror
                       (or_intror eq_refl) Hs Hq) as (_ & ? & _).
    + left. destruct (F2 Hp) as [Ha|?]; [|done].
      split; [done|]. split; [done|]. split.
      * intros Hin. apply F6 in Hin. done.
      * intros p. cbn [step]. unfold inScope. rewrite Hl, Ha. eauto.
  - intros Hp. split.
    + destruct (armed (timeout s)) eqn:Ha; [|done].
      specialize (F1 eq_refl). congruence.
    + specialize (F3 Hp). by destruct (resumeInterval s).
Qed.

(** A call just made on a supported platform with a text to speak: its
    promise is pending, its 50 ms timer armed, and the continuation can
    run. *)
Lemma pending_promise_in_flight_witness :
  exists h s,
    run initial [Mounted true []; CallSpeak hello] = Some h
    /\ sessions h !! 0%nat = Some s /\ promise s = Pending
    /\ armed (timeout s) = true
    /\ forall p, is_Some (step h (TimeoutFires 0 p)).
Proof.
  destruct (run initial [Mounted true []; CallSpeak hello])
    as [h|] eqn:E; [|vm_compute in E; discriminate E].
  destruct (sessions h !! 0%nat) as [s|] eqn:Hl;
    [|vm_compute in E; inversion E; subst h; discriminate Hl].
  assert (promise s = Pending /\ timeout s = Armed) as [Hp Ht].
  { vm_compute in E. inversion E; subst h. cbn in Hl.
    inversion Hl; subst s. split; reflexivity. }
  destruct (pending_promise_in_flight h 0%nat s (ex_intro _ _ E) Hl)
    as [Hpend _].
  destruct (Hpend Hp) as [(Ha & _ & _ & Hstep)|(Hf & _)];
    [|rewrite Ht in Hf; discriminate Hf].
  exists h, s. split; [done|]. split; [done|]. split; [done|]. by split.
Defined.

(** *** What a call keeps *)

Lemma body_kept (i : nat) (p : Platform) (sp sup : bool) (body : M unit)
    (s : Session) (sh : Shared) :
  body = newPromise (executor i sup)
  \/ body = bind (setSession (withTimeout Fired)) (fun _ => continuation i p)
  \/ body = keepAlive i sp
  \/ body = runOnstart \/ body = runOnend \/ body = runOnerror ->
  options (finalScope (body (s, sh))).1 = options s
  /\ capturedVoices (finalScope (body (s, sh))).1 = capturedVoices s.
Proof.
  destruct s as [o cv pr ct to ut q ri].
  intros [-> | [-> | [-> | [-> | [-> | ->]]]]].
  - unfold newPromise, executor, tryCatch. destruct sup; cbn.
    + destruct (sanitizeText (text o)); cbn; [by destruct pr|done].
    + by destruct pr.
  - unfold continuation, tryCatch, bind, throwWhen, throwsAt.
    destruct p as [gv [[]|]]; cbn; try (by destruct pr);
      destruct (Voices.getBestVoice cv gv); cbn; by destruct pr.
  - unfold keepAlive. by destruct sp.
  - unfold runOnstart. cbn. destruct ut as [u|]; [|done].
    by destruct (onstart u).
  - unfold runOnend. cbn. destruct ut as [u|]; [|done].
    destruct (onend u); cbn; [done|by destruct pr|by destruct pr, ri].
  - unfold runOnerror. cbn. destruct ut as [u|]; [|done].
    destruct (onerror u); cbn; [done|by destruct pr|by destruct pr, ri].
Qed.

Lemma inScope_kept (j : nat) (enabled : Session -> bool) (body : M unit)
    (h h' : Hook) (i : nat) (s : Session) :
  (forall s0 sh,
     options (finalScope (body (s0, sh))).1 = options s0
     /\ capturedVoices (finalScope (body (s0, sh))).1 = capturedVoices s0) ->
  inScope j enabled body h = Some h' -> sessions h !! i = Some s ->
  exists s', sessions h' !! i = Some s'
    /\ options s' = options s /\ capturedVoices s' = capturedVoices s.
Proof.
  intros Hbody (s0 & Hl0 & _ & _ & _ & _ & Hss)%inScope_Some Hl.
  rewrite Hss. destruct (decide (i = j)) as [->|Hne].
  - rewrite list_lookup_insert_eq by (by eapply lookup_lt_Some).
    eexists. split; [done|]. rewrite Hl in Hl0. inversion Hl0; subst s0.
    apply Hbody.
  - rewrite list_lookup_insert_ne by done. by exists s.
Qed.

Lemma step_kept (h h' : Hook) (e : Event) :
  step h e = Some h' ->
  (isSupported h = true -> isSupported h' = true)
  /\ (availableVoices h <> [] -> availableVoices h' <> [])
  /\ forall i s, sessions h !! i = Some s ->
       exists s', sessions h' !! i = Some s'
         /\ options s' = options s /\ capturedVoices s' = capturedVoices s.
Proof.
  intros Hstep.
  assert (forall vs h0, isSupported (loadVoices vs h0) = isSupported h0
            /\ (availableVoices h0 <> [] ->
                availableVoices (loadVoices vs h0) <> [])
            /\ sessions (loadVoices vs h0) = sessions h0) as Hload.
  { intros vs h0. unfold loadVoices. destruct vs; cbn; [done|].
    split; [done|]. split; done. }
  assert (forall j enabled body,
            inScope j enabled body h = Some h' ->
            (isSupported h = true -> isSupported h' = true)
            /\ (availableVoices h <> [] -> availableVoices h' <> []))
    as Hsame.
  { intros j en body (s0 & _ & _ & -> & -> & _)%inScope_Some. done. }
  destruct e as [has vs| |vs|o| |j p|j sp|j|j|j]; cbn [step] in Hstep.
  - destruct has; inversion Hstep; subst;
      [|split; [done|split; [done|by eauto]]].
    match goal with
    | |- context [loadVoices vs ?h0] =>
        destruct (Hload vs h0) as (H1 & H2 & H3)
    end.
    rewrite H1, H3. cbn. split; [done|]. split; [exact H2|]. by eauto.
  - inversion Hstep; subst. cbn. split; [done|]. split; [done|]. by eauto.
  - inversion Hstep; subst. destruct (Hload vs h) as (H1 & H2 & H3).
    rewrite H1, H3. split; [done|]. split; [done|]. by eauto.
  - pose proof (inScope_Some _ _ _ _ _ Hstep)
      as (s0 & _ & _ & H1 & H2 & _ & _). cbn in H1, H2.
    rewrite H1, H2. split; [done|]. split; [done|].
    intros i s Hl.
    eapply (inScope_kept _ _ _ _ _ i s); [|exact Hstep|].
    + intros s0' sh.
      apply (body_kept (length (sessions h)) quietPlatform false
               (isSupported h)). by left.
    + cbn. by apply lookup_app_l_Some.
  - inversion Hstep; subst. cbn. split; [done|]. split; [done|]. by eauto.
  - destruct (Hsame _ _ _ Hstep) as [H1 H2].
    split; [done|]. split; [done|]. intros i s Hl.
    eapply inScope_kept; [|exact Hstep|exact Hl].
    intros s0 sh. apply (body_kept j p false false). right. by left.
  - destruct (Hsame _ _ _ Hstep) as [H1 H2].
    split; [done|]. split; [done|]. intros i s Hl.
    eapply inScope_kept; [|exact Hstep|exact Hl].
    intros s0 sh. apply (body_kept j quietPlatform sp false).
    right. right. by left.
  - destruct (Hsame _ _ _ Hstep) as [H1 H2].
    split; [done|]. split; [done|]. intros i s Hl.
    eapply inScope_kept; [|exact Hstep|exact Hl].
    intros s0 sh. apply (body_kept j quietPlatform false false).
    right. right. right. by left.
  - destruct (Hsame _ _ _ Hstep) as [H1 H2].
    split; [done|]. split; [done|]. intros i s Hl.
    eapply inScope_kept; [|exact Hstep|exact Hl].
    intros s0 sh. apply (body_kept j quietPlatform false false).
    right. right. right. right. by left.
  - destruct (Hsame _ _ _ Hstep) as [H1 H2].
    split; [done|]. split; [done|]. intros i s Hl.
    eapply inScope_kept; [|exact Hstep|exact Hl].
    intros s0 sh. apply (body_kept j quietPlatform false false).
    by do 5 right.
Qed.

Lemma run_kept (es : list Event) (h h' : Hook) :
  run h es = Some h' ->
  (isSupported h = true -> isSupported h' = true)
  /\ (availableVoices h <> [] -> availableVoices h' <> [])
  /\ forall i s, sessions h !! i = Some s ->
       exists s', sessions h' !! i = Some s'
         /\ options s' = options s /\ capturedVoices s' = capturedVoices s.
Proof.
  revert h. induction es as [|e es IH]; intros h; cbn [run].
  - intros [= <-]. split; [done|]. split; [done|]. by eauto.
  - destruct (step h e) as [h1|] eqn:E; [|done]. intros Hrun.
    destruct (step_kept _ _ _ E) as (A1 & A2 & A3).
    destruct (IH _ Hrun) as (B1 & B2 & B3).
    split; [by auto|]. split; [by auto|].
    intros i s Hl. destruct (A3 i s Hl) as (s1 & Hl1 & <- & <-).
    by apply B3.
Qed.

(** X12: A [speak] call keeps its request and the voices cached when it was
    made, whatever comes later: with voices cached at that time, the
    utterance it hands over is bound to one of them, also when other voices
    are loaded before its continuation runs.  The cache of voices, once
    filled, is never emptied, and support, once detected, stays. *)
Theorem call_keeps_voices (h h1 h' : Hook) (o : TTSOptions)
    (es : list Event) :
  reachable h -> step h (CallSpeak o) = Some h1 -> run h1 es = Some h' ->
  let i := length (sessions h) in
  (isSupported h = true -> isSupported h' = true)
  /\ (availableVoices h <> [] -> availableVoices h' <> [])
  /\ exists s, sessions h' !! i = Some s
       /\ options s = o /\ capturedVoices s = availableVoices h
       /\ (Speak i ∈ calls (shared h') -> availableVoices h <> [] ->
           exists u v, utterance s = Some u
             /\ uText u = sanitizeText (text o)
             /\ uVoice u = Some v /\ uLang u = Voices.lang v
             /\ v ∈ availableVoices h).
Proof.
  intros Hr Hstep Hrun. cbv zeta.
  pose proof (reachable_hookOK h Hr) as Hok.
  pose proof (reachable_hookFlow h Hr) as Hfl.
  pose proof (step_hookOK _ _ _ Hok Hstep) as Hok1.
  pose proof (step_hookFlow _ _ _ Hok Hfl Hstep) as Hfl1.
  pose proof (run_hookOK _ _ _ Hok1 Hrun) as [Hs' _].
  pose proof (run_hookFlow _ _ _ Hok1 Hfl1 Hrun) as (Hf' & _).
  destruct (step_kept _ _ _ Hstep) as (A1 & A2 & _).
  destruct (run_kept _ _ _ Hrun) as (B1 & B2 & B3).
  split; [by auto|]. split; [by auto|].
  destruct (callSpeak_step h o) as (h1' & Hstep' & Hss & _).
  rewrite Hstep in Hstep'. inversion Hstep'; subst h1'.
  destruct (B3 (length (sessions h))
              (finalScope
                 (newPromise (executor (length (sessions h)) (isSupported h))
                    (newSession o (availableVoices h), shared h))).1)
    as (s & Hl & Ho & Hcv).
  { rewrite Hss, lookup_app_r, Nat.sub_diag by done. done. }
  destruct (body_kept (length (sessions h)) quietPlatform false
              (isSupported h) _ (newSession o (availableVoices h)) (shared h)
              (or_introl eq_refl)) as [Ko Kcv].
  rewrite Ko in Ho. rewrite Kcv in Hcv. cbn in Ho, Hcv.
  exists s. split; [done|]. split; [done|]. split; [done|].
  intros Hin Hne.
  destruct (Hf' _ s Hl) as (_ & _ & _ & _ & F5 & F6 & F7).
  apply F6 in Hin.
  destruct (Hs' _ s Hl) as (_ & H2 & _).
  destruct (H2 Hin) as (Ht & _ & u & Hu & _).
  destruct (F7 Hin u Hu) as (B4 & _ & _ & _ & B5 & gv & B6).
  destruct F5 as (_ & Hct & _); [congruence|].
  destruct (getBestVoice_cached (capturedVoices s) gv) as (v & Hv & Hel);
    [congruence|].
  exists u, v. split; [done|]. split; [congruence|].
  split; [congruence|]. split; [|congruence].
  rewrite B5, B6, Hv. done.
Qed.

(** A call made with the voice [v] cached, then a change of the voices to
    [w], then the continuation: the utterance is bound to [v]. *)
Lemma call_keeps_voices_witness :
  let v := {| Voices.name := "Lekha"; Voices.lang := "hi-IN" |} in
  let w := {| Voices.name := "Daniel"; Voices.lang := "en-GB" |} in
  exists h h1 h' s u,
    run initial [Mounted true [v]] = Some h
    /\ step h (CallSpeak hello) = Some h1
    /\ run h1 [VoicesChanged [w]; TimeoutFires 0 quietPlatform] = Some h'
    /\ availableVoices h' = [w]
    /\ sessions h' !! 0%nat = Some s /\ utterance s = Some u
    /\ uVoice u = Some v.
Proof.
  intros v w.
  destruct (run initial [Mounted true [v]]) as [h|] eqn:E;
    [|vm_compute in E; discriminate E].
  destruct (step h (CallSpeak hello)) as [h1|] eqn:E1;
    [|vm_compute in E; inversion E; subst h; vm_compute in E1;
      discriminate E1].
  destruct (run h1 [VoicesChanged [w]; TimeoutFires 0 quietPlatform])
    as [h'|] eqn:E';
    [|vm_compute in E; inversion E; subst h; vm_compute in E1;
      inversion E1; subst h1; vm_compute in E'; discriminate E'].
  destruct (call_keeps_voices h h1 h' hello _ (ex_intro _ _ E) E1 E')
    as (_ & _ & s & Hl & _ & _ & Hu).
  assert (availableVoices h = [v] /\ length (sessions h) = 0%nat
          /\ availableVoices h' = [w] /\ Speak 0 ∈ calls (shared h'))
    as (Hav & Hlen & Hav' & Hin).
  { vm_compute in E. inversion E; subst h. vm_compute in E1.
    inversion E1; subst h1. vm_compute in E'. inversion E'; subst h'.
    split; [reflexivity|]. split; [reflexivity|]. split; [reflexivity|].
    left. }
  rewrite Hlen in Hl, Hu. rewrite Hav in Hu.
  destruct (Hu Hin) as (u & v' & Hut & _ & Hv' & _ & Hel); [done|].
  apply list_elem_of_singleton in Hel. subst v'.
  by exists h, h1, h', s, u.
Defined.

End SpeechMore.

(** ** Text sanitizer: what is removed and what is kept *)

Section SanitizeMore.

Lemma removeRange_sublist (lo hi : Z) (s : ustring) :
  removeRange lo hi s `sublist_of` s.
Proof.
  induction s as [|c|c d r IHr IHd] using ustring_pair_ind.
  - constructor.
  - cbn. destruct (inRange lo hi c); by repeat constructor.
  - rewrite removeRange_pair. destruct (isHigh c && isLow d).
    + destruct (inRange lo hi (codePoint c d));
        [by do 2 apply sublist_cons | by do 2 apply sublist_skip].
    + destruct (inRange lo hi c);
        [by apply sublist_cons | by apply sublist_skip].
Qed.

Lemma removeEmoji_sublist (s : ustring) : removeEmoji s `sublist_of` s.
Proof.
  unfold removeEmoji, emojiRanges. cbn [fold_left fst snd].
  repeat (etrans; [apply removeRange_sublist|]). done.
Qed.

Lemma replaceAll_sublist (m : matcher) (s : ustring) :
  consuming m ->
  (forall s out rest, m s = Some (out, rest) ->
     exists used, s = used ++ rest /\ out `sublist_of` used) ->
  replaceAll m s `sublist_of` s.
Proof.
  intros Hc Hm.
  apply (replaceAll_ind m Hc (fun s t => t `sublist_of` s)).
  - constructor.
  - intros. by apply sublist_skip.
  - intros c s0 out rest E IH.
    destruct (Hm _ _ _ E) as (used & -> & Hu). by apply sublist_app.
Qed.

Lemma delimited_sublist (open close : ustring) (s : ustring) :
  consuming (delimited open close) ->
  replaceAll (delimited open close) s `sublist_of` s.
Proof.
  intros Hc. apply replaceAll_sublist; [done|].
  intros s0 out rest [-> _]%delimited_Some.
  exists (open ++ out ++ close). split; [by rewrite <- !app_assoc|].
  apply sublist_inserts_l, sublist_inserts_r. done.
Qed.

Lemma stripFormatting_sublist (s : ustring) :
  stripFormatting s `sublist_of` s.
Proof.
  unfold stripFormatting.
  etrans; [|apply removeEmoji_sublist].
  etrans; [|apply delimited_sublist, boldPattern_consuming].
  etrans; [|apply delimited_sublist, italicPattern_consuming].
  etrans; [|apply delimited_sublist, codePattern_consuming].
  apply replaceAll_sublist; [apply headingPattern_consuming|].
  intros s0 out rest (-> & k & c & _ & -> & _)%headingWith_Some.
  exists (replicate k hash ++ [c]). split; [by rewrite <- app_assoc|].
  apply sublist_nil_l.
Qed.

Lemma filter_none (k : Z -> bool) (l : ustring) :
  Forall (fun c => k c = false) l -> List.filter k l = [].
Proof. induction 1 as [|c l Hc _ IH]; [done|]. cbn. by rewrite Hc. Qed.

Lemma replaceAll_filter (k : Z -> bool) (m : matcher) (s : ustring) :
  consuming m ->
  (forall s out rest, m s = Some (out, rest) ->
     exists used, s = used ++ rest
                  /\ List.filter k out = List.filter k used) ->
  List.filter k (replaceAll m s) = List.filter k s.
Proof.
  intros Hc Hm.
  apply (replaceAll_ind m Hc
           (fun s t => List.filter k t = List.filter k s)).
  - done.
  - intros c s0 _ IH. cbn. by rewrite IH.
  - intros c s0 out rest E IH.
    destruct (Hm _ _ _ E) as (used & -> & Hu).
    by rewrite !List.filter_app, IH, Hu.
Qed.

Lemma runOf_filter (k p : Z -> bool) (o s : ustring) :
  (forall c, p c = true -> k c = false) ->
  Forall (fun c => k c = false) o ->
  List.filter k (replaceAll (runOf p o) s) = List.filter k s.
Proof.
  intros Hp Ho. apply replaceAll_filter; [apply runOf_consuming|].
  intros s0 out rest (-> & c & run & -> & Hc & Hrun)%runOf_Some.
  exists (c :: run). split; [done|].
  rewrite !filter_none; [done| |done].
  constructor; [by apply Hp|].
  eapply Forall_impl; [exact Hrun|]. done.
Qed.

Lemma trim_filter (k : Z -> bool) (s : ustring) :
  (forall c, isSpace c = true -> k c = false) ->
  List.filter k (trim s) = List.filter k s.
Proof.
  intros Hk. unfold trim.
  destruct (dropWhile_split isSpace s) as (run & Hs & Hrun).
  destruct (trimEnd_split (dropWhile isSpace s)) as (run' & Hs' & Hrun').
  rewrite Hs at 2. rewrite Hs' at 2. rewrite !List.filter_app.
  rewrite (filter_none k run), (filter_none k run'), app_nil_r; [done|..];
    (eapply Forall_impl; [eassumption|]); done.
Qed.

Lemma solid_not_space (c : Z) : isSpace c = true -> solid c = false.
Proof. unfold solid. by intros ->. Qed.

Lemma cleanWhitespace_filter (s : ustring) :
  List.filter solid (cleanWhitespace s) = List.filter solid s.
Proof.
  unfold cleanWhitespace, spacePattern, newlinePattern.
  rewrite trim_filter by apply solid_not_space.
  rewrite runOf_filter;
    [|apply solid_not_space|by repeat constructor].
  apply runOf_filter; [|by repeat constructor].
  intros c Hc. by apply solid_not_space, isNewline_isSpace.
Qed.

Lemma sublist_filter (k : Z -> bool) (s t : ustring) :
  s `sublist_of` t -> List.filter k s `sublist_of` List.filter k t.
Proof.
  induction 1 as [|c s t _ IH|c s t _ IH]; cbn; [constructor|..];
    destruct (k c); by try constructor.
Qed.

(** X13: Sanitizing invents no text and changes no order: the emoji and
    markdown replacements only delete units; the white space replacements
    leave every unit that is neither white space nor a full stop where it
    is; so the units of the sanitized text other than white space and full
    stops are units of the input, in the order of the input, and every unit
    of the sanitized text is a unit of the input, a full stop or a space. *)
Theorem sanitizeText_only_deletes (x : ustring) :
  stripFormatting x `sublist_of` x
  /\ List.filter solid (cleanWhitespace x) = List.filter solid x
  /\ List.filter solid (sanitizeText x) `sublist_of` List.filter solid x
  /\ Forall (fun c => c ∈ x \/ c = dot \/ c = space) (sanitizeText x).
Proof.
  split; [apply stripFormatting_sublist|].
  split; [apply cleanWhitespace_filter|].
  assert (List.filter solid (sanitizeText x)
            `sublist_of` List.filter solid x) as Hsub.
  { unfold sanitizeText. rewrite cleanWhitespace_filter.
    apply sublist_filter, stripFormatting_sublist. }
  split; [done|].
  apply Forall_forall. intros c Hc.
  destruct (solid c) eqn:Ek.
  - left. assert (c ∈ List.filter solid x) as Hin.
    { eapply elem_of_sublist; [|exact Hsub].
      apply list_elem_of_In, List.filter_In. split; [|done].
      by apply list_elem_of_In. }
    apply list_elem_of_In, List.filter_In in Hin as [Hin _].
    by apply list_elem_of_In.
  - right. destruct (tidy_cleanWhitespace (stripFormatting x)) as (Hsp & _).
    fold (sanitizeText x) in Hsp.
    unfold solid in Ek. apply andb_false_iff in Ek as [Ek|Ek].
    + right. apply negb_false_iff in Ek.
      revert Hsp Hc. generalize (sanitizeText x). intros t.
      induction t as [|d t IH]; intros Hsp Hc;
        [by apply elem_of_nil in Hc|].
      destruct Hsp as [Hd Hsp].
      apply elem_of_cons in Hc as [->|Hc]; [by destruct (Hd Ek)|by apply IH].
    + left. apply negb_false_iff in Ek. by apply Z.eqb_eq in Ek.
Qed.

(** *** The emoji replacements, code point by code point *)

Lemma codePoints_nil (s : ustring) : codePoints s = [] -> s = [].
Proof.
  destruct s as [|c [|d r]]; [done..|]. rewrite codePoints_pair.
  by destruct (isHigh c && isLow d).
Qed.

Lemma wellFormed_removeRange (lo hi : Z) (s : ustring) :
  wellFormed s = true -> wellFormed (removeRange lo hi s) = true.
Proof.
  intros H%(scan_removeRange _ lo hi). revert H. by apply scan_mono.
Qed.

Lemma codePoints_removeRange (lo hi : Z) (s : ustring) :
  wellFormed s = true ->
  codePoints (removeRange lo hi s)
  = List.filter (fun cp => negb (inRange lo hi cp)) (codePoints s).
Proof.
  unfold wellFormed.
  induction s as [|c|c d r IHr IHd] using ustring_pair_ind; [done| |].
  - intros _. cbn. by destruct (inRange lo hi c).
  - rewrite removeRange_pair, codePoints_pair. destruct (isHigh c) eqn:Eh.
    + rewrite scan_high by done.
      intros [[Hl _]%andb_prop Hr%IHr]%andb_prop. rewrite Hl. cbn [andb].
      cbn [List.filter].
      destruct (inRange lo hi (codePoint c d)); cbn [negb]; [done|].
      by rewrite codePoints_pair, Eh, Hl, Hr.
    + rewrite scan_other by done.
      intros [_ Hr%IHd]%andb_prop. cbn [andb List.filter].
      destruct (inRange lo hi c); cbn [negb]; [done|].
      by rewrite codePoints_other, Hr.
Qed.

Lemma filter_filter (f g : Z -> bool) (l : list Z) :
  List.filter f (List.filter g l) = List.filter (fun c => g c && f c) l.
Proof.
  induction l as [|c l IH]; [done|]. cbn.
  destruct (g c); cbn; [|done]. destruct (f c); by rewrite IH.
Qed.

Lemma wellFormed_removeEmoji (s : ustring) :
  wellFormed s = true -> wellFormed (removeEmoji s) = true.
Proof.
  intros H. unfold removeEmoji, emojiRanges. cbn [fold_left fst snd].
  by do 7 apply wellFormed_removeRange.
Qed.

Lemma codePoints_removeEmoji (s : ustring) :
  wellFormed s = true ->
  codePoints (removeEmoji s)
  = List.filter (fun cp => negb (isEmoji cp)) (codePoints s).
Proof.
  intros H. unfold removeEmoji, emojiRanges. cbn [fold_left fst snd].
  pose proof (wellFormed_removeRange 0x1F600 0x1F64F _ H) as H1.
  pose proof (wellFormed_removeRange 0x1F300 0x1F5FF _ H1) as H2.
  pose proof (wellFormed_removeRange 0x1F680 0x1F6FF _ H2) as H3.
  pose proof (wellFormed_removeRange 0x2600 0x26FF _ H3) as H4.
  pose proof (wellFormed_removeRange 0x2700 0x27BF _ H4) as H5.
  pose proof (wellFormed_removeRange 0x1F900 0x1F9FF _ H5) as H6.
  rewrite (codePoints_removeRange _ _ _ H6), (codePoints_removeRange _ _ _ H5),
    (codePoints_removeRange _ _ _ H4), (codePoints_removeRange _ _ _ H3),
    (codePoints_removeRange _ _ _ H2), (codePoints_removeRange _ _ _ H1),
    (codePoints_removeRange _ _ _ H).
  rewrite !filter_filter. apply List.filter_ext. intros c.
  unfold isEmoji, emojiRanges. cbn [existsb fst snd].
  repeat match goal with
         | |- context [inRange ?a ?b c] => destruct (inRange a b c)
         end; done.
Qed.

(** X14: On a well-formed text the emoji replacements remove exactly the code
    points of the seven ranges: the code points of the result are those of
    the input outside the ranges, in their order, and the result is well
    formed.  A well-formed text of such code points only is sanitized to
    the empty text. *)
Theorem removeEmoji_code_points (s : ustring) :
  wellFormed s = true ->
  wellFormed (removeEmoji s) = true
  /\ codePoints (removeEmoji s)
     = List.filter (fun cp => negb (isEmoji cp)) (codePoints s)
  /\ (Forall (fun cp => isEmoji cp = true) (codePoints s) ->
      sanitizeText s = []).
Proof.
  intros H. split; [by apply wellFormed_removeEmoji|].
  split; [by apply codePoints_removeEmoji|].
  intros Hall.
  assert (removeEmoji s = []) as He.
  { apply codePoints_nil. rewrite codePoints_removeEmoji by done.
    apply filter_none. eapply Forall_impl; [exact Hall|].
    cbn. by intros c ->. }
  unfold sanitizeText, stripFormatting. by rewrite He.
Qed.

(** "a", U+1F600 (a surrogate pair), U+2600, "b". *)
Lemma removeEmoji_code_points_witness :
  let s := [97; 0xD83D; 0xDE00; 0x2600; 98] in
  wellFormed s = true
  /\ codePoints s = [97; 0x1F600; 0x2600; 98]
  /\ codePoints (removeEmoji s) = [97; 98].
Proof.
  intros s. split; [by vm_compute|]. split; [by vm_compute|].
  destruct (removeEmoji_code_points s) as (_ & -> & _); by vm_compute.
Defined.

(** *** Texts of white space only *)

Lemma dropWhile_all (p : Z -> bool) (s : ustring) :
  Forall (fun c => p c = true) s -> dropWhile p s = [].
Proof. induction 1 as [|c s Hc _ IH]; [done|]. cbn. by rewrite Hc. Qed.

Lemma isSpace_not_dot (c : Z) : isSpace c = true -> (c =? dot) = false.
Proof.
  intros H. destruct (c =? dot) eqn:E; [|done].
  apply Z.eqb_eq in E. subst c. discriminate H.
Qed.

Lemma newlinePattern_dot (s : ustring) :
  newline ∈ s -> dot ∈ replaceAll newlinePattern s.
Proof.
  apply (replaceAll_ind newlinePattern newlinePattern_consuming
           (fun s t => newline ∈ s -> dot ∈ t)).
  - by intros ?%elem_of_nil.
  - intros c s0 E IH [<-|Hin]%elem_of_cons; [done|]. right. by apply IH.
  - intros c s0 out rest [-> _]%runOf_Some _ _. left.
Qed.

(** X15: A text of white space only is sanitized to the empty text exactly when
    it has no line feed; a text of line feeds only is sanitized to a full
    stop. *)
Theorem sanitizeText_blank :
  (forall x : ustring,
     Forall (fun c => isSpace c = true) x ->
     (sanitizeText x = [] <-> newline ∉ x))
  /\ (forall n : nat, sanitizeText (replicate (S n) newline) = [dot]).
Proof.
  assert (forall x, Forall (fun c => isSpace c = true) x ->
                    sanitizeText x = cleanWhitespace x) as Hplain.
  { intros x Hx. unfold sanitizeText. rewrite stripFormatting_plain; [done|].
    eapply Forall_impl; [exact Hx|]. intros c. apply isSpace_plainUnit. }
  split.
  - intros x Hx. rewrite (Hplain x Hx). split.
    + intros He Hin. apply newlinePattern_dot in Hin.
      assert (dot ∈ List.filter (fun c => c =? dot) (cleanWhitespace x))
        as Hd; [|by rewrite He in Hd; apply elem_of_nil in Hd].
      unfold cleanWhitespace, spacePattern.
      rewrite trim_filter by apply isSpace_not_dot.
      rewrite runOf_filter; [|apply isSpace_not_dot|by repeat constructor].
      apply list_elem_of_In, List.filter_In. split; [|done].
      by apply list_elem_of_In.
    + intros Hn. unfold cleanWhitespace.
      rewrite (replaceAll_id newlinePattern isNewline);
        [|apply newlinePattern_consuming|apply runOf_trigger|].
      * destruct Hx as [|c x Hc Hx]; [done|].
        rewrite (replaceAll_cons _ spacePattern_consuming).
        cbn [spacePattern runOf]. rewrite Hc, (dropWhile_all _ _ Hx). done.
      * apply Forall_forall. intros c Hin. unfold isNewline.
        destruct (c =? newline) eqn:E; [|done].
        apply Z.eqb_eq in E. by subst c.
  - intros n. rewrite Hplain by (by apply Forall_replicate).
    unfold cleanWhitespace. cbn [replicate].
    rewrite (replaceAll_cons _ newlinePattern_consuming).
    cbn [newlinePattern runOf].
    change (isNewline newline) with true. cbn match.
    rewrite <- (app_nil_r (replicate n newline)), dropWhile_replicate by done.
    done.
Qed.

(** A space and a tab. *)
Lemma sanitizeText_blank_witness :
  Forall (fun c => isSpace c = true) [space; 9] /\ sanitizeText [space; 9] = [].
Proof.
  assert (Forall (fun c => isSpace c = true) [space; 9]) as H
    by (by repeat constructor).
  split; [exact H|].
  apply (proj1 sanitizeText_blank _ H).
  intros Hin. repeat (apply elem_of_cons in Hin as [Hin|Hin]; [discriminate Hin|]).
  by apply elem_of_nil in Hin.
Defined.

End SanitizeMore.
